(** * Storage copy / archive engine (storage/copy.go)

    A shallow embedding of the recursive copy engine of the toolbox storage
    package, together with the properties stated about it.

    Go strings are modelled as [string], Go [int] values as [Z] (string
    lengths never come close to the machine word size, so no wrap-around is
    involved), Go [error] values by their message. *)

From Stdlib Require Import String Ascii List ZArith Bool Lia Permutation.
Import ListNotations.

Local Open Scope string_scope.
Local Open Scope Z_scope.

(** ** Go string primitives used by copy.go *)

(** [len(s)] *)
Definition len (s : string) : Z := Z.of_nat (String.length s).

(** [s[i:]] for an index in range (every slice taken by copy.go is guarded so
    that it is in range; out of range Go would panic). *)
Fixpoint drop (n : nat) (s : string) : string :=
  match n, s with
  | O, _ => s
  | S n', String _ s' => drop n' s'
  | S _, EmptyString => EmptyString
  end.

(** [s[:i]] for an index in range. *)
Fixpoint take (n : nat) (s : string) : string :=
  match n, s with
  | O, _ => EmptyString
  | S n', String c s' => String c (take n' s')
  | S _, EmptyString => EmptyString
  end.

Definition slice_from (i : Z) (s : string) : string := drop (Z.to_nat i) s.
Definition slice_to (i : Z) (s : string) : string := take (Z.to_nat i) s.

Module strings.

Definition HasPrefix (s prefix : string) : bool := String.prefix prefix s.

(** [len(s) >= len(suffix) && s[len(s)-len(suffix):] == suffix] *)
Definition HasSuffix (s suffix : string) : bool :=
  (len suffix <=? len s) && (slice_from (len s - len suffix) s =? suffix)%string.

(** Index of the first instance of [substr] in [s], or -1. *)
Fixpoint Index (s substr : string) : Z :=
  if String.prefix substr s then 0
  else match s with
       | EmptyString => -1
       | String _ s' =>
           let i := Index s' substr in
           if i <? 0 then -1 else i + 1
       end.

(** Index of the last instance of [substr] in [s], or -1. *)
Fixpoint LastIndex (s substr : string) : Z :=
  match s with
  | EmptyString => if (substr =? "")%string then 0 else -1
  | String _ s' =>
      let i := LastIndex s' substr in
      if 0 <=? i then i + 1
      else if String.prefix substr s then 0 else -1
  end.

Definition Contains (s substr : string) : bool := 0 <=? Index s substr.

(** [strings.Replace(s, old, new, 1)]: the first instance only. *)
Definition Replace1 (s old new : string) : string :=
  let i := Index s old in
  if i <? 0 then s
  else slice_to i s ++ new ++ slice_from (i + len old) s.

End strings.

Module path.

(** [path.Split]: split immediately after the final slash. *)
Definition Split (p : string) : string * string :=
  let i := strings.LastIndex p "/" in
  (slice_to (i + 1) p, slice_from (i + 1) p).

End path.

(** ** urlPath (copy.go, lines 17-32) *)

Definition urlPath (URL : string) : string :=
  let result := URL in
  let schemaPosition := strings.Index URL "://" in
  let result :=
    if negb (schemaPosition =? -1) then slice_from (schemaPosition + 3) URL
    else result in
  let pathRoot := strings.Index result "/" in
  let result := if pathRoot >? 0 then slice_from pathRoot result else result in
  let result :=
    if strings.HasSuffix result "/" then slice_to (len result - 1) result
    else result in
  result.

(** The last statement of [urlPath] on its own: one trailing slash removed. *)
Definition trimTrailingSlash (s : string) : string :=
  if strings.HasSuffix s "/" then slice_to (len s - 1) s else s.

(** ** Values exchanged with the backends *)

(** A Go [error], by its message. *)
Definition error := string.

(** A Go result pair [(value, error)]. *)
Inductive result (A : Type) : Type :=
| Ok (a : A)
| Err (e : error).
Arguments Ok {A} a.
Arguments Err {A} e.

Definition bytes := list Byte.byte.

(** An [io.Reader] / [io.ReadCloser]: the bytes it yields and, when reading
    ends in an error instead of EOF, that error. *)
Record Reader : Type := {
  data : bytes;
  failure : option error
}.

(** [ioutil.ReadAll] *)
Definition ReadAll (r : Reader) : result bytes :=
  match failure r with
  | Some e => Err e
  | None => Ok (data r)
  end.

(** [ioutil.NopCloser(bytes.NewReader(content))] *)
Definition NopCloser (content : bytes) : Reader :=
  {| data := content; failure := None |}.

Module os.

(** [os.FileInfo], as far as zip headers use it. *)
Record FileInfo : Type := {
Name : string;
Size : Z;
Mode : Z;
ModTime : Z
}.

End os.

(** The [Object] interface: one entry of a backend listing. *)
Record Object : Type := {
  URL : string;
  IsFolder : bool;
  IsContent : bool;
  FileInfo : os.FileInfo
}.

(** The [Service] interface. A backend has state of type [World]; every
    operation may read and change it.  [StorageObject] returns the object
    pointer only: its caller in copy.go discards the error. *)
Record Service (World : Type) : Type := {
  List : string -> World -> result (list Object) * World;
  Download : Object -> World -> result Reader * World;
  Upload : string -> Reader -> World -> option error * World;
  StorageObject : string -> World -> option Object * World
}.
Arguments List {World} _ _ _.
Arguments Download {World} _ _ _.
Arguments Upload {World} _ _ _ _.
Arguments StorageObject {World} _ _ _.

Definition ModificationHandler := Reader -> result Reader.

Definition CopyHandler (World : Type) :=
  Object -> Reader -> Service World -> string -> World -> option error * World.

(** ** Calls made by the engine, in order *)

Inductive Event : Type :=
| EvList (url : string) (r : result (list Object))
| EvDownload (o : Object) (r : result Reader)
| EvModify (input : Reader) (r : result Reader)
| EvStorageObject (url : string) (r : option Object)
| EvHandler (o : Object) (reader : Reader) (destinationURL : string)
            (r : option error).

(** How a call of the engine ends: with [nil], with an error, or cut off by
    the recursion bound of the model. *)
Inductive Res (A : Type) : Type :=
| Done (a : A)
| Fail (e : error)
| OutOfFuel.
Arguments Done {A} a.
Arguments Fail {A} e.
Arguments OutOfFuel {A}.

(** State-passing over the backends' world, recording the calls made. *)
Definition M (World A : Type) : Type := World -> World * list Event * Res A.

Definition ret {World A} (a : A) : M World A := fun w => (w, [], Done a).

Definition bind {World A B} (m : M World A) (f : A -> M World B) : M World B :=
  fun w =>
    match m w with
    | (w1, evs1, Done a) =>
        let '(w2, evs2, r) := f a w1 in (w2, (evs1 ++ evs2)%list, r)
    | (w1, evs1, Fail e) => (w1, evs1, Fail e)
    | (w1, evs1, OutOfFuel) => (w1, evs1, OutOfFuel)
    end.

Definition raise {World A} (e : error) : M World A := fun w => (w, [], Fail e).

Notation "x <- m ;; f" := (bind m (fun x => f))
  (at level 61, m at next level, right associativity).
Notation "m ;;; f" := (bind m (fun _ => f))
  (at level 61, right associativity).

(** A fallible backend call, recorded; its error is passed through [wrap]. *)
Definition call {World A} (op : World -> result A * World)
    (ev : result A -> Event) (wrap : error -> error) : M World A :=
  fun w =>
    let '(r, w') := op w in
    (w', [ev r],
     match r with
     | Ok a => Done a
     | Err e => Fail (wrap e)
     end).

Definition events {World A} (x : World * list Event * Res A) : list Event :=
  snd (fst x).
Definition outcome {World A} (x : World * list Event * Res A) : Res A :=
  snd x.
Definition final {World A} (x : World * list Event * Res A) : World :=
  fst (fst x).

(** [object != nil && object.IsFolder()] *)
Definition isFolderObject (o : option Object) : bool :=
  match o with
  | Some o => IsFolder o
  | None => false
  end.

(** ** copyStorageContent (copy.go, lines 34-120) *)

Section Engine.

Context {World : Type}.

(** [toolbox.URLPathJoin] is not part of this package. *)
Variable URLPathJoin : string -> string -> string.

(** Lines 48-55: the two [continue] guards. *)
Definition skipObject (sourceURLPath subPath : string) (object : Object)
    (objectURLPath : string) : bool :=
  IsFolder object &&
  ((sourceURLPath =? objectURLPath)%string ||
   (negb (subPath =? "")%string &&
    (objectURLPath =? URLPathJoin sourceURLPath subPath)%string)).

(** Lines 57-62.  [objectRelativePath] is declared before the loop
    (line 43): an object whose path is not longer than the root's keeps
    the value left by the previous iteration. *)
Definition nextRelativePath (sourceURLPath objectURLPath
    objectRelativePath : string) : string :=
  if len objectURLPath >? len sourceURLPath then
    let objectRelativePath := slice_from (len sourceURLPath) objectURLPath in
    if strings.HasPrefix objectRelativePath "/"
    then slice_from 1 objectRelativePath
    else objectRelativePath
  else objectRelativePath.

(** Lines 63-66. *)
Definition destinationFor (destinationURL objectRelativePath : string)
    : string :=
  if negb (objectRelativePath =? "")%string
  then URLPathJoin destinationURL objectRelativePath
  else destinationURL.

(** Lines 75-88. *)
Definition modifyContent (modifyContentHandler : option ModificationHandler)
    (object : Object) (destinationObjectURL : string) (reader : Reader)
    : M World Reader :=
  match modifyContentHandler with
  | None => ret reader
  | Some handler =>
      match ReadAll reader with
      | Err e => raise e
      | Ok content =>
          let reader := NopCloser content in
          call (fun w => (handler reader, w)) (EvModify reader)
            (fun e => "unable modify content, " ++ URL object ++ " "
                      ++ destinationObjectURL ++ " " ++ e)
      end
  end.

(** Lines 89-105: the destination of a content object of the first
    listing. *)
Definition topLevelDestination (destinationService : Service World)
    (destinationURL : string) (object : Object)
    (destinationObjectURL : string) : M World string :=
  let sourceName := snd (path.Split (URL object)) in
  let destinationName := snd (path.Split destinationURL) in
  if strings.HasSuffix destinationObjectURL "/" then
    ret (URLPathJoin destinationObjectURL sourceName)
  else
    fun w =>
      let '(destinationObject, w') :=
        StorageObject destinationService destinationObjectURL w in
      (w', [EvStorageObject destinationObjectURL destinationObject],
       Done
         (if isFolderObject destinationObject
          then URLPathJoin destinationObjectURL sourceName
          else if negb (destinationName =? sourceName)%string
          then
            if negb (strings.Contains destinationName ".")
            then URLPathJoin destinationURL sourceName
            else destinationObjectURL
          else destinationObjectURL)).

(** Line 107. *)
Definition invoke (copyHandler : CopyHandler World) (object : Object)
    (reader : Reader) (destinationService : Service World)
    (destinationObjectURL : string) : M World unit :=
  fun w =>
    let '(err, w') :=
      copyHandler object reader destinationService destinationObjectURL w in
    (w', [EvHandler object reader destinationObjectURL err],
     match err with
     | Some e => Fail e
     | None => Done tt
     end).

(** Lines 67-111: a content object.  (The deferred [reader.Close()] of
    line 73 runs when the enclosing call returns; closing is not
    observable in this model.) *)
Definition copyContent (sourceService destinationService : Service World)
    (destinationURL : string)
    (modifyContentHandler : option ModificationHandler) (subPath : string)
    (copyHandler : CopyHandler World) (object : Object)
    (destinationObjectURL : string) : M World unit :=
  reader <- call (Download sourceService object) (EvDownload object)
              (fun e => "unable download, " ++ URL object ++ " -> "
                        ++ destinationObjectURL ++ ", " ++ e) ;;
  reader <- modifyContent modifyContentHandler object destinationObjectURL
              reader ;;
  destinationObjectURL <-
    (if (subPath =? "")%string
     then topLevelDestination destinationService destinationURL object
            destinationObjectURL
     else ret destinationObjectURL) ;;
  invoke copyHandler object reader destinationService destinationObjectURL.

(** Lines 45-118: the loop over one listing.  [recurse] is the call of
    line 113 with everything but [subPath] fixed. *)
Fixpoint copyObjects (recurse : string -> M World unit)
    (sourceService : Service World) (sourceURL : string)
    (destinationService : Service World) (destinationURL : string)
    (modifyContentHandler : option ModificationHandler) (subPath : string)
    (copyHandler : CopyHandler World)
    (objects : list Object) (objectRelativePath : string) : M World unit :=
  match objects with
  | [] => ret tt
  | object :: rest =>
      let sourceURLPath := urlPath sourceURL in
      let objectURLPath := urlPath (URL object) in
      if skipObject sourceURLPath subPath object objectURLPath then
        copyObjects recurse sourceService sourceURL destinationService
          destinationURL modifyContentHandler subPath copyHandler rest
          objectRelativePath
      else
        let objectRelativePath :=
          nextRelativePath sourceURLPath objectURLPath objectRelativePath in
        let destinationObjectURL :=
          destinationFor destinationURL objectRelativePath in
        (if IsContent object
         then copyContent sourceService destinationService destinationURL
                modifyContentHandler subPath copyHandler object
                destinationObjectURL
         else recurse objectRelativePath) ;;;
        copyObjects recurse sourceService sourceURL destinationService
          destinationURL modifyContentHandler subPath copyHandler rest
          objectRelativePath
  end.

(** The recursion of line 113 is bounded by [fuel]: a backend whose
    listings never bottom out makes the Go function recurse for ever. *)
Fixpoint copyStorageContent (fuel : nat) (sourceService : Service World)
    (sourceURL : string) (destinationService : Service World)
    (destinationURL : string)
    (modifyContentHandler : option ModificationHandler) (subPath : string)
    (copyHandler : CopyHandler World) : M World unit :=
  match fuel with
  | O => fun w => (w, [], OutOfFuel)
  | S fuel' =>
      let sourceListURL :=
        if negb (subPath =? "")%string
        then URLPathJoin sourceURL subPath
        else sourceURL in
      objects <- call (List sourceService sourceListURL)
                   (EvList sourceListURL) (fun e => e) ;;
      copyObjects
        (fun subPath =>
           copyStorageContent fuel' sourceService sourceURL
             destinationService destinationURL modifyContentHandler subPath
             copyHandler)
        sourceService sourceURL destinationService destinationURL
        modifyContentHandler subPath copyHandler objects ""
  end.

(** ** copySourceToDestination (lines 122-128) *)
Definition copySourceToDestination : CopyHandler World :=
  fun sourceObject reader destinationService destinationURL w =>
    let '(err, w') := Upload destinationService destinationURL reader w in
    (match err with
     | Some e =>
         Some ("unable upload, " ++ URL sourceObject ++ " "
               ++ destinationURL ++ " " ++ e)
     | None => None
     end, w').

(** ** Copy (lines 154-163) *)
Definition Copy (fuel : nat) (sourceService : Service World)
    (sourceURL : string) (destinationService : Service World)
    (destinationURL : string)
    (modifyContentHandler : option ModificationHandler)
    (copyHandler : option (CopyHandler World)) : M World unit :=
  let copyHandler :=
    match copyHandler with
    | None => copySourceToDestination
    | Some h => h
    end in
  fun w =>
    match copyStorageContent fuel sourceService sourceURL destinationService
            destinationURL modifyContentHandler "" copyHandler w with
    | (w', evs, Fail err) =>
        (w', evs,
         Fail ("failed to copy " ++ sourceURL ++ " -> " ++ destinationURL
               ++ ": " ++ err))
    | x => x
    end.

End Engine.

(** ** Collaborators outside copy.go *)

Module toolbox.

(** Modelled from the spec: [toolbox.URLPathJoin], whose source is not in
    this package; the spec describes it as a "scheme-aware concatenation
    that avoids duplicate separators".  The base keeps its scheme and
    host, a separator is inserted between base and segment, and one
    already present on either side is not duplicated.  An empty path
    leaves the base as it is. *)
Definition URLPathJoin (baseURL path : string) : string :=
  if (path =? "")%string then baseURL
  else trimTrailingSlash baseURL ++ "/"
       ++ (if strings.HasPrefix path "/" then slice_from 1 path else path).

End toolbox.

Module zip.

(** [archive/zip] of the Go standard library, as far as copy.go uses it. *)
Definition Store : Z := 0.
Definition Deflate : Z := 8.

Record FileHeader : Type := {
  Name : string;
  Method : Z;
  Info : os.FileInfo
}.

Record Entry : Type := {
  header : FileHeader;
  content : bytes
}.

(** A [zip.Writer]: the headers it has recorded ([w.dir]), each with the
    bytes written through it; the error with which a write to its stream
    has failed, if one has, which every later write returns again; and
    whether the entry created last is still open ([w.last]).  What [Close]
    later writes for the recorded headers is not part of this model, and
    neither is a stream that starts to fail during a walk. *)
Record Writer : Type := {
  entries : list Entry;
  broken : option error;
  last : bool
}.

Definition errLongName : error := "zip: FileHeader.Name too long".
Definition ErrAlgorithm : error := "zip: unsupported compression algorithm".
Definition errDirectory : error := "zip: write to directory".

Definition FileInfoHeader (fi : os.FileInfo) : result FileHeader :=
  Ok {| Name := os.Name fi; Method := Store; Info := fi |}.

(** What [CreateHeader] returns to write the bytes of the entry to: the
    writer of a file, or the writer of a directory, which takes no
    bytes. *)
Inductive EntryWriter : Type :=
| fileWriter
| dirWriter.

(** [w.CreateHeader(fh)].  The entry created before, if it is still open,
    is closed first, which writes to the stream.  A name that ends in a
    separator makes a directory: its method is set to Store.  For any
    other name a method other than Store and Deflate has no compressor.
    Then the header is recorded, and after that written: a name of more
    than 65535 bytes is refused before anything is written.  (The check
    for the same header passed twice does not apply: copy.go makes a new
    header for every call.) *)
Definition CreateHeader (fh : FileHeader) (w : Writer)
    : result EntryWriter * Writer :=
  match (if last w then broken w else None) with
  | Some e =>
      (Err e, {| entries := entries w; broken := broken w; last := false |})
  | None =>
      let directory := strings.HasSuffix (Name fh) "/" in
      if negb directory
         && negb ((Method fh =? Store) || (Method fh =? Deflate)) then
        (Err ErrAlgorithm,
         {| entries := entries w; broken := broken w; last := false |})
      else
        let fh :=
          if directory
          then {| Name := Name fh; Method := Store; Info := Info fh |}
          else fh in
        let dir :=
          (entries w ++ [{| header := fh; content := [] |}])%list in
        if len (Name fh) >? 65535 then
          (Err errLongName,
           {| entries := dir; broken := broken w; last := false |})
        else
          match broken w with
          | Some e =>
              (Err e, {| entries := dir; broken := broken w; last := false |})
          | None =>
              (Ok (if directory then dirWriter else fileWriter),
               {| entries := dir; broken := None; last := negb directory |})
          end
  end.

Definition appendLast (bs : bytes) (es : list Entry) : list Entry :=
  match rev es with
  | [] => []
  | e :: before =>
      (rev before
       ++ [{| header := header e; content := (content e ++ bs)%list |}])%list
  end.

(** [io.Copy(writer, reader)]: into the entry opened last; the writer of a
    directory refuses the first bytes it is given. *)
Definition ioCopy (writer : EntryWriter) (reader : Reader) (w : Writer)
    : option error * Writer :=
  match writer with
  | fileWriter =>
      (failure reader,
       {| entries := appendLast (data reader) (entries w);
          broken := broken w;
          last := last w |})
  | dirWriter =>
      (match data reader with
       | [] => failure reader
       | _ => Some errDirectory
       end, w)
  end.

End zip.

Module memory.

(** Modelled from the spec: the in-memory backend ([NewMemoryService]),
    whose source is not in this package.  Following the Service contract
    of the spec: a URL-keyed store; [Upload] writes the whole stream at
    the URL, parents exist as soon as something is stored below them;
    [StorageObject] resolves one URL or fails; [List] returns the object
    itself or the immediate children of a folder, and fails on a missing
    path. *)
Definition Store : Type := list (string * bytes).

Definition NewMemoryService : Store := [].

Fixpoint lookup (url : string) (s : Store) : option bytes :=
  match s with
  | [] => None
  | (k, v) :: s' => if (k =? url)%string then Some v else lookup url s'
  end.

Definition below (url key : string) : bool :=
  strings.HasPrefix key (trimTrailingSlash url ++ "/").

Definition isFolder (url : string) (s : Store) : bool :=
  existsb (fun kv => below url (fst kv)) s.

Definition contentObject (url : string) (v : bytes) : Object :=
  {| URL := url; IsFolder := false; IsContent := true;
     FileInfo := {| os.Name := snd (path.Split url);
                    os.Size := Z.of_nat (List.length v);
                    os.Mode := 420; os.ModTime := 0 |} |}.

Definition folderObject (url : string) : Object :=
  {| URL := url; IsFolder := true; IsContent := false;
     FileInfo := {| os.Name := snd (path.Split url); os.Size := 0;
                    os.Mode := 493; os.ModTime := 0 |} |}.

Definition resolve (url : string) (s : Store) : option Object :=
  match lookup url s with
  | Some v => Some (contentObject url v)
  | None => if isFolder url s then Some (folderObject url) else None
  end.

(** The URL of the immediate child of [url] on the way to [key]. *)
Definition childURL (url key : string) : string :=
  let base := trimTrailingSlash url ++ "/" in
  let rest := slice_from (len base) key in
  let i := strings.Index rest "/" in
  base ++ (if i <? 0 then rest else slice_to i rest).

Fixpoint dedupe (l : list string) : list string :=
  match l with
  | [] => []
  | x :: l' =>
      if existsb (String.eqb x) l' then dedupe l' else x :: dedupe l'
  end.

Definition children (url : string) (s : Store) : list Object :=
  let urls :=
    dedupe (map (fun kv => childURL url (fst kv))
              (filter (fun kv => below url (fst kv)) s)) in
  flat_map (fun u => match resolve u s with
                     | Some o => [o]
                     | None => []
                     end) urls.

Definition service : Service Store := {|
  List := fun url s =>
    (match lookup url s with
     | Some v => Ok [contentObject url v]
     | None =>
         if isFolder url s then Ok (children url s)
         else Err ("not found: " ++ url)
     end, s);
  Download := fun o s =>
    (match lookup (URL o) s with
     | Some v => Ok (NopCloser v)
     | None => Err ("not found: " ++ URL o)
     end, s);
  Upload := fun url reader s =>
    match failure reader with
    | Some e => (Some e, s)
    | None => (None, (url, data reader) :: s)
    end;
  StorageObject := fun url s => (resolve url s, s)
|}.

End memory.

(** ** Archive and ArchiveWithFilter (copy.go, lines 130-205) *)

(** What one archive call works on: the caller's backend, the throw-away
    memory backend and the zip writer. *)
Record ArchiveWorld (W : Type) : Type := {
  backend : W;
  scratch : memory.Store;
  archive : zip.Writer
}.
Arguments backend {W} _.
Arguments scratch {W} _.
Arguments archive {W} _.

Section Archive.

Context {W : Type}.

Variable URLPathJoin : string -> string -> string.

(** [toolbox.URLSplit] is not part of this package, and the spec does not
    describe it. *)
Variable URLSplit : string -> string * string.

Definition onBackend (s : Service W) : Service (ArchiveWorld W) := {|
  List := fun url w =>
    let '(r, b) := List s url (backend w) in
    (r, {| backend := b; scratch := scratch w; archive := archive w |});
  Download := fun o w =>
    let '(r, b) := Download s o (backend w) in
    (r, {| backend := b; scratch := scratch w; archive := archive w |});
  Upload := fun url reader w =>
    let '(r, b) := Upload s url reader (backend w) in
    (r, {| backend := b; scratch := scratch w; archive := archive w |});
  StorageObject := fun url w =>
    let '(r, b) := StorageObject s url (backend w) in
    (r, {| backend := b; scratch := scratch w; archive := archive w |})
|}.

Definition onScratch (s : Service memory.Store)
    : Service (ArchiveWorld W) := {|
  List := fun url w =>
    let '(r, m) := List s url (scratch w) in
    (r, {| backend := backend w; scratch := m; archive := archive w |});
  Download := fun o w =>
    let '(r, m) := Download s o (scratch w) in
    (r, {| backend := backend w; scratch := m; archive := archive w |});
  Upload := fun url reader w =>
    let '(r, m) := Upload s url reader (scratch w) in
    (r, {| backend := backend w; scratch := m; archive := archive w |});
  StorageObject := fun url w =>
    let '(r, m) := StorageObject s url (scratch w) in
    (r, {| backend := backend w; scratch := m; archive := archive w |})
|}.

(** Lines 144-149 and 191-196: the entry is opened and filled. *)
Definition writeEntry (header : zip.FileHeader) (reader : Reader)
    (w : ArchiveWorld W) : option error * ArchiveWorld W :=
  match zip.CreateHeader header (archive w) with
  | (Err e, a) =>
      (Some e, {| backend := backend w; scratch := scratch w; archive := a |})
  | (Ok writer, a) =>
      let '(err, a') := zip.ioCopy writer reader a in
      (err, {| backend := backend w; scratch := scratch w; archive := a' |})
  end.

(** Lines 130-151. *)
Definition getArchiveCopyHandler (parentURL : string)
    : CopyHandler (ArchiveWorld W) :=
  fun sourceObject reader destinationService destinationURL w =>
    let relativePath := snd (URLSplit destinationURL) in
    let relativePath :=
      if negb (destinationURL =? parentURL)%string
      then strings.Replace1 destinationURL parentURL ""
      else relativePath in
    match zip.FileInfoHeader (FileInfo sourceObject) with
    | Err e => (Some e, w)
    | Ok header =>
        let header :=
          {| zip.Name := relativePath; zip.Method := zip.Deflate;
             zip.Info := zip.Info header |} in
        writeEntry header reader w
    end.

(** Lines 172-198. *)
Definition getArchiveCopyHandlerWithFilter (parentURL : string)
    (predicate : Object -> bool) : CopyHandler (ArchiveWorld W) :=
  fun sourceObject reader destinationService destinationURL w =>
    if negb (predicate sourceObject) then (None, w)
    else
      let relativePath := snd (URLSplit destinationURL) in
      let relativePath :=
        if negb (destinationURL =? parentURL)%string
        then strings.Replace1 destinationURL parentURL ""
        else relativePath in
      match zip.FileInfoHeader (FileInfo sourceObject) with
      | Err e => (Some e, w)
      | Ok header =>
          let relativePath :=
            if strings.HasPrefix relativePath "/"
            then slice_from 1 relativePath
            else relativePath in
          let header :=
            {| zip.Name := relativePath; zip.Method := zip.Store;
               zip.Info := zip.Info header |} in
          writeEntry header reader w
      end.

Definition destURL : string := "mem:///dev/nul".

(** Lines 166-170. *)
Definition Archive (fuel : nat) (service : Service W) (URL : string)
    (w : W) (writer : zip.Writer)
    : ArchiveWorld W * list Event * Res unit :=
  Copy URLPathJoin fuel (onBackend service) URL (onScratch memory.service)
    destURL None (Some (getArchiveCopyHandler destURL))
    {| backend := w; scratch := memory.NewMemoryService; archive := writer |}.

(** Lines 201-205. *)
Definition ArchiveWithFilter (fuel : nat) (service : Service W)
    (URL : string) (w : W) (writer : zip.Writer)
    (predicate : Object -> bool)
    : ArchiveWorld W * list Event * Res unit :=
  Copy URLPathJoin fuel (onBackend service) URL (onScratch memory.service)
    destURL None (Some (getArchiveCopyHandlerWithFilter destURL predicate))
    {| backend := w; scratch := memory.NewMemoryService; archive := writer |}.

End Archive.

(** ** Reading the record of calls *)

(** The calls that returned an error the engine acts on.  (The error of
    [StorageObject] is discarded by line 95.) *)
Definition failed (e : Event) : bool :=
  match e with
  | EvList _ (Err _) => true
  | EvDownload _ (Err _) => true
  | EvModify _ (Err _) => true
  | EvHandler _ _ _ (Some _) => true
  | _ => false
  end.

(** The objects passed to the copy handler, in order. *)
Fixpoint handled (evs : list Event) : list Object :=
  match evs with
  | [] => []
  | EvHandler o _ _ _ :: evs' => o :: handled evs'
  | _ :: evs' => handled evs'
  end.

(** The objects returned by the listings, in order. *)
Fixpoint listed (evs : list Event) : list Object :=
  match evs with
  | [] => []
  | EvList _ (Ok objects) :: evs' => (objects ++ listed evs')%list
  | _ :: evs' => listed evs'
  end.

(** The data-model invariant of [Object]: folder or content, not both. *)
Definition classified (o : Object) : Prop := IsFolder o = negb (IsContent o).

(** The destination URLs passed to the copy handler, in order. *)
Fixpoint destinations (evs : list Event) : list string :=
  match evs with
  | [] => []
  | EvHandler _ _ u _ :: evs' => u :: destinations evs'
  | _ :: evs' => destinations evs'
  end.

(** ** Properties of a walk *)

(** A property of the calls made and of the outcome, whatever the world. *)
Definition always {World A} (P : list Event -> Res A -> Prop)
    (m : M World A) : Prop :=
  forall w, P (events (m w)) (outcome (m w)).

(** No failed call, or exactly one, in the last position and returned. *)
Definition stopsAtFirstError {A} (evs : list Event) (r : Res A) : Prop :=
  Forall (fun e => failed e = false) evs \/
  exists pre e err,
    evs = (pre ++ [e])%list /\ Forall (fun e => failed e = false) pre /\
    r = Fail err.

(** Every content object listed is matched by a handler call, up to the
    objects [missed]; none is missed in a walk that returns [nil] over
    well-classified objects. *)
Definition accounted (objects : list Object) (evs : list Event)
    (r : Res unit) : Prop :=
  exists missed,
    Permutation (handled evs ++ missed)
                (filter IsContent (objects ++ listed evs)) /\
    (r = Done tt -> Forall classified (objects ++ listed evs) -> missed = []).

(** The outcome of one top-level call: the handler calls and the listed
    content objects match one to one, up to the objects [missed]; none is
    missed when the call returned [nil] over well-classified objects, and
    then no folder was passed to the handler. *)
Definition handledOnce {World : Type} (x : World * list Event * Res unit)
    : Prop :=
  exists missed,
    Permutation (handled (events x) ++ missed)
                (filter IsContent (listed (events x))) /\
    (outcome x = Done tt -> Forall classified (listed (events x)) ->
     missed = []) /\
    (Forall classified (listed (events x)) ->
     Forall (fun o => IsContent o = true /\ IsFolder o = false)
            (handled (events x))).

(** With a modification handler [h]: every handler call is the end of the
    chain "download the object, read it whole, apply [h]" (and, in the first
    listing, the probe of the destination), and receives what [h]
    returned. *)
Definition transformedBy (h : ModificationHandler) (evs : list Event) : Prop :=
  forall pre o r u res post,
    evs = (pre ++ EvHandler o r u res :: post)%list ->
    exists pre' rd content probe,
      pre = (pre' ++ [EvDownload o (Ok rd); EvModify (NopCloser content) (Ok r)]
                 ++ probe)%list /\
      ReadAll rd = Ok content /\
      h (NopCloser content) = Ok r /\
      (probe = [] \/ exists u' p, probe = [EvStorageObject u' p]).

(** ** The uploads a destination receives *)

(** The world of the backends together with the uploads the destination
    has received so far: the URL and the stream of each [Upload] call, in
    order. *)
Definition Recorded (World : Type) : Type :=
  (World * list (string * Reader))%type.

(** [s] on such worlds; the record is carried along. *)
Definition unrecorded {World : Type} (s : Service World)
    : Service (Recorded World) := {|
  List := fun url w =>
    let '(r, b) := List s url (fst w) in (r, (b, snd w));
  Download := fun o w =>
    let '(r, b) := Download s o (fst w) in (r, (b, snd w));
  Upload := fun url reader w =>
    let '(r, b) := Upload s url reader (fst w) in (r, (b, snd w));
  StorageObject := fun url w =>
    let '(r, b) := StorageObject s url (fst w) in (r, (b, snd w))
|}.

(** [s] on such worlds, with every [Upload] it receives put on record. *)
Definition recording {World : Type} (s : Service World)
    : Service (Recorded World) := {|
  List := fun url w =>
    let '(r, b) := List s url (fst w) in (r, (b, snd w));
  Download := fun o w =>
    let '(r, b) := Download s o (fst w) in (r, (b, snd w));
  Upload := fun url reader w =>
    let '(r, b) := Upload s url reader (fst w) in
    (r, (b, (snd w ++ [(url, reader)])%list));
  StorageObject := fun url w =>
    let '(r, b) := StorageObject s url (fst w) in (r, (b, snd w))
|}.

(** The destination URL and the stream of each handler call, in order. *)
Definition uploadsOf (evs : list Event) : list (string * Reader) :=
  flat_map (fun ev =>
              match ev with
              | EvHandler _ r u _ => [(u, r)]
              | _ => []
              end) evs.

(** [m'] does on worlds with a record what [m] does without: the same
    calls, the same outcome, the same world of the backends. *)
Definition mirrors {World A : Type} (m : M World A)
    (m' : M (Recorded World) A) : Prop :=
  forall w l,
    events (m' (w, l)) = events (m w) /\
    outcome (m' (w, l)) = outcome (m w) /\
    fst (final (m' (w, l))) = final (m w).

(** Between [w] and [w'] the uploads of the handler calls of [evs] were
    put on record. *)
Definition recorded {World : Type} (w : Recorded World) (evs : list Event)
    (w' : Recorded World) : Prop :=
  snd w' = (snd w ++ uploadsOf evs)%list.

(** The third naming rule in the words of the spec: "replace the
    destination's last segment with the source's base name". *)
Definition replaceLastSegment (destinationURL sourceName : string) : string :=
  fst (path.Split destinationURL) ++ sourceName.

(** [m] takes every world to one related to it by [R]. *)
Definition keeps {World A : Type} (R : World -> World -> Prop)
    (m : M World A) : Prop :=
  forall w, R w (final (m w)).

(** The operations of a backend the engine itself calls. *)
Definition serviceKeeps {World : Type} (R : World -> World -> Prop)
    (s : Service World) : Prop :=
  (forall url w, R w (snd (List s url w))) /\
  (forall o w, R w (snd (Download s o w))) /\
  (forall url w, R w (snd (StorageObject s url w))).

Definition handlerKeeps {World : Type} (R : World -> World -> Prop)
    (h : CopyHandler World) : Prop :=
  forall o r dst u w, R w (snd (h o r dst u w)).

(** Between [w] and [w'] entries were only added to the archive, all with
    a header that satisfies [ok]. *)
Definition wrote {W : Type} (ok : zip.FileHeader -> Prop)
    (w w' : ArchiveWorld W) : Prop :=
  exists added,
    map zip.header (zip.entries (archive w')) =
    (map zip.header (zip.entries (archive w)) ++ added)%list /\
    Forall ok added.

(** The method of an entry that was asked for with [method]: a directory,
    which is an entry whose name ends in a separator, is stored. *)
Definition methodFor (method : Z) (fh : zip.FileHeader) : Prop :=
  zip.Method fh =
  if strings.HasSuffix (zip.Name fh) "/" then zip.Store else method.

(** ** Backends given by a table of answers, for concrete runs *)

Fixpoint assoc {A : Type} (k : string) (l : list (string * A)) : option A :=
  match l with
  | [] => None
  | (k', v) :: l' => if (k' =? k)%string then Some v else assoc k l'
  end.

(** A read-only backend: its listings and the streams of its objects. *)
Definition tableService {World : Type}
    (listings : list (string * list Object))
    (streams : list (string * Reader)) : Service World := {|
  List := fun url w =>
    (match assoc url listings with
     | Some objects => Ok objects
     | None => Err ("not found: " ++ url)
     end, w);
  Download := fun o w =>
    (match assoc (URL o) streams with
     | Some r => Ok r
     | None => Err ("not found: " ++ URL o)
     end, w);
  Upload := fun _ _ w => (Some "read-only", w);
  StorageObject := fun _ w => (None, w)
|}.

Definition text (s : string) : bytes := list_byte_of_string s.

Definition file (url s : string) : Object := memory.contentObject url (text s).

Definition folder (url : string) : Object := memory.folderObject url.

Definition emptyZip : zip.Writer :=
  {| zip.entries := []; zip.broken := None; zip.last := false |}.

(** A memory backend holding [mem:///src/a.txt] and [mem:///src/sub/b.txt]. *)
Definition sampleStore : memory.Store :=
  [("mem:///src/sub/b.txt", text "hello"); ("mem:///src/a.txt", text "A")].

(** A backend that lists two objects under [mem:///src] and fails to open
    the first. *)
Definition brokenSource : Service memory.Store :=
  tableService
    [("mem:///src",
      [file "mem:///src/a.txt" "A"; file "mem:///src/b.txt" "B"])]
    [("mem:///src/b.txt", NopCloser (text "B"))].

(** A backend in which [mem:///src] is an object and a prefix of another
    object's URL (as in key-value blob stores), listing the longer one
    first. *)
Definition keyAndPrefix : Service memory.Store :=
  tableService
    [("mem:///src", [file "mem:///src/a.txt" "A"; file "mem:///src" "ROOT"])]
    [("mem:///src/a.txt", NopCloser (text "A"));
     ("mem:///src", NopCloser (text "ROOT"))].

(** A backend that lists under [mem:///src] one content object, without
    bytes, whose URL ends in two separators. *)
Definition trailingSeparators : Service memory.Store :=
  tableService
    [("mem:///src", [file "mem:///src/a//" ""])]
    [("mem:///src/a//", NopCloser (text ""))].

(** A modification handler: the content is doubled. *)
Definition twice : ModificationHandler :=
  fun r => Ok {| data := (data r ++ data r)%list; failure := failure r |}.

(** ** Folder trees *)

(** A folder tree: content objects with their bytes, folders with their
    children. *)
#[warnings="-register-all"]
Inductive Tree : Type :=
| File (name : string) (content : bytes)
| Folder (name : string) (children : list Tree).

Definition nameOf (t : Tree) : string :=
  match t with
  | File n _ => n
  | Folder n _ => n
  end.

Fixpoint depth (t : Tree) : nat :=
  match t with
  | File _ _ => O
  | Folder _ children => S (fold_right (fun c d => Nat.max (depth c) d) O children)
  end.

Definition depthAll (children : list Tree) : nat :=
  fold_right (fun c d => Nat.max (depth c) d) O children.

(** A path segment: not empty, no separator in it. *)
Fixpoint slashFree (s : string) : bool :=
  match s with
  | EmptyString => true
  | String c s' => negb (c =? "/")%char && slashFree s'
  end.

Definition segment (s : string) : bool :=
  negb (s =? "")%string && slashFree s.

(** Names are segments, and the children of one folder have different
    names. *)
Fixpoint wellNamed (t : Tree) : Prop :=
  segment (nameOf t) = true /\
  match t with
  | File _ _ => True
  | Folder _ children =>
      NoDup (map nameOf children) /\
      fold_right (fun c P => wellNamed c /\ P) True children
  end.

Definition wellNamedAll (children : list Tree) : Prop :=
  NoDup (map nameOf children) /\
  fold_right (fun c P => wellNamed c /\ P) True children.

(** The content objects below a folder, by relative path ([prefix] is empty
    or ends with a separator), in the order of the listings. *)
Fixpoint files (prefix : string) (t : Tree) : list (string * bytes) :=
  match t with
  | File n content => [(prefix ++ n, content)]
  | Folder n children => flat_map (files (prefix ++ n ++ "/")) children
  end.

(** All relative paths below a folder, folders included. *)
Fixpoint paths (prefix : string) (t : Tree) : list string :=
  match t with
  | File n _ => [prefix ++ n]
  | Folder n children =>
      (prefix ++ n) :: flat_map (paths (prefix ++ n ++ "/")) children
  end.

(** The object a listing of the folder at [url] returns for a child. *)
Definition objectOf (url : string) (t : Tree) : Object :=
  match t with
  | File n content => memory.contentObject (url ++ "/" ++ n) content
  | Folder n _ => memory.folderObject (url ++ "/" ++ n)
  end.

(** The listings and the streams of a backend that holds the tree [t]
    in the folder at [url]. *)
Fixpoint listings (url : string) (t : Tree) : list (string * list Object) :=
  match t with
  | File _ _ => []
  | Folder n children =>
      let u := url ++ "/" ++ n in
      (u, map (objectOf u) children) :: flat_map (listings u) children
  end.

Fixpoint streams (url : string) (t : Tree) : list (string * Reader) :=
  match t with
  | File n content => [(url ++ "/" ++ n, NopCloser content)]
  | Folder n children => flat_map (streams (url ++ "/" ++ n)) children
  end.

(** A backend whose folder at [sourceURL] holds [children].  The folder is
    listed under [sourceURL] as it is written, with or without a trailing
    separator; the objects below it are named without doubling that
    separator. *)
Definition treeService {World : Type} (sourceURL : string)
    (children : list Tree) : Service World :=
  let folderURL := trimTrailingSlash sourceURL in
  tableService
    ((sourceURL, map (objectOf folderURL) children)
     :: flat_map (listings folderURL) children)
    (flat_map (streams folderURL) children).

(** The tables [L] and [S] answer for the tree [t] in the folder at [url]:
    every folder below is listed with its children, every content object
    is served with its bytes. *)
Fixpoint served (L : list (string * list Object))
    (S : list (string * Reader)) (url : string) (t : Tree) : Prop :=
  match t with
  | File n content => assoc (url ++ "/" ++ n) S = Some (NopCloser content)
  | Folder n children =>
      assoc (url ++ "/" ++ n) L
      = Some (map (objectOf (url ++ "/" ++ n)) children) /\
      fold_right (fun c P => served L S (url ++ "/" ++ n) c /\ P) True
        children
  end.

(** [k] is [u], or lies below [u]. *)
Definition under (u k : string) : Prop :=
  exists r, k = u ++ r /\ (r = "" \/ strings.HasPrefix r "/" = true).

(** A relative path: not empty, no separator at either end. *)
Definition relative (p : string) : Prop :=
  p <> "" /\ strings.HasPrefix p "/" = false /\
  strings.HasSuffix p "/" = false.

(** The relative-path prefix and the URL of the folder that a call with
    [subPath] lists. *)
Definition prefixOf (subPath : string) : string :=
  if (subPath =? "")%string then "" else subPath ++ "/".

Definition urlOf (sourceURL subPath : string) : string :=
  if (subPath =? "")%string then sourceURL else sourceURL ++ "/" ++ subPath.

(** [m] ends with [nil] in the world [w']. *)
Definition runs {World : Type} (m : M World unit) (w w' : World) : Prop :=
  outcome (m w) = Done tt /\ final (m w) = w'.

(** What a destination holds after the content objects [fs] were uploaded
    below [destinationURL], the last one first. *)
Definition uploaded (destinationURL : string) (fs : list (string * bytes))
    : memory.Store :=
  rev (map (fun f => (destinationURL ++ "/" ++ fst f, snd f)) fs).

(** [join] puts one separator between a base and a segment that is not
    empty and has no leading separator; a separator at the end of the base
    is not doubled.  Nothing is asked of [join] on an empty segment:
    copy.go never joins one while it walks a tree of named objects. *)
Definition joinsWithSeparator (join : string -> string -> string) : Prop :=
  forall base seg,
    seg <> "" ->
    strings.HasPrefix seg "/" = false ->
    join base seg = trimTrailingSlash base ++ "/" ++ seg.

Definition sampleTree : list Tree :=
  [File "a.txt" (text "A");
   Folder "sub" [File "b.txt" (text "hello"); Folder "deep" [File "c" (text "C")]];
   Folder "empty" []].

(** ** Further properties of a walk *)

(** [m] takes every world [w] to a world related to [w] and to the calls
    made by [T]. *)
Definition tracks {World A : Type}
    (T : World -> list Event -> World -> Prop) (m : M World A) : Prop :=
  forall w, T w (events (m w)) (final (m w)).

(** The entries a handler writing [entry o r u] per call has written. *)
Definition written (entry : Object -> Reader -> string -> list zip.Entry)
    (evs : list Event) : list zip.Entry :=
  flat_map (fun ev =>
              match ev with
              | EvHandler o r u _ => entry o r u
              | _ => []
              end) evs.

(** Lines 133-136: the name of the entry for a destination URL. *)
Definition entryName (URLSplit : string -> string * string)
    (parentURL destinationURL : string) : string :=
  if negb (destinationURL =? parentURL)%string
  then strings.Replace1 destinationURL parentURL ""
  else snd (URLSplit destinationURL).

(** The entry a working zip writer holds for a header with [name],
    [method] and the file information of [o] once the stream [r] has been
    copied to it.  A name that ends in a separator makes a directory:
    stored, and without bytes. *)
Definition zipEntry (name : string) (method : Z) (o : Object) (r : Reader)
    : zip.Entry :=
  if strings.HasSuffix name "/" then
    {| zip.header := {| zip.Name := name; zip.Method := zip.Store;
                        zip.Info := FileInfo o |};
       zip.content := [] |}
  else
    {| zip.header := {| zip.Name := name; zip.Method := method;
                        zip.Info := FileInfo o |};
       zip.content := data r |}.

(** What lines 132-150 leave in a working zip writer for one call. *)
Definition archiveEntry (URLSplit : string -> string * string)
    (parentURL : string) (o : Object) (r : Reader) (u : string)
    : list zip.Entry :=
  [zipEntry (entryName URLSplit parentURL u) zip.Deflate o r].

(** What lines 173-197 leave in a working zip writer for one call. *)
Definition filteredEntry (URLSplit : string -> string * string)
    (parentURL : string) (predicate : Object -> bool) (o : Object)
    (r : Reader) (u : string) : list zip.Entry :=
  if predicate o then
    let name := entryName URLSplit parentURL u in
    [zipEntry (if strings.HasPrefix name "/" then slice_from 1 name else name)
       zip.Store o r]
  else [].

(** The entry due for a call has a name of more than 65535 bytes. *)
Definition tooLong (entry : Object -> Reader -> string -> list zip.Entry)
    (o : Object) (r : Reader) (u : string) : Prop :=
  Exists (fun en => 65535 < len (zip.Name (zip.header en))) (entry o r u).

(** The entry due for a call is a directory: its name, of at most 65535
    bytes, ends in a separator. *)
Definition directory (entry : Object -> Reader -> string -> list zip.Entry)
    (o : Object) (r : Reader) (u : string) : Prop :=
  Exists (fun en => len (zip.Name (zip.header en)) <= 65535 /\
                    strings.HasSuffix (zip.Name (zip.header en)) "/" = true)
    (entry o r u).

(** Every entry due for the handler calls of [evs] has a name of at most
    65535 bytes. *)
Definition fits (entry : Object -> Reader -> string -> list zip.Entry)
    (evs : list Event) : Prop :=
  Forall (fun en => len (zip.Name (zip.header en)) <= 65535)
    (written entry evs).

(** What a handler call on a working zip writer has returned when the entry
    due for it is not an ordinary file: the error of the writer for a name
    that is too long, and its error for bytes written to a directory. *)
Definition turnedDown
    (entry : Object -> Reader -> string -> list zip.Entry)
    (o : Object) (r : Reader) (u : string) (res : option error) : Prop :=
  (tooLong entry o r u -> res = Some zip.errLongName) /\
  (directory entry o r u -> data r <> [] -> res = Some zip.errDirectory).

(** From a world [w] whose zip writer works: the writer still works in
    [w']; if the names of all entries due fit, or if no call failed, the
    archive of [w'] holds the entries of [w] and then the entries due for
    the handler calls of [evs]; and a handler call whose entry has too long
    a name, or is a directory that was given bytes, has returned the error
    of the zip writer for it. *)
Definition archived {W : Type}
    (entry : Object -> Reader -> string -> list zip.Entry)
    (w : ArchiveWorld W) (evs : list Event) (w' : ArchiveWorld W) : Prop :=
  zip.broken (archive w) = None ->
  zip.broken (archive w') = None /\
  (fits entry evs \/ Forall (fun ev => failed ev = false) evs ->
   zip.entries (archive w') =
   (zip.entries (archive w) ++ written entry evs)%list) /\
  Forall (fun ev =>
            match ev with
            | EvHandler o r u res => turnedDown entry o r u res
            | _ => True
            end) evs.

(** The error a call returned is accounted for by the last call it made:
    a listing error is returned as it is, a download or modification error
    in a message naming the object, an error of reading the downloaded
    stream or of the handler as it is. *)
Definition explained (modify : option ModificationHandler)
    (evs : list Event) (cause : error) : Prop :=
  exists pre,
    (exists url, evs = (pre ++ [EvList url (Err cause)])%list) \/
    (exists o d c,
       evs = (pre ++ [EvDownload o (Err c)])%list /\
       cause = "unable download, " ++ URL o ++ " -> " ++ d ++ ", " ++ c) \/
    (exists o rd,
       evs = (pre ++ [EvDownload o (Ok rd)])%list /\
       modify <> None /\ failure rd = Some cause) \/
    (exists o rd content d c,
       evs = (pre ++ [EvDownload o (Ok rd);
                      EvModify (NopCloser content) (Err c)])%list /\
       ReadAll rd = Ok content /\
       cause = "unable modify content, " ++ URL o ++ " " ++ d ++ " " ++ c) \/
    (exists o r u, evs = (pre ++ [EvHandler o r u (Some cause)])%list).

(** Without a modification handler: every handler call follows the
    download of its object (and, in the first listing, the probe of the
    destination) and receives the stream the download returned. *)
Definition passedOn (evs : list Event) : Prop :=
  forall pre o r u res post,
    evs = (pre ++ EvHandler o r u res :: post)%list ->
    exists pre' probe,
      pre = (pre' ++ [EvDownload o (Ok r)] ++ probe)%list /\
      (probe = [] \/ exists u' p, probe = [EvStorageObject u' p]).

(** A backend like [s] that refuses uploads and resolves nothing. *)
Definition readOnly {World : Type} (s : Service World) : Service World := {|
  List := List s;
  Download := Download s;
  Upload := fun _ _ w => (Some "read-only", w);
  StorageObject := fun _ w => (None, w)
|}.

(** [T] holds of a call that does nothing, and of two calls in a row when
    it holds of each. *)
Definition sequential {World : Type}
    (T : World -> list Event -> World -> Prop) : Prop :=
  (forall w, T w [] w) /\
  (forall a e1 b e2 c, T a e1 b -> T b e2 c -> T a (e1 ++ e2)%list c).

(** From a world [w] whose zip writer is broken by [e]: the writer is
    still broken by [e] in [w']; the entries of [w] are kept, and what has
    been added holds no bytes; and every handler call has returned [e] or
    the error for too long a name, but for the objects [skip]ped, for which
    it has returned [nil]. *)
Definition refused {W : Type} (skip : Object -> bool) (e : error)
    (w : ArchiveWorld W) (evs : list Event) (w' : ArchiveWorld W) : Prop :=
  zip.broken (archive w) = Some e ->
  zip.broken (archive w') = Some e /\
  (exists added,
     zip.entries (archive w') = (zip.entries (archive w) ++ added)%list /\
     Forall (fun en => zip.content en = []) added) /\
  Forall (fun ev =>
            match ev with
            | EvHandler o _ _ res =>
                if skip o then res = None
                else res = Some e \/ res = Some zip.errLongName
            | _ => True
            end) evs.

(** [explained], for the outcome of a call. *)
Definition explains {A} (modify : option ModificationHandler)
    (evs : list Event) (r : Res A) : Prop :=
  forall cause, r = Fail cause -> explained modify evs cause.

Definition brokenZip : zip.Writer :=
  {| zip.entries := []; zip.broken := Some "closed"; zip.last := false |}.

(** The calls a walk from [sourceURL] may make: listings of the source URL
    and of URLs joined to it, downloads and handler calls for content
    objects. *)
Definition withinSource (URLPathJoin : string -> string -> string)
    (sourceURL : string) (ev : Event) : Prop :=
  match ev with
  | EvList url _ =>
      url = sourceURL \/ exists subPath, url = URLPathJoin sourceURL subPath
  | EvDownload o _ => IsContent o = true
  | EvHandler o _ _ _ => IsContent o = true
  | _ => True
  end.

(** * The tokenizer of package toolbox (url/resource_test.go, lines 123-540)

    Matchers and the token scanner.  A Go panic (a slice out of range, a
    matcher that is not registered) is the outcome [None]. *)

Module tokenizer.

(** [s[lo:hi]]: Go panics unless [0 <= lo <= hi <= len(s)]. *)
Definition substr (s : string) (lo hi : Z) : option string :=
  if (0 <=? lo) && (lo <=? hi) && (hi <=? len s)
  then Some (take (Z.to_nat (hi - lo)) (drop (Z.to_nat lo) s))
  else None.

(** The [Matcher] interface: [Match(input, offset)] returns the number of
    characters matched. *)
Definition Matcher : Type := string -> Z -> option Z.

(** The comparisons of Go strings are those of their bytes, in order. *)
Definition isLetter (aChar : string) : bool :=
  (("a" <=? aChar) && (aChar <=? "z")
   || ("A" <=? aChar) && (aChar <=? "Z"))%string.

Definition isDigit (aChar : string) : bool :=
  (("0" <=? aChar) && (aChar <=? "9"))%string.

(** The loop of the matchers of numbers and identifiers,

      for ; i < len(input)-offset; i++ {
        aChar := input[offset+i : offset+i+1]
        if !valid(aChar) { break }
      }
      return i

    where [n] counts the values of [i] still below [len(input)-offset]. *)
Fixpoint scan (valid : string -> bool) (input : string) (offset : Z)
    (n : nat) (i : Z) : option Z :=
  match n with
  | O => Some i
  | S n' =>
      match substr input (offset + i) (offset + i + 1) with
      | None => None
      | Some aChar =>
          if negb (valid aChar) then Some i
          else scan valid input offset n' (i + 1)
      end
  end.

(** Lines 198-217. *)
Module CharactersMatcher.

Record t : Type := { Chars : string }.

(** The inner loop: is [aChar] one of [Chars[j:j+1]], for the [n] values
    of [j] from [j] on? *)
Fixpoint among (aChar : string) (Chars : string) (n : nat) (j : Z)
    : option bool :=
  match n with
  | O => Some false
  | S n' =>
      match substr Chars j (j + 1) with
      | None => None
      | Some c =>
          if (aChar =? c)%string then Some true
          else among aChar Chars n' (j + 1)
      end
  end.

(** The outer loop. *)
Fixpoint loop (m : t) (input : string) (offset : Z) (n : nat)
    (i result : Z) : option Z :=
  match n with
  | O => Some result
  | S n' =>
      match substr input (offset + i) (offset + i + 1) with
      | None => None
      | Some aChar =>
          match among aChar (Chars m) (Z.to_nat (len (Chars m))) 0 with
          | None => None
          | Some true => loop m input offset n' (i + 1) (result + 1)
          | Some false => Some result
          end
      end
  end.

Definition Match (m : t) : Matcher := fun input offset =>
  loop m input offset (Z.to_nat (len input - offset)) 0 0.

End CharactersMatcher.

(** Lines 228-237. *)
Module EOFMatcher.

Definition Match : Matcher := fun input offset =>
  if offset + 1 =? len input then Some 1 else Some 0.

End EOFMatcher.

(** Lines 240-255. *)
Module IntMatcher.

Definition Match : Matcher := fun input offset =>
  match substr input offset (offset + 1) with
  | None => None
  | Some first =>
      if negb (isDigit first) then Some 0
      else scan isDigit input offset (Z.to_nat (len input - offset - 1)) 1
  end.

End IntMatcher.

(** [isLetter(aChar) || isDigit(aChar) || aChar == "_" || aChar == "."] *)
Definition isLiteralPart (aChar : string) : bool :=
  isLetter aChar || isDigit aChar || (aChar =? "_")%string
  || (aChar =? ".")%string.

(** Lines 263-278. *)
Module LiteralMatcher.

Definition Match : Matcher := fun input offset =>
  match substr input offset (offset + 1) with
  | None => None
  | Some first =>
      if negb (isLetter first) then Some 0
      else scan isLiteralPart input offset
             (Z.to_nat (len input - offset - 1)) 1
  end.

End LiteralMatcher.

(** Lines 281-296. *)
Module IdMatcher.

Definition Match : Matcher := fun input offset =>
  match substr input offset (offset + 1) with
  | None => None
  | Some first =>
      if negb (isLetter first) && negb (isDigit first) then Some 0
      else scan isLiteralPart input offset
             (Z.to_nat (len input - offset - 1)) 1
  end.

End IdMatcher.

(** Lines 344-349. *)
Module remainingSequenceMatcher.

Definition Match : Matcher := fun input offset => Some (len input - offset).

End remainingSequenceMatcher.

(** Lines 357-385. *)
Module customIdMatcher.

(** [Allowed map[string]bool]: a missing key reads as [false]. *)
Record t : Type := { Allowed : string -> bool }.

Definition isValid (m : t) (aChar : string) : bool :=
  if isLetter aChar then true
  else if isDigit aChar then true
  else Allowed m aChar.

Definition Match (m : t) : Matcher := fun input offset =>
  match substr input offset (offset + 1) with
  | None => None
  | Some first =>
      if negb (isValid m first) then Some 0
      else scan (isValid m) input offset
             (Z.to_nat (len input - offset - 1)) 1
  end.

End customIdMatcher.

(** Lines 299-334. *)
Module SequenceMatcher.

Record t : Type := {
Terminators : list string;
CaseSensitive : bool
}.

(** [strings.ToLower], which follows the Unicode tables, is not modelled:
    it is the parameter [ToLower]. *)
Fixpoint hasTerminatorIn (ToLower : string -> string) (caseSensitive : bool)
    (terminators : list string) (candidate : string) : bool :=
  match terminators with
  | [] => false
  | terminator :: rest =>
      let terminatorLength := len terminator in
      if len terminator >? len candidate
      then hasTerminatorIn ToLower caseSensitive rest candidate
      else if negb caseSensitive
              && (ToLower terminator
                  =? ToLower (slice_to terminatorLength candidate))%string
      then true
      else if (terminator =? slice_to terminatorLength candidate)%string
      then true
      else hasTerminatorIn ToLower caseSensitive rest candidate
  end.

Definition hasTerminator (ToLower : string -> string) (m : t)
    (candidate : string) : bool :=
  hasTerminatorIn ToLower (CaseSensitive m) (Terminators m) candidate.

Fixpoint loop (ToLower : string -> string) (m : t) (input : string)
    (offset : Z) (n : nat) (i : Z) : option Z :=
  match n with
  | O => Some i
  | S n' =>
      match substr input (offset + i) (len input) with
      | None => None
      | Some candidate =>
          if hasTerminator ToLower m candidate then Some i
          else loop ToLower m input offset n' (i + 1)
      end
  end.

Definition Match (ToLower : string -> string) (m : t) : Matcher :=
  fun input offset =>
    loop ToLower m input offset (Z.to_nat (len input - offset)) 0.

End SequenceMatcher.

Definition NewSequenceMatcher (ToLower : string -> string)
    (terminators : list string) : Matcher :=
  SequenceMatcher.Match ToLower
    {| SequenceMatcher.Terminators := terminators;
       SequenceMatcher.CaseSensitive := false |}.

(** Lines 405-448. *)
Module BodyMatcher.

(** [BodyMatcher]; its field [End] is [End_] here. *)
Record t : Type := {
Begin : string;
End_ : string
}.

(** The loop of [Match], with [i] and [depth] as they are before an
    iteration and [n] counting the values of [i] still below
    [len(input)-offset]. *)
Fixpoint loop (m : t) (input : string) (offset : Z) (n : nat)
    (i depth : Z) : option Z :=
  let beginLen := len (Begin m) in
  let endLen := len (End_ m) in
  let uniEclosed := (Begin m =? End_ m)%string in
  match n with
  | O => Some i
  | S n' =>
      let canCheckEnd := offset + i + endLen <=? len input in
      if negb canCheckEnd then Some 0
      else
        match
          (if negb uniEclosed then
             let canCheckBegin := offset + i + beginLen <=? len input in
             if canCheckBegin then
               match substr input (offset + i) (offset + i + beginLen) with
               | None => None
               | Some piece =>
                   Some (if (piece =? Begin m)%string then depth + 1
                         else depth)
               end
             else Some depth
           else Some depth)
        with
        | None => None
        | Some depth =>
            match substr input (offset + i) (offset + i + endLen) with
            | None => None
            | Some piece =>
                let depth :=
                  if (piece =? End_ m)%string then depth - 1 else depth in
                if depth =? 0 then Some (i + endLen)
                else loop m input offset n' (i + 1) depth
            end
        end
  end.

Definition Match (m : t) : Matcher := fun input offset =>
  let beginLen := len (Begin m) in
  if offset + beginLen >=? len input then Some 0
  else
    match substr input offset (offset + beginLen) with
    | None => None
    | Some piece =>
        if negb (piece =? Begin m)%string then Some 0
        else loop m input offset (Z.to_nat (len input - offset - 1)) 1 1
    end.

End BodyMatcher.

(** Lines 451-472. *)
Module KeywordMatcher.

Record t : Type := {
Keyword : string;
CaseSensitive : bool
}.

Definition Match (ToLower : string -> string) (m : t) : Matcher :=
  fun input offset =>
    if negb (offset + len (Keyword m) - 1 <? len input) then Some 0
    else
      match substr input offset (offset + len (Keyword m)) with
      | None => None
      | Some piece =>
          if CaseSensitive m then
            if (piece =? Keyword m)%string then Some (len (Keyword m))
            else Some 0
          else
            if (ToLower piece =? ToLower (Keyword m))%string
            then Some (len (Keyword m))
            else Some 0
      end.

End KeywordMatcher.

(** Lines 475-497. *)
Module KeywordsMatcher.

Record t : Type := {
Keywords : list string;
CaseSensitive : bool
}.

Fixpoint loop (ToLower : string -> string) (caseSensitive : bool)
    (keywords : list string) (input : string) (offset : Z) : option Z :=
  match keywords with
  | [] => Some 0
  | keyword :: rest =>
      if len input - offset <? len keyword
      then loop ToLower caseSensitive rest input offset
      else
        match substr input offset (offset + len keyword) with
        | None => None
        | Some piece =>
            if caseSensitive then
              if (piece =? keyword)%string then Some (len keyword)
              else loop ToLower caseSensitive rest input offset
            else
              if (ToLower piece =? ToLower keyword)%string
              then Some (len keyword)
              else loop ToLower caseSensitive rest input offset
        end
  end.

Definition Match (ToLower : string -> string) (m : t) : Matcher :=
  fun input offset =>
    loop ToLower (CaseSensitive m) (Keywords m) input offset.

End KeywordsMatcher.

Definition NewKeywordsMatcher (ToLower : string -> string)
    (caseSensitive : bool) (keywords : list string) : Matcher :=
  KeywordsMatcher.Match ToLower
    {| KeywordsMatcher.CaseSensitive := caseSensitive;
       KeywordsMatcher.Keywords := keywords |}.

(** [Token]; its field [Token] is [Token_] here. *)
Record Token : Type := {
Token_ : Z;
Matched : string
}.

(** [matchers map[int]Matcher]: a missing key is [None]. *)
Record Tokenizer : Type := {
matchers : Z -> option Matcher;
Input : string;
Index : Z;
InvalidToken : Z;
EndOfFileToken : Z
}.

Definition NewTokenizer (input : string) (invalidToken endOfFileToken : Z)
    (matcher : Z -> option Matcher) : Tokenizer :=
  {| matchers := matcher; Input := input; Index := 0;
     InvalidToken := invalidToken; EndOfFileToken := endOfFileToken |}.

(** [Next] (lines 164-184): the token returned and the tokenizer as the
    call leaves it. *)
Definition Next (t : Tokenizer) (candidate : Z)
    : option (Token * Tokenizer) :=
  let offset := Index t in
  if negb (offset <? len (Input t))
  then Some ({| Token_ := EndOfFileToken t; Matched := "" |}, t)
  else if candidate =? EndOfFileToken t
  then Some ({| Token_ := InvalidToken t; Matched := "" |}, t)
  else
    match matchers t candidate with
    | Some matcher =>
        match matcher (Input t) offset with
        | None => None
        | Some matchedSize =>
            if matchedSize >? 0 then
              let t' := {| matchers := matchers t; Input := Input t;
                           Index := Index t + matchedSize;
                           InvalidToken := InvalidToken t;
                           EndOfFileToken := EndOfFileToken t |} in
              match substr (Input t) offset (offset + matchedSize) with
              | None => None
              | Some matched =>
                  Some ({| Token_ := candidate; Matched := matched |}, t')
              end
            else Some ({| Token_ := InvalidToken t; Matched := "" |}, t)
        end
    | None => None
    end.

(** [Nexts] (lines 152-161): the first of the candidates that gives a
    token. *)
Fixpoint Nexts (t : Tokenizer) (candidates : list Z)
    : option (Token * Tokenizer) :=
  match candidates with
  | [] => Some ({| Token_ := InvalidToken t; Matched := "" |}, t)
  | candidate :: rest =>
      match Next t candidate with
      | None => None
      | Some (result, t') =>
          if negb (Token_ result =? InvalidToken t') then Some (result, t')
          else Nexts t' rest
      end
  end.

End tokenizer.

(** ** What the matchers compute *)

(** The number of characters at the start of [s] that satisfy [valid]. *)
Fixpoint span (valid : string -> bool) (s : string) : Z :=
  match s with
  | EmptyString => 0
  | String c s' => if valid (String c "") then 1 + span valid s' else 0
  end.

(** Is [aChar] one of the characters of [chars]? *)
Fixpoint oneOf (chars : string) (aChar : string) : bool :=
  match chars with
  | EmptyString => false
  | String c chars' => (aChar =? String c "")%string || oneOf chars' aChar
  end.

(** The number of characters of [s] before the first position at which
    what is left of [s] satisfies [stop]; all of them, if there is none. *)
Fixpoint before (stop : string -> bool) (s : string) : Z :=
  match s with
  | EmptyString => 0
  | String _ s' => if stop s then 0 else 1 + before stop s'
  end.

(** A matcher that, anywhere before the end of an input, returns without a
    panic and matches no more than what is left of the input. *)
Definition inBounds (m : tokenizer.Matcher) : Prop :=
  forall pre rest,
    rest <> "" ->
    exists n, m (pre ++ rest) (len pre) = Some n /\ n <= len rest.

(** A tokenizer as [NewTokenizer] and [Next] make them: the index is a
    position of the input. *)
Definition positioned (t : tokenizer.Tokenizer) : Prop :=
  0 <= tokenizer.Index t <= len (tokenizer.Input t).

(** A series of [Nexts] calls: the tokens returned, and the tokenizer as
    the last call leaves it. *)
Fixpoint tokens (t : tokenizer.Tokenizer) (calls : list (list Z))
    : option (list tokenizer.Token * tokenizer.Tokenizer) :=
  match calls with
  | [] => Some ([], t)
  | candidates :: calls' =>
      match tokenizer.Nexts t candidates with
      | None => None
      | Some (token, t') =>
          match tokens t' calls' with
          | None => None
          | Some (rest, t'') => Some (token :: rest, t'')
          end
      end
  end.

(** A tokenizer over "ab 12": numbers are token 1, words token 2, blanks
    token 3; -1 is the invalid token, 0 the end of the input. *)
Definition sampleMatchers (candidate : Z) : option tokenizer.Matcher :=
  if candidate =? 1 then Some tokenizer.IntMatcher.Match
  else if candidate =? 2 then Some tokenizer.LiteralMatcher.Match
  else if candidate =? 3
  then Some (tokenizer.CharactersMatcher.Match
               {| tokenizer.CharactersMatcher.Chars := " " |})
  else None.

Definition sampleTokenizer : tokenizer.Tokenizer :=
  tokenizer.NewTokenizer "ab 12" (-1) 0 sampleMatchers.

(** The text of a series of tokens. *)
Fixpoint matchedText (tokens : list tokenizer.Token) : string :=
  match tokens with
  | [] => ""
  | token :: tokens' => tokenizer.Matched token ++ matchedText tokens'
  end.

(** [t'] is [t] moved on to another position of the input. *)
Definition movedOn (t t' : tokenizer.Tokenizer) : Prop :=
  t' = {| tokenizer.matchers := tokenizer.matchers t;
          tokenizer.Input := tokenizer.Input t;
          tokenizer.Index := tokenizer.Index t';
          tokenizer.InvalidToken := tokenizer.InvalidToken t;
          tokenizer.EndOfFileToken := tokenizer.EndOfFileToken t |} /\
  tokenizer.Index t <= tokenizer.Index t' <= len (tokenizer.Input t).

(** * Date layouts (package toolbox, unnamed/part_003) *)

Module timeformat.

Definition DateFormatKeyword : string := "dateFormat".

Definition DateLayoutKeyword : string := "dateLayout".

(** [DateFormatToLayout] (lines 30-68): each statement replaces the first instance of a
    pattern in what the statements before it have produced. *)
Definition DateFormatToLayout (dateFormat : string) : string :=
  let dateFormat := strings.Replace1 dateFormat "MMMM" "January" in
  let dateFormat := strings.Replace1 dateFormat "MMM" "Jan" in
  let dateFormat := strings.Replace1 dateFormat "MM" "1" in
  let dateFormat := strings.Replace1 dateFormat "M" "1" in
  let dateFormat := strings.Replace1 dateFormat "a" "pm" in
  let dateFormat := strings.Replace1 dateFormat "aa" "PM" in
  let dateFormat := strings.Replace1 dateFormat "dd" "02" in
  let dateFormat := strings.Replace1 dateFormat "d" "3" in
  let dateFormat := strings.Replace1 dateFormat "HH" "15" in
  let dateFormat := strings.Replace1 dateFormat "H" "15" in
  let dateFormat := strings.Replace1 dateFormat "hh" "03" in
  let dateFormat := strings.Replace1 dateFormat "h" "3" in
  let dateFormat := strings.Replace1 dateFormat "mm" "04" in
  let dateFormat := strings.Replace1 dateFormat "m" "4" in
  let dateFormat := strings.Replace1 dateFormat "ss" "05" in
  let dateFormat := strings.Replace1 dateFormat "s" "5" in
  let dateFormat := strings.Replace1 dateFormat "yyyy" "2006" in
  let dateFormat := strings.Replace1 dateFormat "yy" "06" in
  let dateFormat := strings.Replace1 dateFormat "y" "06" in
  let dateFormat := strings.Replace1 dateFormat "z" "MST" in
  let dateFormat := strings.Replace1 dateFormat "zzzz" "Z0700" in
  let dateFormat := strings.Replace1 dateFormat "zzzz" "Z07:00" in
  let dateFormat := strings.Replace1 dateFormat "Z" "-07" in
  let dateFormat := strings.Replace1 dateFormat "EEEE" "Monday" in
  let dateFormat := strings.Replace1 dateFormat "E" "Mon" in
  let dateFormat := strings.Replace1 dateFormat "SSS" "000" in
  dateFormat.

(** [GetTimeLayout] (lines 72-80); [settings[key]] is [settings key], [None] for a key
    that is not in the map, and the panic is the outcome [None]. *)
Definition GetTimeLayout (settings : string -> option string)
    : option string :=
  match settings DateLayoutKeyword with
  | Some value => Some value
  | None =>
      match settings DateFormatKeyword with
      | Some value => Some (DateFormatToLayout value)
      | None => None
      end
  end.

Definition HasTimeLayout (settings : string -> option string) : bool :=
  match settings DateLayoutKeyword with
  | Some _ => true
  | None =>
      match settings DateFormatKeyword with
      | Some _ => true
      | None => false
      end
  end.

End timeformat.

(** The patterns of [DateFormatToLayout], each by its shortest form. *)
Definition datePatterns : list string :=
  ["M"; "a"; "d"; "H"; "h"; "m"; "s"; "y"; "z"; "Z"; "E"; "SSS"].

(** * Slice iterators (iterator.go, lines 55-109) *)

Module iterator.

Record stringSliceIterator : Type := {
sliceValue : list string;
index : Z
}.

(** [slice[i]]: Go panics ([None]) unless [0 <= i < len(slice)]. *)
Definition at_ (slice : list string) (i : Z) : option string :=
  if (0 <=? i) && (i <? Z.of_nat (List.length slice))
  then nth_error slice (Z.to_nat i)
  else None.

Definition HasNext (i : stringSliceIterator) : bool :=
  index i <? Z.of_nat (List.length (sliceValue i)).

(** What [Next] is handed: a [*string], a [*interface{}], or a pointer of
    another type. *)
Inductive ItemPointer : Type :=
| StringPointer
| InterfacePointer
| OtherPointer.

(** [Next]: the value stored through the pointer, [None] for a panic, and
    the iterator as the call leaves it. *)
Definition Next (i : stringSliceIterator) (itemPointer : ItemPointer)
    : option string * stringSliceIterator :=
  match at_ (sliceValue i) (index i) with
  | None => (None, i)
  | Some value =>
      let i := {| sliceValue := sliceValue i; index := index i + 1 |} in
      match itemPointer with
      | StringPointer => (Some value, i)
      | InterfacePointer => (Some value, i)
      | OtherPointer => (None, i)
      end
  end.

(** [NewSliceIterator], for a [[]string]. *)
Definition NewSliceIterator (slice : list string) : stringSliceIterator :=
  {| sliceValue := slice; index := 0 |}.

End iterator.

(** The loop [for it.HasNext() { it.Next(&value); ... }], at most [rounds]
    times: the values it sees, and the iterator it leaves. *)
Fixpoint drain (rounds : nat) (pointer : iterator.ItemPointer)
    (it : iterator.stringSliceIterator)
    : list string * iterator.stringSliceIterator :=
  match rounds with
  | O => ([], it)
  | S rounds' =>
      if iterator.HasNext it then
        match iterator.Next it pointer with
        | (Some value, it') =>
            let '(values, it'') := drain rounds' pointer it' in
            (value :: values, it'')
        | (None, it') => ([], it')
        end
      else ([], it)
  end.

(** * Properties *)

(** ** Strings *)

Lemma append_nil_r (s : string) : s ++ "" = s.
Proof. induction s; simpl; congruence. Qed.

Lemma append_assoc (a b c : string) : (a ++ b) ++ c = a ++ b ++ c.
Proof. induction a; simpl; congruence. Qed.

Lemma length_append (a b : string) :
  String.length (a ++ b) = (String.length a + String.length b)%nat.
Proof. induction a; simpl; congruence. Qed.

Lemma len_append (a b : string) : len (a ++ b) = len a + len b.
Proof. unfold len. rewrite length_append. lia. Qed.

Lemma len_nonneg (s : string) : 0 <= len s.
Proof. unfold len. lia. Qed.

Lemma drop_append (a b : string) : drop (String.length a) (a ++ b) = b.
Proof. induction a; simpl; auto. Qed.

Lemma take_append (a b : string) : take (String.length a) (a ++ b) = a.
Proof. induction a; simpl; congruence. Qed.

Lemma slice_from_append (a b : string) : slice_from (len a) (a ++ b) = b.
Proof. unfold slice_from, len. rewrite Nat2Z.id. apply drop_append. Qed.

Lemma slice_to_append (a b : string) : slice_to (len a) (a ++ b) = a.
Proof. unfold slice_to, len. rewrite Nat2Z.id. apply take_append. Qed.

Lemma prefix_append (p s : string) : String.prefix p (p ++ s) = true.
Proof.
  induction p as [|c p IH]; simpl.
  - now destruct s.
  - destruct (ascii_dec c c); [exact IH | congruence].
Qed.

Lemma prefix_split (p s : string) :
  String.prefix p s = true -> exists r, s = p ++ r.
Proof.
  revert s. induction p as [|c p IH]; intros s H.
  - now exists s.
  - destruct s as [|d s]; simpl in H; [discriminate|].
    destruct (ascii_dec c d) as [->|]; [|discriminate].
    destruct (IH _ H) as [r ->]. now exists r.
Qed.

Lemma Index_range (s sub : string) : -1 <= strings.Index s sub <= len s.
Proof.
  induction s as [|c s IH]; cbn [strings.Index].
  - destruct (String.prefix sub ""); unfold len; simpl String.length; lia.
  - destruct (String.prefix sub (String c s)).
    + unfold len; simpl String.length; lia.
    + destruct (Z.ltb_spec (strings.Index s sub) 0); unfold len in *;
        simpl String.length; lia.
Qed.

(** [strings.Index] returns the position of the first instance. *)
Lemma Index_found (s sub : string) (i : Z) :
  sub <> "" -> strings.Index s sub = i -> 0 <= i ->
  exists before after,
    s = before ++ sub ++ after /\ len before = i /\
    strings.Index before sub = -1.
Proof.
  intros Hsub. revert i.
  induction s as [|c s IH]; intros i Hi Hpos; cbn [strings.Index] in Hi.
  - destruct (String.prefix sub "") eqn:Hp; [|lia].
    destruct sub; [congruence | discriminate].
  - destruct (String.prefix sub (String c s)) eqn:Hp.
    + destruct (prefix_split _ _ Hp) as [r Hr].
      exists "", r. repeat split; auto.
      destruct sub; [congruence | reflexivity].
    + destruct (Z.ltb_spec (strings.Index s sub) 0) as [Hlt|Hge]; [lia|].
      destruct (IH _ eq_refl Hge) as (b' & a' & Hs & Hl & Hn).
      exists (String c b'), a'. repeat split.
      * simpl. now rewrite <- Hs.
      * unfold len in *. simpl String.length. lia.
      * cbn [strings.Index]. rewrite Hn.
        destruct (String.prefix sub (String c b')) eqn:Hp'; auto.
        destruct (prefix_split _ _ Hp') as [r Hr].
        rewrite Hs in Hp.
        change (String c (b' ++ sub ++ a')) with (String c b' ++ sub ++ a') in Hp.
        rewrite Hr, append_assoc, prefix_append in Hp. discriminate.
Qed.

Lemma Index_prefix (s sub : string) :
  String.prefix sub s = true -> strings.Index s sub = 0.
Proof. intros H. destruct s; cbn [strings.Index]; now rewrite H. Qed.

Lemma Index_zero_prefix (s sub : string) :
  strings.Index s sub = 0 -> String.prefix sub s = true.
Proof.
  destruct s as [|c s]; cbn [strings.Index].
  - destruct (String.prefix sub ""); [auto | lia].
  - destruct (String.prefix sub (String c s)); auto.
    pose proof (Index_range s sub).
    destruct (Z.ltb_spec (strings.Index s sub) 0); lia.
Qed.

Lemma Contains_false (s sub : string) :
  strings.Contains s sub = false -> strings.Index s sub = -1.
Proof.
  unfold strings.Contains. intros H. pose proof (Index_range s sub).
  destruct (Z.leb_spec 0 (strings.Index s sub)); [discriminate | lia].
Qed.

Lemma Index_scheme (scheme rest : string) :
  strings.Index scheme "://" = -1 ->
  strings.Index (scheme ++ "://" ++ rest) "://" = len scheme.
Proof.
  induction scheme as [|c s IH]; intros H.
  - apply Index_prefix, (prefix_append "://" rest).
  - cbn [strings.Index] in H.
    destruct (String.prefix "://" (String c s)) eqn:Hp; [lia|].
    pose proof (Index_range s "://") as Hr.
    destruct (Z.ltb_spec (strings.Index s "://") 0) as [Hlt|]; [|lia].
    assert (Hs : strings.Index s "://" = -1) by lia.
    change (String c s ++ "://" ++ rest) with (String c (s ++ "://" ++ rest)).
    cbn [strings.Index]. rewrite (IH Hs).
    assert (Hq : String.prefix "://" (String c (s ++ "://" ++ rest)) = false).
    { destruct s as [|c2 [|c3 s]]; cbn [String.prefix append] in Hp |- *;
        repeat match goal with
               | |- context [ascii_dec ?a ?b] => destruct (ascii_dec a b)
               | H : context [ascii_dec ?a ?b] |- _ => destruct (ascii_dec a b)
               end; subst; try congruence; auto.
      all: try (now destruct rest); try (destruct s; discriminate). }
    rewrite Hq. pose proof (len_nonneg s).
    destruct (Z.ltb_spec (len s) 0); [lia|].
    unfold len. simpl String.length. lia.
Qed.

(** ** Segments and separators *)

Lemma append_inv_head (a b c : string) : a ++ b = a ++ c -> b = c.
Proof. induction a; simpl; intros H; [auto | inversion H; auto]. Qed.

Lemma append_self (a b : string) : a ++ b = a -> b = "".
Proof.
  intros H. apply (f_equal String.length) in H. rewrite length_append in H.
  destruct b; [reflexivity | simpl in H; lia].
Qed.

Lemma prefix_nil (s : string) : String.prefix "" s = true.
Proof. now destruct s. Qed.

Lemma prefix_cons (c d : ascii) (p s : string) :
  String.prefix (String c p) (String d s) =
  (c =? d)%char && String.prefix p s.
Proof.
  cbn [String.prefix]. destruct (ascii_dec c d) as [->|Hne].
  - now rewrite Ascii.eqb_refl.
  - apply Ascii.eqb_neq in Hne. now rewrite Hne.
Qed.

Lemma prefix_append_cancel (a p s : string) :
  String.prefix (a ++ p) (a ++ s) = String.prefix p s.
Proof.
  induction a as [|c a IH]; [reflexivity|].
  cbn [append]. now rewrite prefix_cons, Ascii.eqb_refl, IH.
Qed.

Lemma HasSuffix_cons (c : ascii) (s : string) :
  strings.HasSuffix (String c s) "/" =
  match s with
  | EmptyString => (c =? "/")%char
  | _ => strings.HasSuffix s "/"
  end.
Proof.
  unfold strings.HasSuffix, slice_from, len.
  destruct s as [|d s].
  - cbn. now destruct (c =? "/")%char.
  - cbn [String.length].
    replace (Z.to_nat (Z.of_nat (S (S (String.length s))) - Z.of_nat 1))
      with (S (String.length s)) by lia.
    replace (Z.to_nat (Z.of_nat (S (String.length s)) - Z.of_nat 1))
      with (String.length s) by lia.
    cbn [drop].
    replace (Z.of_nat 1 <=? Z.of_nat (S (S (String.length s)))) with true
      by (symmetry; apply Z.leb_le; lia).
    replace (Z.of_nat 1 <=? Z.of_nat (S (String.length s))) with true
      by (symmetry; apply Z.leb_le; lia).
    reflexivity.
Qed.

Lemma HasSuffix_append (x y : string) :
  y <> "" -> strings.HasSuffix (x ++ y) "/" = strings.HasSuffix y "/".
Proof.
  intros Hy. induction x as [|c x IH]; [reflexivity|].
  cbn [append]. rewrite HasSuffix_cons.
  destruct (x ++ y) eqn:E; [|exact IH].
  destruct x; [simpl in E; congruence | discriminate].
Qed.

Lemma segment_spec (n : string) :
  segment n = true -> n <> "" /\ slashFree n = true.
Proof.
  unfold segment. intros [H1 H2]%andb_prop. split; auto.
  intros ->. discriminate.
Qed.

Lemma slashFree_no_suffix (n : string) :
  slashFree n = true -> strings.HasSuffix n "/" = false.
Proof.
  induction n as [|c n IH]; [reflexivity|].
  cbn [slashFree]. intros [Hc Hn]%andb_prop. rewrite HasSuffix_cons.
  destruct n; [now apply negb_true_iff in Hc | auto].
Qed.

Lemma slashFree_no_prefix (n : string) :
  slashFree n = true -> strings.HasPrefix n "/" = false.
Proof.
  destruct n as [|c n]; [reflexivity|].
  cbn [slashFree]. intros [Hc Hn]%andb_prop. unfold strings.HasPrefix.
  rewrite prefix_cons. apply negb_true_iff in Hc.
  rewrite Ascii.eqb_sym, Hc. reflexivity.
Qed.

Lemma HasPrefix_append (x y : string) :
  x <> "" -> strings.HasPrefix (x ++ y) "/" = strings.HasPrefix x "/".
Proof.
  destruct x as [|c x]; [congruence|]. intros _. unfold strings.HasPrefix.
  cbn [append]. now rewrite !prefix_cons, !prefix_nil.
Qed.

Lemma trimTrailingSlash_id (s : string) :
  strings.HasSuffix s "/" = false -> trimTrailingSlash s = s.
Proof. unfold trimTrailingSlash. now intros ->. Qed.

Lemma trimTrailingSlash_slash (x : string) : trimTrailingSlash (x ++ "/") = x.
Proof.
  unfold trimTrailingSlash. rewrite HasSuffix_append by discriminate.
  change (strings.HasSuffix "/" "/") with true. cbv iota.
  rewrite len_append. change (len "/") with 1.
  replace (len x + 1 - 1) with (len x) by lia. apply slice_to_append.
Qed.

Lemma take_drop (n : nat) (s : string) : take n s ++ drop n s = s.
Proof.
  revert s. induction n as [|n IH]; intros [|c s]; cbn [take drop append];
    try reflexivity.
  now rewrite IH.
Qed.

(** A string is what is left of it without its trailing separator, followed
    by that separator if it had one. *)
Lemma trimTrailingSlash_cases (s : string) :
  s = trimTrailingSlash s \/ s = trimTrailingSlash s ++ "/".
Proof.
  unfold trimTrailingSlash. destruct (strings.HasSuffix s "/") eqn:H; [|now left].
  right. unfold strings.HasSuffix in H. apply andb_prop in H as [_ H].
  apply String.eqb_eq in H. change (len "/") with 1 in H.
  unfold slice_from in H. unfold slice_to.
  rewrite <- H. symmetry. apply take_drop.
Qed.

(** Two different segments, each followed by nothing or by a separator,
    do not start the same string. *)
Lemma segments_differ (n m r s : string) :
  slashFree n = true -> slashFree m = true ->
  (r = "" \/ strings.HasPrefix r "/" = true) ->
  (s = "" \/ strings.HasPrefix s "/" = true) ->
  n ++ r = m ++ s -> n = m.
Proof.
  revert m. induction n as [|c n IH]; intros [|d m] Hn Hm Hr Hs E;
    cbn [append] in E; auto.
  - exfalso. cbn [slashFree] in Hm. apply andb_prop in Hm as [Hd _].
    destruct Hr as [->|Hr]; [discriminate|].
    subst r. unfold strings.HasPrefix in Hr. rewrite prefix_cons in Hr.
    apply andb_prop in Hr as [Hr _]. rewrite Ascii.eqb_sym in Hr.
    rewrite Hr in Hd. discriminate.
  - exfalso. cbn [slashFree] in Hn. apply andb_prop in Hn as [Hc _].
    destruct Hs as [->|Hs]; [discriminate|].
    subst s. unfold strings.HasPrefix in Hs. rewrite prefix_cons in Hs.
    apply andb_prop in Hs as [Hs _]. rewrite Ascii.eqb_sym in Hs.
    rewrite Hs in Hc. discriminate.
  - inversion E; subst. cbn [slashFree] in Hn, Hm.
    apply andb_prop in Hn as [_ Hn]. apply andb_prop in Hm as [_ Hm].
    f_equal. eapply IH; eauto.
Qed.

Lemma LastIndex_slashFree (n : string) :
  slashFree n = true -> strings.LastIndex n "/" = -1.
Proof.
  induction n as [|c n IH]; [reflexivity|].
  cbn [slashFree strings.LastIndex]. intros [Hc Hn]%andb_prop.
  rewrite (IH Hn). change (0 <=? -1) with false. cbv iota.
  rewrite prefix_cons. apply negb_true_iff in Hc.
  rewrite Ascii.eqb_sym, Hc. reflexivity.
Qed.

Lemma LastIndex_before_segment (x n : string) :
  slashFree n = true -> strings.LastIndex (x ++ "/" ++ n) "/" = len x.
Proof.
  intros Hn. induction x as [|c x IH].
  - cbn [append]. cbn [strings.LastIndex]. rewrite (LastIndex_slashFree _ Hn).
    change (0 <=? -1) with false. cbv iota.
    now rewrite prefix_cons, prefix_nil.
  - change (String c x ++ "/" ++ n) with (String c (x ++ "/" ++ n)).
    cbn [strings.LastIndex]. rewrite IH.
    pose proof (len_nonneg x).
    destruct (Z.leb_spec 0 (len x)); [|lia].
    unfold len. cbn [String.length]. lia.
Qed.

Lemma Split_before_segment (x n : string) :
  slashFree n = true -> path.Split (x ++ "/" ++ n) = (x ++ "/", n).
Proof.
  intros Hn. unfold path.Split. rewrite (LastIndex_before_segment _ _ Hn).
  replace (len x + 1) with (len (x ++ "/"))
    by (rewrite len_append; reflexivity).
  rewrite <- append_assoc, slice_to_append, slice_from_append. reflexivity.
Qed.

(** ** urlPath *)

Lemma urlPath_without_scheme (URL : string) :
  strings.Contains URL "://" = false ->
  strings.HasPrefix URL "/" = false ->
  strings.Contains URL "/" = true ->
  exists host rest,
    URL = host ++ rest /\ host <> "" /\
    strings.Contains host "/" = false /\
    strings.HasPrefix rest "/" = true /\
    urlPath URL = trimTrailingSlash rest /\
    (strings.HasSuffix URL "/" = false -> urlPath URL = rest).
Proof.
  intros Hs Hp Hc.
  apply Contains_false in Hs.
  unfold strings.Contains in Hc. apply Z.leb_le in Hc.
  destruct (Index_found URL "/" _ ltac:(discriminate) eq_refl Hc)
    as (host & after & HU & Hl & Hn).
  exists host, ("/" ++ after). repeat split; auto.
  - intros ->. unfold strings.HasPrefix in Hp. rewrite HU in Hp.
    change ("" ++ "/" ++ after) with ("/" ++ after) in Hp.
    rewrite prefix_append in Hp. discriminate.
  - unfold strings.Contains. now rewrite Hn.
  - apply prefix_append.
  - unfold urlPath. cbv zeta. rewrite Hs, Z.eqb_refl. cbn [negb].
    assert (Hgt : (strings.Index URL "/" >? 0) = true).
    { apply Z.gtb_lt.
      destruct (Z.eq_dec (strings.Index URL "/") 0) as [E|]; [|lia].
      apply Index_zero_prefix in E. unfold strings.HasPrefix in Hp.
      congruence. }
    rewrite Hgt, <- Hl, HU, slice_from_append. reflexivity.
  - intros Hsuf. unfold urlPath. cbv zeta. rewrite Hs, Z.eqb_refl.
    cbn [negb].
    assert (Hgt : (strings.Index URL "/" >? 0) = true).
    { apply Z.gtb_lt.
      destruct (Z.eq_dec (strings.Index URL "/") 0) as [E|]; [|lia].
      apply Index_zero_prefix in E. unfold strings.HasPrefix in Hp.
      congruence. }
    rewrite Hgt, <- Hl. rewrite HU in Hsuf |- *.
    rewrite slice_from_append.
    rewrite HasSuffix_append in Hsuf by discriminate.
    now rewrite Hsuf.
Qed.

Lemma urlPath_after_scheme (scheme rest : string) :
  strings.Contains scheme "://" = false ->
  strings.HasPrefix rest "/" = true ->
  urlPath (scheme ++ "://" ++ rest) = trimTrailingSlash rest.
Proof.
  intros Hs Hp.
  apply Contains_false in Hs.
  unfold urlPath. cbv zeta. rewrite (Index_scheme _ rest Hs).
  pose proof (len_nonneg scheme).
  replace (negb (len scheme =? -1)) with true
    by (destruct (Z.eqb_spec (len scheme) (-1)); [lia | reflexivity]).
  replace (len scheme + 3) with (len (scheme ++ "://"))
    by (rewrite len_append; reflexivity).
  rewrite <- append_assoc, slice_from_append.
  rewrite (Index_prefix rest "/" Hp). reflexivity.
Qed.

Lemma Index_after_host (host path : string) :
  slashFree host = true ->
  strings.HasPrefix path "/" = true ->
  strings.Index (host ++ path) "/" = len host.
Proof.
  intros Hh Hp. induction host as [|c host IH].
  - now apply Index_prefix.
  - cbn [slashFree] in Hh. apply andb_prop in Hh as [Hc Hh].
    cbn [append strings.Index]. rewrite prefix_cons, Ascii.eqb_sym.
    apply negb_true_iff in Hc. rewrite Hc. cbn [andb].
    rewrite (IH Hh). pose proof (len_nonneg host).
    destruct (Z.ltb_spec (len host) 0); [lia|].
    unfold len. cbn [String.length]. lia.
Qed.

(** After a scheme marker, a host without separator is dropped and the path
    kept, up to its trailing separator. *)
Lemma urlPath_after_host (scheme host path : string) :
  strings.Contains scheme "://" = false ->
  slashFree host = true ->
  strings.HasPrefix path "/" = true ->
  urlPath (scheme ++ "://" ++ host ++ path) = trimTrailingSlash path.
Proof.
  intros Hs Hh Hp.
  apply Contains_false in Hs.
  unfold urlPath. cbv zeta. rewrite (Index_scheme _ (host ++ path) Hs).
  pose proof (len_nonneg scheme).
  replace (negb (len scheme =? -1)) with true
    by (destruct (Z.eqb_spec (len scheme) (-1)); [lia | reflexivity]).
  replace (len scheme + 3) with (len (scheme ++ "://"))
    by (rewrite len_append; reflexivity).
  rewrite <- append_assoc, slice_from_append.
  rewrite (Index_after_host host path Hh Hp).
  destruct (Z.gtb_spec (len host) 0) as [Hpos|Hzero].
  - now rewrite slice_from_append.
  - destruct host; [reflexivity|].
    unfold len in Hzero. cbn [String.length] in Hzero. lia.
Qed.

(** C10.  A URL without a scheme marker that does not start with a slash but
    contains one loses everything before its first slash: the first segment
    is taken for a host.  After a scheme marker followed directly by a slash
    (empty host) the rest is kept.  In both cases the only other change is
    the removal of one trailing slash, if there is one. *)
Theorem urlPath_strips_host :
  (forall URL : string,
     strings.Contains URL "://" = false ->
     strings.HasPrefix URL "/" = false ->
     strings.Contains URL "/" = true ->
     exists host rest,
       URL = host ++ rest /\ host <> "" /\
       strings.Contains host "/" = false /\
       strings.HasPrefix rest "/" = true /\
       urlPath URL = trimTrailingSlash rest /\
       (strings.HasSuffix URL "/" = false -> urlPath URL = rest)) /\
  (forall scheme rest : string,
     strings.Contains scheme "://" = false ->
     strings.HasPrefix rest "/" = true ->
     urlPath (scheme ++ "://" ++ rest) = trimTrailingSlash rest) /\
  urlPath "host/path" = "/path" /\
  urlPath "mem:///src" = "/src".
Proof.
  split; [exact urlPath_without_scheme|].
  split; [exact urlPath_after_scheme|].
  split; reflexivity.
Qed.

(** ** The monad *)

Section Monad.
Context {World A B : Type}.
Implicit Types (m : M World A) (f : A -> M World B) (w : World).

Lemma bind_done m f w a :
  outcome (m w) = Done a ->
  bind m f w =
  (final (f a (final (m w))),
   (events (m w) ++ events (f a (final (m w))))%list,
   outcome (f a (final (m w)))).
Proof.
  unfold bind, outcome, final, events.
  destruct (m w) as [[w1 e1] r1]; simpl. intros ->.
  now destruct (f a w1) as [[w2 e2] r2].
Qed.

Lemma bind_fail m f w e :
  outcome (m w) = Fail e ->
  bind m f w = (final (m w), events (m w), Fail e).
Proof.
  unfold bind, outcome, final, events.
  destruct (m w) as [[w1 e1] r1]; simpl. now intros ->.
Qed.

Lemma bind_fuel m f w :
  outcome (m w) = OutOfFuel ->
  bind m f w = (final (m w), events (m w), OutOfFuel).
Proof.
  unfold bind, outcome, final, events.
  destruct (m w) as [[w1 e1] r1]; simpl. now intros ->.
Qed.
End Monad.

(** ** Errors stop the walk *)

Lemma stops_done {A} (evs : list Event) (a : A) :
  stopsAtFirstError evs (Done a) -> Forall (fun e => failed e = false) evs.
Proof. intros [H|(pre & e & err & _ & _ & H)]; [auto | discriminate]. Qed.

Lemma stops_bind {World A B} (m : M World A) (f : A -> M World B) :
  always stopsAtFirstError m ->
  (forall a, always stopsAtFirstError (f a)) ->
  always stopsAtFirstError (bind m f).
Proof.
  intros Hm Hf w. specialize (Hm w).
  destruct (outcome (m w)) as [a|e|] eqn:Ho.
  - rewrite (bind_done _ _ _ _ Ho). cbn [events outcome fst snd].
    apply stops_done in Hm. destruct (Hf a (final (m w))) as [H|(pre & e & err & He & Hp & Hr)].
    + left. apply Forall_app; auto.
    + right. exists (events (m w) ++ pre)%list, e, err. rewrite He, app_assoc.
      repeat split; auto. apply Forall_app; auto.
  - rewrite (bind_fail _ _ _ _ Ho). cbn [events outcome fst snd].
    destruct Hm as [H|(pre & e' & err & He & Hp & Hr)]; [now left|].
    right. exists pre, e', e. auto.
  - rewrite (bind_fuel _ _ _ Ho). cbn [events outcome fst snd].
    destruct Hm as [H|(pre & e' & err & He & Hp & Hr)]; [now left|discriminate].
Qed.

Lemma stops_ret {World A} (a : A) : always stopsAtFirstError (@ret World A a).
Proof. intros w. left. constructor. Qed.

Lemma stops_raise {World A} (e : error) :
  always stopsAtFirstError (@raise World A e).
Proof. intros w. left. constructor. Qed.

Lemma stops_call {World A} (op : World -> result A * World) ev wrap :
  (forall a, failed (ev (Ok a)) = false) ->
  always stopsAtFirstError (call op ev wrap).
Proof.
  intros Hok w. unfold call, events, outcome. destruct (op w) as [[a|e] w']; simpl.
  - left. repeat constructor. apply Hok.
  - right. exists [], (ev (Err e)), (wrap e). repeat split; auto.
Qed.

Section EngineFacts.
Context {World : Type}.
Variable URLPathJoin : string -> string -> string.

Lemma stops_copyContent (src dst : Service World) destinationURL modify
    subPath handler object d0 :
  always stopsAtFirstError
    (copyContent URLPathJoin src dst destinationURL modify subPath handler
       object d0).
Proof.
  unfold copyContent. apply stops_bind; [now apply stops_call|]. intros reader.
  apply stops_bind.
  { unfold modifyContent. destruct modify as [h|]; [|apply stops_ret].
    destruct (ReadAll reader); [now apply stops_call | apply stops_raise]. }
  intros reader'. apply stops_bind.
  { destruct (subPath =? "")%string; [|apply stops_ret].
    unfold topLevelDestination.
    destruct (strings.HasSuffix d0 "/"); [apply stops_ret|].
    intros w. unfold events, outcome.
    destruct (StorageObject dst d0 w) as [o w']; simpl.
    left. repeat constructor. }
  intros u w. unfold invoke, events, outcome.
  destruct (handler object reader' dst u w) as [[e|] w']; simpl.
  - right. exists [], (EvHandler object reader' u (Some e)), e. repeat split; auto.
  - left. repeat constructor.
Qed.

Lemma stops_copyObjects recurse (src dst : Service World) sourceURL
    destinationURL modify subPath handler objects rel :
  (forall sub, always stopsAtFirstError (recurse sub)) ->
  always stopsAtFirstError
    (copyObjects URLPathJoin recurse src sourceURL dst destinationURL modify
       subPath handler objects rel).
Proof.
  intros Hrec. revert rel.
  induction objects as [|object rest IH]; intros rel; cbn [copyObjects].
  - apply stops_ret.
  - destruct (skipObject _ _ _ _ _); [apply IH|].
    apply stops_bind; [|intros _; apply IH].
    destruct (IsContent object); [apply stops_copyContent | apply Hrec].
Qed.

Lemma stops_copyStorageContent fuel (src dst : Service World) sourceURL
    destinationURL modify subPath handler :
  always stopsAtFirstError
    (copyStorageContent URLPathJoin fuel src sourceURL dst destinationURL
       modify subPath handler).
Proof.
  revert subPath. induction fuel as [|fuel IH]; intros subPath;
    cbn [copyStorageContent].
  - intros w. left. constructor.
  - apply stops_bind; [now apply stops_call|]. intros objects.
    apply stops_copyObjects. intros sub. apply IH.
Qed.
End EngineFacts.

Lemma failed_is_last (pre pre' post : list Event) (e e' : Event) :
  Forall (fun e => failed e = false) pre' -> failed e = true ->
  (pre ++ e :: post = pre' ++ [e'])%list -> post = [].
Proof.
  revert pre'. induction pre as [|b pre IH]; intros [|a pre'] Hok Hf Heq;
    simpl in Heq; inversion Heq; subst; auto.
  - inversion Hok; congruence.
  - now destruct pre.
  - inversion Hok; subst. eapply IH; eauto.
Qed.

Section CopyErrors.
Context {World : Type}.
Variable URLPathJoin : string -> string -> string.

Lemma Copy_events fuel (src dst : Service World) sourceURL destinationURL
    modify handler w :
  exists h,
    events (Copy URLPathJoin fuel src sourceURL dst destinationURL modify
              handler w) =
    events (copyStorageContent URLPathJoin fuel src sourceURL dst
              destinationURL modify "" h w) /\
    final (Copy URLPathJoin fuel src sourceURL dst destinationURL modify
              handler w) =
    final (copyStorageContent URLPathJoin fuel src sourceURL dst
              destinationURL modify "" h w) /\
    outcome (Copy URLPathJoin fuel src sourceURL dst destinationURL modify
               handler w) =
    match outcome (copyStorageContent URLPathJoin fuel src sourceURL dst
                     destinationURL modify "" h w) with
    | Fail err =>
        Fail ("failed to copy " ++ sourceURL ++ " -> " ++ destinationURL
              ++ ": " ++ err)
    | r => r
    end /\
    h = match handler with
        | None => copySourceToDestination
        | Some h => h
        end.
Proof.
  exists (match handler with
          | None => copySourceToDestination
          | Some h => h
          end).
  unfold Copy.
  destruct (copyStorageContent _ _ _ _ _ _ _ _ _ _) as [[w' evs] [a|e|]];
    repeat split; reflexivity.
Qed.

End CopyErrors.

(** ** Worlds and calls together *)

Section Tracks.
Context {World : Type}.
Variable URLPathJoin : string -> string -> string.
Variable T : World -> list Event -> World -> Prop.
Hypothesis T_sequential : sequential T.

Lemma tracks_bind {A B} (m : M World A) (f : A -> M World B) :
  tracks T m -> (forall a, tracks T (f a)) -> tracks T (bind m f).
Proof.
  intros Hm Hf w. specialize (Hm w).
  destruct (outcome (m w)) as [a|e|] eqn:Ho.
  - rewrite (bind_done _ _ _ _ Ho). cbn [final events fst snd].
    eapply (proj2 T_sequential); [exact Hm | apply Hf].
  - now rewrite (bind_fail _ _ _ _ Ho).
  - now rewrite (bind_fuel _ _ _ Ho).
Qed.

Lemma tracks_ret {A} (a : A) : tracks T (@ret World A a).
Proof. intros w. apply T_sequential. Qed.

Lemma tracks_raise {A} (e : error) : tracks T (@raise World A e).
Proof. intros w. apply T_sequential. Qed.

Lemma tracks_call {A} (op : World -> result A * World) ev wrap :
  (forall w, T w [ev (fst (op w))] (snd (op w))) ->
  tracks T (call op ev wrap).
Proof.
  intros H w. specialize (H w). unfold call, final, events.
  now destruct (op w) as [r w'].
Qed.

Variables (src dst : Service World) (handler : CopyHandler World).
Hypothesis T_List :
  forall url w, T w [EvList url (fst (List src url w))] (snd (List src url w)).
Hypothesis T_Download :
  forall o w,
    T w [EvDownload o (fst (Download src o w))] (snd (Download src o w)).
Hypothesis T_Modify : forall input r w, T w [EvModify input r] w.
Hypothesis T_StorageObject :
  forall url w,
    T w [EvStorageObject url (fst (StorageObject dst url w))]
      (snd (StorageObject dst url w)).
Hypothesis T_handler :
  forall o r u w,
    T w [EvHandler o r u (fst (handler o r dst u w))]
      (snd (handler o r dst u w)).

Lemma tracks_copyContent destinationURL modify subPath object d0 :
  tracks T (copyContent URLPathJoin src dst destinationURL modify subPath
              handler object d0).
Proof.
  unfold copyContent. apply tracks_bind.
  { apply tracks_call. apply T_Download. }
  intros reader. apply tracks_bind.
  { unfold modifyContent. destruct modify as [h|]; [|apply tracks_ret].
    destruct (ReadAll reader); [|apply tracks_raise].
    apply tracks_call. intros w. apply T_Modify. }
  intros reader'. apply tracks_bind.
  { destruct (subPath =? "")%string; [|apply tracks_ret].
    unfold topLevelDestination.
    destruct (strings.HasSuffix d0 "/"); [apply tracks_ret|].
    intros w. unfold final, events.
    pose proof (T_StorageObject d0 w) as H.
    now destruct (StorageObject dst d0 w) as [o w']. }
  intros u w. unfold invoke, final, events.
  pose proof (T_handler object reader' u w) as H.
  now destruct (handler object reader' dst u w) as [err w'].
Qed.

Lemma tracks_copyObjects recurse sourceURL destinationURL modify subPath
    objects rel :
  (forall sub, tracks T (recurse sub)) ->
  tracks T (copyObjects URLPathJoin recurse src sourceURL dst destinationURL
              modify subPath handler objects rel).
Proof.
  intros Hrec. revert rel.
  induction objects as [|object rest IH]; intros rel; cbn [copyObjects].
  - apply tracks_ret.
  - destruct (skipObject _ _ _ _ _); [apply IH|].
    apply tracks_bind; [|intros _; apply IH].
    destruct (IsContent object); [apply tracks_copyContent | apply Hrec].
Qed.

Lemma tracks_copyStorageContent fuel sourceURL destinationURL modify subPath :
  tracks T (copyStorageContent URLPathJoin fuel src sourceURL dst
              destinationURL modify subPath handler).
Proof.
  revert subPath. induction fuel as [|fuel IH]; intros subPath;
    cbn [copyStorageContent].
  - intros w. apply T_sequential.
  - apply tracks_bind; [apply tracks_call; apply T_List|].
    intros objects. apply tracks_copyObjects. intros sub. apply IH.
Qed.
End Tracks.

Lemma handled_app (a b : list Event) :
  handled (a ++ b) = (handled a ++ handled b)%list.
Proof.
  induction a as [|[] a IH]; simpl; auto. now rewrite IH.
Qed.

Lemma listed_app (a b : list Event) :
  listed (a ++ b) = (listed a ++ listed b)%list.
Proof.
  induction a as [|[? []| | | |] a IH]; simpl; auto.
  now rewrite IH, app_assoc.
Qed.

Lemma perm_merge {A} (h1 h2 m1 m2 r l1 l2 : list A) :
  Permutation (h1 ++ m1) l1 -> Permutation (h2 ++ m2) (r ++ l2) ->
  Permutation ((h1 ++ h2) ++ m1 ++ m2) (r ++ l1 ++ l2).
Proof.
  intros H1 H2.
  transitivity ((h1 ++ m1) ++ h2 ++ m2)%list.
  - rewrite <- !app_assoc. apply Permutation_app_head.
    rewrite !app_assoc. apply Permutation_app_tail, Permutation_app_comm.
  - rewrite H1, H2. apply Permutation_app_swap_app.
Qed.

Ltac run_step :=
  repeat match goal with
         | |- context [match ?x with _ => _ end] =>
             match x with
             | context [match _ with _ => _ end] => fail 1
             | _ => destruct x eqn:?
             end
         end.

Section Accounting.
Context {World : Type}.
Variable URLPathJoin : string -> string -> string.

Lemma copyContent_handled (src dst : Service World) destinationURL modify
    subPath handler object d0 w :
  let x := copyContent URLPathJoin src dst destinationURL modify subPath
             handler object d0 w in
  listed (events x) = [] /\
  (handled (events x) = [object] \/
   handled (events x) = [] /\ outcome x <> Done tt).
Proof.
  unfold copyContent, modifyContent, topLevelDestination, invoke, bind, call,
    ret, raise, events, outcome.
  cbv zeta.
  run_step; simpl; split; auto; try (right; split; [reflexivity|discriminate]).
Qed.

Lemma skipObject_folder sourceURLPath subPath object objectURLPath :
  skipObject URLPathJoin sourceURLPath subPath object objectURLPath = true ->
  IsFolder object = true.
Proof. unfold skipObject. now intros [H _]%andb_prop. Qed.

Lemma accounted_skip object rest evs r :
  skipObject URLPathJoin
    (urlPath "") "" object "" = true \/ IsFolder object = true ->
  accounted rest evs r -> accounted (object :: rest) evs r.
Proof.
  intros Hf (missed & Hp & Hd).
  assert (Hfolder : IsFolder object = true).
  { destruct Hf as [H|H]; auto. now apply skipObject_folder in H. }
  unfold accounted. cbn [app filter].
  destruct (IsContent object) eqn:Hc.
  - exists (object :: missed). split.
    + rewrite <- Permutation_middle. now constructor.
    + intros _ Hall. inversion Hall as [|? ? Ho _]; subst.
      unfold classified in Ho. rewrite Hfolder, Hc in Ho. discriminate.
  - exists missed. split; auto.
    intros Hr Hall. inversion Hall; subst. auto.
Qed.

Lemma accounted_copyObjects recurse (src dst : Service World) sourceURL
    destinationURL modify subPath handler objects rel :
  (forall sub, always (accounted []) (recurse sub)) ->
  always (accounted objects)
    (copyObjects URLPathJoin recurse src sourceURL dst destinationURL modify
       subPath handler objects rel).
Proof.
  intros Hrec. revert rel.
  induction objects as [|object rest IH]; intros rel w; cbn [copyObjects].
  - exists []. split; auto.
  - destruct (skipObject _ _ _ _ _) eqn:Hskip.
    + apply accounted_skip; [|apply IH].
      right. eapply skipObject_folder; eauto.
    + set (rel' := nextRelativePath _ _ rel).
      set (d0 := destinationFor _ _ _).
      destruct (IsContent object) eqn:Hc.
      * pose proof (copyContent_handled src dst destinationURL
                      modify subPath handler object d0 w) as [Hl Hh].
        cbv zeta in Hl, Hh.
        set (step := copyContent _ _ _ _ _ _ _ _ _) in *.
        destruct (outcome (step w)) as [[]|e|] eqn:Ho.
        -- rewrite (bind_done _ _ _ _ Ho). cbn [events outcome fst snd].
           destruct Hh as [Hh|[_ Hh]]; [|congruence].
           destruct (IH rel' (final (step w))) as (missed & Hp & Hd).
           exists missed. rewrite handled_app, listed_app, Hh, Hl.
           cbn [app filter]. rewrite Hc. split.
           ++ now constructor.
           ++ intros Hr Hall. inversion Hall; subst. auto.
        -- rewrite (bind_fail _ _ _ _ Ho). cbn [events outcome fst snd].
           unfold accounted. rewrite Hl. cbn [app filter]. rewrite Hc, app_nil_r.
           destruct Hh as [Hh|[Hh _]]; rewrite Hh.
           ++ exists (filter IsContent rest). split; [reflexivity|discriminate].
           ++ exists (object :: filter IsContent rest).
              split; [reflexivity|discriminate].
        -- rewrite (bind_fuel _ _ _ Ho). cbn [events outcome fst snd].
           unfold accounted. rewrite Hl. cbn [app filter]. rewrite Hc, app_nil_r.
           destruct Hh as [Hh|[Hh _]]; rewrite Hh.
           ++ exists (filter IsContent rest). split; [reflexivity|discriminate].
           ++ exists (object :: filter IsContent rest).
              split; [reflexivity|discriminate].
      * destruct (Hrec rel' w) as (m1 & Hp1 & Hd1). cbn [app] in Hp1, Hd1.
        destruct (outcome (recurse rel' w)) as [[]|e|] eqn:Ho.
        -- rewrite (bind_done _ _ _ _ Ho). cbn [events outcome fst snd].
           destruct (IH rel' (final (recurse rel' w))) as (m2 & Hp2 & Hd2).
           exists (m1 ++ m2)%list.
           rewrite handled_app, listed_app. cbn [app filter]. rewrite Hc.
           rewrite !filter_app in *. split.
           ++ now apply perm_merge.
           ++ intros Hr Hall. inversion Hall as [|? ? _ Hall']; subst.
              apply Forall_app in Hall' as [Hrest Hall'].
              apply Forall_app in Hall' as [Hl1 Hl2].
              rewrite (Hd1 eq_refl Hl1), (Hd2 Hr); auto.
              apply Forall_app; auto.
        -- rewrite (bind_fail _ _ _ _ Ho). cbn [events outcome fst snd].
           exists (m1 ++ filter IsContent rest)%list. cbn [app filter].
           rewrite Hc, filter_app. split; [|discriminate].
           rewrite app_assoc, Hp1. apply Permutation_app_comm.
        -- rewrite (bind_fuel _ _ _ Ho). cbn [events outcome fst snd].
           exists (m1 ++ filter IsContent rest)%list. cbn [app filter].
           rewrite Hc, filter_app. split; [|discriminate].
           rewrite app_assoc, Hp1. apply Permutation_app_comm.
Qed.

Lemma accounted_copyStorageContent fuel (src dst : Service World) sourceURL
    destinationURL modify subPath handler :
  always (accounted [])
    (copyStorageContent URLPathJoin fuel src sourceURL dst destinationURL
       modify subPath handler).
Proof.
  revert subPath. induction fuel as [|fuel IH]; intros subPath w;
    cbn [copyStorageContent].
  - exists []. split; auto.
  - set (url := if negb (subPath =? "")%string then _ else _).
    set (loop := copyObjects _ _ _ _ _ _ _ _ _).
    pose proof (fun objects =>
      accounted_copyObjects _ src dst sourceURL destinationURL modify
        subPath handler objects "" IH) as Hloop.
    fold loop in Hloop.
    unfold bind, call, events, outcome.
    destruct (List src url w) as [[objects|e] w1]; cbn [fst snd].
    + specialize (Hloop objects w1). unfold events, outcome in Hloop.
      destruct (loop objects "" w1) as [[w2 evs2] r2]. cbn [fst snd] in *.
      exact Hloop.
    + exists []. split; auto.
Qed.

Lemma Copy_handledOnce fuel (src dst : Service World) sourceURL
    destinationURL modify handler w :
  handledOnce (Copy URLPathJoin fuel src sourceURL dst destinationURL modify
                 handler w).
Proof.
  unfold handledOnce.
  destruct (Copy_events URLPathJoin fuel src dst sourceURL destinationURL
              modify handler w) as (h & -> & _ & -> & _).
  destruct (accounted_copyStorageContent fuel src dst sourceURL
              destinationURL modify "" h w) as (missed & Hp & Hd).
  cbn [app] in Hp, Hd.
  exists missed. split; [exact Hp|]. split.
  - intros Hr. apply Hd.
    destruct (outcome (copyStorageContent _ _ _ _ _ _ _ _ _ _)) as [[]|e|];
      congruence.
  - intros Hall. apply Forall_forall. intros o Ho.
    assert (Hin : In o (filter IsContent
              (listed (events (copyStorageContent URLPathJoin fuel src
                 sourceURL dst destinationURL modify "" h w))))).
    { eapply Permutation_in; [exact Hp|]. apply in_or_app. now left. }
    apply filter_In in Hin as [Hin Hc]. split; [exact Hc|].
    rewrite Forall_forall in Hall. rewrite (Hall o Hin), Hc. reflexivity.
Qed.
End Accounting.

(** C2, as amended.  In one top-level call of Copy, Archive or
    ArchiveWithFilter the content objects returned by the listings and the
    objects passed to the copy handler match one to one when the call
    returns [nil] (objects being folder or content, not both); when it
    fails, every object passed is still a listed content object, passed
    once, and the others are [missed].  No folder is ever passed. *)
Theorem handler_gets_each_content_object_once :
  (forall World join fuel (src dst : Service World) sourceURL destinationURL
          modify handler w,
     handledOnce (Copy join fuel src sourceURL dst destinationURL modify
                    handler w)) /\
  (forall W join split fuel (service : Service W) URL w writer,
     handledOnce (Archive join split fuel service URL w writer)) /\
  (forall W join split fuel (service : Service W) URL w writer predicate,
     handledOnce (ArchiveWithFilter join split fuel service URL w writer
                    predicate)).
Proof.
  split; [|split]; intros.
  - apply Copy_handledOnce.
  - apply Copy_handledOnce.
  - apply Copy_handledOnce.
Qed.

(** ** The modification handler *)

Lemma transformedBy_nil h : transformedBy h [].
Proof. intros [|? ?] ? ? ? ? ? H; discriminate. Qed.

Lemma transformedBy_other h e :
  match e with EvHandler _ _ _ _ => False | _ => True end ->
  transformedBy h [e].
Proof.
  intros He [|e' pre] o r u res post H; simpl in H.
  - inversion H; subst. destruct He.
  - inversion H. now destruct pre.
Qed.

Lemma transformedBy_app h evs1 evs2 :
  transformedBy h evs1 -> transformedBy h evs2 ->
  transformedBy h (evs1 ++ evs2).
Proof.
  intros H1 H2 pre o r u res post Heq.
  apply app_eq_app in Heq as [l [[E1 E2]|[E1 E2]]].
  - destruct l as [|e l].
    + rewrite app_nil_r in E1. simpl in E2. symmetry in E2.
      destruct (H2 [] o r u res post E2) as (pre' & rd & c & probe & E & _).
      now destruct pre'.
    + simpl in E2. inversion E2; subst. eapply H1. reflexivity.
  - destruct (H2 l o r u res post E2) as (pre' & rd & c & probe & E & ?).
    exists (evs1 ++ pre')%list, rd, c, probe. subst. now rewrite <- app_assoc.
Qed.

Lemma transformedBy_bind {World A B} h (m : M World A) (f : A -> M World B) :
  always (fun evs _ => transformedBy h evs) m ->
  (forall a, always (fun evs _ => transformedBy h evs) (f a)) ->
  always (fun evs _ => transformedBy h evs) (bind m f).
Proof.
  intros Hm Hf w. specialize (Hm w).
  destruct (outcome (m w)) as [a|e|] eqn:Ho.
  - rewrite (bind_done _ _ _ _ Ho). cbn [events outcome fst snd].
    apply transformedBy_app; auto. apply Hf.
  - now rewrite (bind_fail _ _ _ _ Ho).
  - now rewrite (bind_fuel _ _ _ Ho).
Qed.

Section Transform.
Context {World : Type}.
Variable URLPathJoin : string -> string -> string.
Variable h : ModificationHandler.

Lemma transformedBy_copyContent (src dst : Service World) destinationURL
    subPath handler object d0 :
  always (fun evs _ => transformedBy h evs)
    (copyContent URLPathJoin src dst destinationURL (Some h) subPath handler
       object d0).
Proof.
  intros w.
  unfold copyContent, modifyContent, topLevelDestination, invoke, bind, call,
    ret, raise, events, outcome, ReadAll.
  cbv zeta.
  destruct (Download src object w) as [[rd|e] w1]; cbn [fst snd];
    [|now apply transformedBy_other].
  destruct (failure rd) eqn:Hrd; cbn [fst snd app];
    [now apply transformedBy_other|].
  destruct (h (NopCloser (data rd))) as [r|e] eqn:Hh; cbn [fst snd app].
  2:{ apply (transformedBy_app h [_] [_]); now apply transformedBy_other. }
  assert (Hchain : forall probe u res,
            probe = [] \/ (exists u' p, probe = [EvStorageObject u' p]) ->
            transformedBy h
              ([EvDownload object (Ok rd)]
               ++ ([EvModify (NopCloser (data rd)) (Ok r)]
                   ++ probe ++ [EvHandler object r u res]))%list).
  { intros probe u res Hprobe pre o' r' u' res' post Heq.
    exists [], rd, (data rd), probe.
    assert (pre = ([EvDownload object (Ok rd);
                    EvModify (NopCloser (data rd)) (Ok r)] ++ probe)%list
            /\ o' = object /\ r' = r) as (-> & -> & ->).
    { destruct Hprobe as [->|(u1 & p1 & ->)]; simpl in Heq;
        repeat (destruct pre as [|? pre]; simpl in Heq; inversion Heq; subst;
                auto);
        now destruct pre. }
    unfold ReadAll. rewrite Hrd. auto. }
  destruct (subPath =? "")%string.
  - destruct (strings.HasSuffix d0 "/"); cbn [fst snd app].
    + destruct (handler _ _ _ _ _) as [[e|] w2]; cbn [fst snd app];
        apply (Hchain []); auto.
    + destruct (StorageObject dst d0 w1) as [p w2]; cbn [fst snd app].
      destruct (handler _ _ _ _ _) as [[e|] w3]; cbn [fst snd app];
        apply (Hchain [_]); eauto.
  - cbn [fst snd app].
    destruct (handler _ _ _ _ _) as [[e|] w2]; cbn [fst snd app];
      apply (Hchain []); auto.
Qed.

Lemma transformedBy_copyObjects recurse (src dst : Service World) sourceURL
    destinationURL subPath handler objects rel :
  (forall sub, always (fun evs _ => transformedBy h evs) (recurse sub)) ->
  always (fun evs _ => transformedBy h evs)
    (copyObjects URLPathJoin recurse src sourceURL dst destinationURL
       (Some h) subPath handler objects rel).
Proof.
  intros Hrec. revert rel.
  induction objects as [|object rest IH]; intros rel; cbn [copyObjects].
  - intros w. apply transformedBy_nil.
  - destruct (skipObject _ _ _ _ _); [apply IH|].
    apply transformedBy_bind; [|intros _; apply IH].
    destruct (IsContent object);
      [apply transformedBy_copyContent | apply Hrec].
Qed.

Lemma transformedBy_copyStorageContent fuel (src dst : Service World)
    sourceURL destinationURL subPath handler :
  always (fun evs _ => transformedBy h evs)
    (copyStorageContent URLPathJoin fuel src sourceURL dst destinationURL
       (Some h) subPath handler).
Proof.
  revert subPath. induction fuel as [|fuel IH]; intros subPath;
    cbn [copyStorageContent].
  - intros w. apply transformedBy_nil.
  - apply transformedBy_bind.
    + intros w. unfold call, events. destruct (List src _ w) as [r w1].
      now apply transformedBy_other.
    + intros objects. apply transformedBy_copyObjects. intros sub. apply IH.
Qed.

Lemma uploadsOf_In evs u r :
  In (u, r) (uploadsOf evs) ->
  exists pre o res post, evs = (pre ++ EvHandler o r u res :: post)%list.
Proof.
  unfold uploadsOf. intros Hin. apply in_flat_map in Hin as (ev & Hev & Hin).
  apply in_split in Hev as (pre & post & ->).
  destruct ev as [| | | |o r' u' res]; try contradiction.
  destruct Hin as [[= <- <-]|[]]. eauto.
Qed.

Lemma mirrors_bind {A B} (m : M World A) m' (f : A -> M World B) f' :
  mirrors m m' -> (forall a, mirrors (f a) (f' a)) ->
  mirrors (bind m f) (bind m' f').
Proof.
  intros Hm Hf w l. specialize (Hm w l). unfold bind.
  unfold events, outcome, final in *.
  destruct (m w) as [[w1 e1] r1], (m' (w, l)) as [[[w1' l1] e1'] r1'].
  cbn [fst snd] in Hm. destruct Hm as (-> & -> & ->).
  destruct r1 as [a| |]; cbn [fst snd]; auto.
  specialize (Hf a w1 l1). unfold events, outcome, final in Hf.
  destruct (f a w1) as [[w2 e2] r2], (f' a (w1, l1)) as [[[w2' l2] e2'] r2'].
  cbn [fst snd] in *. destruct Hf as (-> & -> & ->). auto.
Qed.

Lemma mirrors_pure {A} (m : M World A) (m' : M (Recorded World) A) :
  (forall w l, m' (w, l) = ((fst (fst (m w)), l), snd (fst (m w)), snd (m w))) ->
  mirrors m m'.
Proof. intros H w l. rewrite H. unfold events, outcome, final. auto. Qed.

Lemma mirrors_copyContent (src dst : Service World) destinationURL modify
    subPath object d0 :
  mirrors
    (copyContent URLPathJoin src dst destinationURL modify subPath
       copySourceToDestination object d0)
    (copyContent URLPathJoin (unrecorded src) (recording dst) destinationURL
       modify subPath copySourceToDestination object d0).
Proof.
  unfold copyContent. apply mirrors_bind.
  { intros w l. unfold call, events, outcome, final.
    cbn [Download unrecorded fst snd].
    now destruct (Download src object w) as [r w1]. }
  intros reader. apply mirrors_bind.
  { apply mirrors_pure. intros w l. unfold modifyContent.
    destruct modify as [g|]; [|reflexivity].
    destruct (ReadAll reader); reflexivity. }
  intros reader'. apply mirrors_bind.
  { destruct (subPath =? "")%string; [|now apply mirrors_pure].
    unfold topLevelDestination.
    destruct (strings.HasSuffix d0 "/"); [now apply mirrors_pure|].
    intros w l. unfold events, outcome, final.
    cbn [StorageObject recording fst snd].
    now destruct (StorageObject dst d0 w) as [p w1]. }
  intros u w l. unfold invoke, copySourceToDestination, events, outcome,
    final.
  cbn [Upload recording fst snd].
  now destruct (Upload dst u reader' w) as [[e|] w1].
Qed.

Lemma mirrors_copyObjects recurse recurse' (src dst : Service World)
    sourceURL destinationURL modify subPath objects rel :
  (forall sub, mirrors (recurse sub) (recurse' sub)) ->
  mirrors
    (copyObjects URLPathJoin recurse src sourceURL dst destinationURL modify
       subPath copySourceToDestination objects rel)
    (copyObjects URLPathJoin recurse' (unrecorded src) sourceURL
       (recording dst) destinationURL modify subPath copySourceToDestination
       objects rel).
Proof.
  intros Hrec. revert rel.
  induction objects as [|object rest IH]; intros rel; cbn [copyObjects].
  - now apply mirrors_pure.
  - destruct (skipObject _ _ _ _ _); [apply IH|].
    apply mirrors_bind; [|intros _; apply IH].
    destruct (IsContent object); [apply mirrors_copyContent | apply Hrec].
Qed.

Lemma mirrors_copyStorageContent fuel (src dst : Service World) sourceURL
    destinationURL modify subPath :
  mirrors
    (copyStorageContent URLPathJoin fuel src sourceURL dst destinationURL
       modify subPath copySourceToDestination)
    (copyStorageContent URLPathJoin fuel (unrecorded src) sourceURL
       (recording dst) destinationURL modify subPath copySourceToDestination).
Proof.
  revert subPath. induction fuel as [|fuel IH]; intros subPath;
    cbn [copyStorageContent].
  - now apply mirrors_pure.
  - apply mirrors_bind.
    + intros w l. unfold call, events, outcome, final.
      cbn [List unrecorded fst snd].
      now destruct (List src _ w) as [r w1].
    + intros objects. apply mirrors_copyObjects. intros sub. apply IH.
Qed.

Lemma recorded_sequential : sequential (@recorded World).
Proof.
  unfold recorded. split.
  - intros w. cbn. now rewrite app_nil_r.
  - intros a e1 b e2 c Hb Hc. rewrite Hc, Hb. unfold uploadsOf.
    now rewrite flat_map_app, app_assoc.
Qed.

Lemma recorded_copyStorageContent fuel (src dst : Service World) sourceURL
    destinationURL modify subPath :
  tracks recorded
    (copyStorageContent URLPathJoin fuel (unrecorded src) sourceURL
       (recording dst) destinationURL modify subPath copySourceToDestination).
Proof.
  apply (tracks_copyStorageContent URLPathJoin recorded recorded_sequential);
    unfold recorded.
  - intros url w. cbn [List unrecorded].
    destruct (List src url (fst w)); cbn. now rewrite app_nil_r.
  - intros o w. cbn [Download unrecorded].
    destruct (Download src o (fst w)); cbn. now rewrite app_nil_r.
  - intros input r w. cbn. now rewrite app_nil_r.
  - intros url w. cbn [StorageObject recording].
    destruct (StorageObject dst url (fst w)); cbn. now rewrite app_nil_r.
  - intros o r u w. unfold copySourceToDestination. cbn [Upload recording].
    destruct (Upload dst u r (fst w)) as [[e|] b]; reflexivity.
Qed.

(** C8.  With a modification handler and the default copy handler, the
    uploads the destination receives in a Copy are those of the handler
    calls, one [Upload] per call, at the call's destination URL and with
    the call's stream; and that stream is what the modification handler
    returned for the whole content read from the download of the call's
    object.  ([recording] puts the uploads a destination receives on
    record; the Copy is the same with and without the record.) *)
Theorem upload_is_modified_source fuel (src dst : Service World) sourceURL
    destinationURL w :
  let x := Copy URLPathJoin fuel src sourceURL dst destinationURL (Some h)
             None w in
  let x' := Copy URLPathJoin fuel (unrecorded src) sourceURL (recording dst)
              destinationURL (Some h) None (w, []) in
  (events x' = events x /\ outcome x' = outcome x /\
   fst (final x') = final x) /\
  snd (final x') = uploadsOf (events x) /\
  transformedBy h (events x) /\
  (forall u r,
     In (u, r) (snd (final x')) ->
     exists o rd content,
       In (EvDownload o (Ok rd)) (events x) /\
       ReadAll rd = Ok content /\
       h (NopCloser content) = Ok r) /\
  (forall o r u w',
     snd (copySourceToDestination o r dst u w') = snd (Upload dst u r w') /\
     (fst (copySourceToDestination o r dst u w') = None <->
      fst (Upload dst u r w') = None)).
Proof.
  cbv zeta.
  destruct (Copy_events URLPathJoin fuel src dst sourceURL destinationURL
              (Some h) None w) as (hd & Ee & Ef & Eo & ->).
  destruct (Copy_events URLPathJoin fuel (unrecorded src) (recording dst)
              sourceURL destinationURL (Some h) None (w, []))
    as (hd' & Ee' & Ef' & Eo' & ->).
  destruct (mirrors_copyStorageContent fuel src dst sourceURL destinationURL
              (Some h) "" w []) as (Me & Mo & Mf).
  pose proof (recorded_copyStorageContent fuel src dst sourceURL
                destinationURL (Some h) "" (w, [])) as Hrec.
  unfold recorded in Hrec. cbn [snd app] in Hrec.
  pose proof (transformedBy_copyStorageContent fuel src dst sourceURL
                destinationURL "" copySourceToDestination w) as Ht.
  cbv beta in Ht.
  rewrite Ee', Ef', Eo', Ee, Ef, Eo, Me, Mo, Mf, Hrec, Me.
  split; [auto|]. split; [reflexivity|]. split; [exact Ht|]. split.
  - intros u r Hin.
    apply uploadsOf_In in Hin as (pre & o & res & post & E).
    destruct (Ht pre o r u res post E) as (pre' & rd & content & probe & -> &
                                           Hr & Hh & _).
    exists o, rd, content. split; [|auto]. rewrite E.
    apply in_or_app. left. apply in_or_app. right. apply in_or_app. left.
    now left.
  - intros o r u w'. unfold copySourceToDestination.
    destruct (Upload dst u r w') as [[e|] w'']; cbn [fst snd]; split; auto;
      split; intros H; (reflexivity || discriminate H).
Qed.
End Transform.

(** ** What a walk leaves unchanged *)

Section Keeps.
Context {World : Type}.
Variable URLPathJoin : string -> string -> string.
Variable R : World -> World -> Prop.
Hypothesis R_refl : forall w, R w w.
Hypothesis R_trans : forall a b c, R a b -> R b c -> R a c.

Lemma keeps_bind {A B} (m : M World A) (f : A -> M World B) :
  keeps R m -> (forall a, keeps R (f a)) -> keeps R (bind m f).
Proof.
  intros Hm Hf w. specialize (Hm w).
  destruct (outcome (m w)) as [a|e|] eqn:Ho.
  - rewrite (bind_done _ _ _ _ Ho). cbn [final fst].
    eapply R_trans; [exact Hm | apply Hf].
  - now rewrite (bind_fail _ _ _ _ Ho).
  - now rewrite (bind_fuel _ _ _ Ho).
Qed.

Lemma keeps_ret {A} (a : A) : keeps R (@ret World A a).
Proof. intros w. apply R_refl. Qed.

Lemma keeps_call {A} (op : World -> result A * World) ev wrap :
  (forall w, R w (snd (op w))) -> keeps R (call op ev wrap).
Proof.
  intros H w. specialize (H w). unfold call, final.
  now destruct (op w) as [r w'].
Qed.

Variables (src dst : Service World) (handler : CopyHandler World).
Hypothesis src_keeps : serviceKeeps R src.
Hypothesis dst_keeps : serviceKeeps R dst.
Hypothesis handler_keeps : handlerKeeps R handler.

Lemma keeps_copyContent destinationURL modify subPath object d0 :
  keeps R (copyContent URLPathJoin src dst destinationURL modify subPath
             handler object d0).
Proof.
  unfold copyContent. apply keeps_bind.
  { apply keeps_call. apply src_keeps. }
  intros reader. apply keeps_bind.
  { unfold modifyContent. destruct modify as [h|]; [|apply keeps_ret].
    destruct (ReadAll reader); [|intros w; apply R_refl].
    apply keeps_call. intros w. apply R_refl. }
  intros reader'. apply keeps_bind.
  { destruct (subPath =? "")%string; [|apply keeps_ret].
    unfold topLevelDestination.
    destruct (strings.HasSuffix d0 "/"); [apply keeps_ret|].
    intros w. unfold final.
    pose proof (proj2 (proj2 dst_keeps) d0 w) as H.
    now destruct (StorageObject dst d0 w) as [o w']. }
  intros u w. unfold invoke, final.
  pose proof (handler_keeps object reader' dst u w) as H.
  now destruct (handler object reader' dst u w) as [err w'].
Qed.

Lemma keeps_copyObjects recurse sourceURL destinationURL modify subPath
    objects rel :
  (forall sub, keeps R (recurse sub)) ->
  keeps R (copyObjects URLPathJoin recurse src sourceURL dst destinationURL
             modify subPath handler objects rel).
Proof.
  intros Hrec. revert rel.
  induction objects as [|object rest IH]; intros rel; cbn [copyObjects].
  - apply keeps_ret.
  - destruct (skipObject _ _ _ _ _); [apply IH|].
    apply keeps_bind; [|intros _; apply IH].
    destruct (IsContent object); [apply keeps_copyContent | apply Hrec].
Qed.

Lemma keeps_copyStorageContent fuel sourceURL destinationURL modify subPath :
  keeps R (copyStorageContent URLPathJoin fuel src sourceURL dst
             destinationURL modify subPath handler).
Proof.
  revert subPath. induction fuel as [|fuel IH]; intros subPath;
    cbn [copyStorageContent].
  - intros w. apply R_refl.
  - apply keeps_bind; [apply keeps_call; apply src_keeps|].
    intros objects. apply keeps_copyObjects. intros sub. apply IH.
Qed.
End Keeps.

(** ** Archive *)

Lemma appendLast_headers bs es :
  map zip.header (zip.appendLast bs es) = map zip.header es.
Proof.
  unfold zip.appendLast. rewrite <- (rev_involutive es) at 2.
  destruct (rev es) as [|e before]; [reflexivity|].
  cbn [rev]. now rewrite !map_app.
Qed.

Section ArchiveFacts.
Context {W : Type}.
Variable URLPathJoin : string -> string -> string.
Variable URLSplit : string -> string * string.

Lemma wrote_same ok (w w' : ArchiveWorld W) :
  archive w' = archive w -> wrote ok w w'.
Proof. intros E. exists []. now rewrite E, app_nil_r. Qed.

Lemma wrote_refl ok (w : ArchiveWorld W) : wrote ok w w.
Proof. now apply wrote_same. Qed.

Lemma wrote_trans ok (a b c : ArchiveWorld W) :
  wrote ok a b -> wrote ok b c -> wrote ok a c.
Proof.
  intros (x & Hx & Fx) (y & Hy & Fy). exists (x ++ y)%list.
  rewrite Hy, Hx, app_assoc. split; auto. apply Forall_app; auto.
Qed.

Lemma onBackend_keeps ok (s : Service W) :
  serviceKeeps (wrote ok) (onBackend s).
Proof.
  repeat split; intros; cbn [onBackend List Download StorageObject];
    match goal with
    | |- context [let '(_, _) := ?x in _] => destruct x
    end; now apply wrote_same.
Qed.

Lemma onScratch_keeps ok (s : Service memory.Store) :
  serviceKeeps (@wrote W ok) (onScratch s).
Proof.
  repeat split; intros; cbn [onScratch List Download StorageObject];
    match goal with
    | |- context [let '(_, _) := ?x in _] => destruct x
    end; now apply wrote_same.
Qed.

(** The header [CreateHeader] records for [fh]. *)
Lemma writeEntry_wrote (fh : zip.FileHeader) reader (w : ArchiveWorld W) :
  wrote (methodFor (zip.Method fh)) w (snd (writeEntry fh reader w)).
Proof.
  assert (Hadd : forall (es : list zip.Entry) (h : zip.FileHeader),
            map zip.header (es ++ [{| zip.header := h; zip.content := [] |}])
            = (map zip.header es ++ [h])%list).
  { intros es h. now rewrite map_app. }
  assert (Hnone : forall b : ArchiveWorld W,
            zip.entries (archive b) = zip.entries (archive w) ->
            wrote (methodFor (zip.Method fh)) w b).
  { intros b E. exists []. rewrite E, app_nil_r. split; [reflexivity|].
    constructor. }
  assert (Hok : methodFor (zip.Method fh)
                  (if strings.HasSuffix (zip.Name fh) "/"
                   then {| zip.Name := zip.Name fh; zip.Method := zip.Store;
                           zip.Info := zip.Info fh |}
                   else fh)).
  { unfold methodFor.
    destruct (strings.HasSuffix (zip.Name fh) "/") eqn:Hd;
      cbn [zip.Name zip.Method]; now rewrite Hd. }
  unfold writeEntry, zip.CreateHeader. cbv zeta.
  destruct (if zip.last (archive w) then zip.broken (archive w) else None);
    cbn [snd archive]; [now apply Hnone|].
  destruct (negb (strings.HasSuffix (zip.Name fh) "/") && _);
    cbn [snd archive]; [now apply Hnone|].
  match goal with
  | |- context [len (zip.Name ?h) >? 65535] =>
      destruct (len (zip.Name h) >? 65535)
  end; cbn [snd archive zip.entries].
  - eexists. cbn [archive zip.entries].
    split; [apply Hadd | now constructor].
  - destruct (zip.broken (archive w)); cbn [snd archive zip.entries].
    + eexists. cbn [archive zip.entries].
      split; [apply Hadd | now constructor].
    + unfold zip.ioCopy.
      destruct (strings.HasSuffix (zip.Name fh) "/");
        [destruct (data reader)|];
        cbn [snd archive zip.entries]; eexists;
        cbn [archive zip.entries]; rewrite ?appendLast_headers;
        (split; [apply Hadd | now constructor]).
Qed.

Lemma getArchiveCopyHandler_wrote parentURL :
  handlerKeeps (wrote (methodFor zip.Deflate))
    (@getArchiveCopyHandler W URLSplit parentURL).
Proof.
  intros o r dst u w. unfold getArchiveCopyHandler, zip.FileInfoHeader.
  cbv zeta. apply (writeEntry_wrote {| zip.Method := zip.Deflate |}).
Qed.

Lemma getArchiveCopyHandlerWithFilter_wrote parentURL predicate :
  handlerKeeps (wrote (methodFor zip.Store))
    (@getArchiveCopyHandlerWithFilter W URLSplit parentURL predicate).
Proof.
  intros o r dst u w. unfold getArchiveCopyHandlerWithFilter,
    zip.FileInfoHeader.
  destruct (predicate o); cbn [negb]; [|apply wrote_refl].
  cbv zeta. apply (writeEntry_wrote {| zip.Method := zip.Store |}).
Qed.

Lemma methodFor_Store added :
  Forall (methodFor zip.Store) added ->
  Forall (fun fh => zip.Method fh = zip.Store) added.
Proof.
  apply Forall_impl. intros fh H. unfold methodFor in H.
  now destruct (strings.HasSuffix (zip.Name fh) "/").
Qed.

Lemma getArchiveCopyHandlerWithFilter_stored parentURL predicate :
  handlerKeeps (wrote (fun fh => zip.Method fh = zip.Store))
    (@getArchiveCopyHandlerWithFilter W URLSplit parentURL predicate).
Proof.
  intros o r dst u w.
  destruct (getArchiveCopyHandlerWithFilter_wrote parentURL predicate
              o r dst u w) as (added & E & H).
  exists added. split; [exact E | now apply methodFor_Store].
Qed.

(** C9, as amended.  Every entry [Archive] adds to the zip writer has
    compression method Deflate, unless its name ends in a separator: the
    zip writer takes such an entry for a directory and stores it.  Every
    entry [ArchiveWithFilter] adds has method Store.  The entries already
    there keep their headers. *)
Theorem archive_compression_methods fuel (service : Service W) URL w writer
    predicate :
  (exists added,
     map zip.header
       (zip.entries
          (archive (final (Archive URLPathJoin URLSplit fuel service URL w
                             writer)))) =
     (map zip.header (zip.entries writer) ++ added)%list /\
     Forall (fun fh =>
               zip.Method fh =
               if strings.HasSuffix (zip.Name fh) "/" then zip.Store
               else zip.Deflate) added) /\
  (exists added,
     map zip.header
       (zip.entries
          (archive (final (ArchiveWithFilter URLPathJoin URLSplit fuel
                             service URL w writer predicate)))) =
     (map zip.header (zip.entries writer) ++ added)%list /\
     Forall (fun fh => zip.Method fh = zip.Store) added).
Proof.
  split.
  - unfold Archive.
    destruct (Copy_events URLPathJoin fuel (onBackend service)
                (onScratch memory.service) URL destURL None
                (Some (getArchiveCopyHandler URLSplit destURL))
                {| backend := w; scratch := memory.NewMemoryService;
                   archive := writer |}) as (h & _ & -> & _ & ->).
    apply (keeps_copyStorageContent URLPathJoin
             (wrote (methodFor zip.Deflate))
             (wrote_refl _) (wrote_trans _) _ _ _
             (onBackend_keeps _ service) (onScratch_keeps _ memory.service)
             (getArchiveCopyHandler_wrote destURL)).
  - unfold ArchiveWithFilter.
    destruct (Copy_events URLPathJoin fuel (onBackend service)
                (onScratch memory.service) URL destURL None
                (Some (getArchiveCopyHandlerWithFilter URLSplit destURL
                         predicate))
                {| backend := w; scratch := memory.NewMemoryService;
                   archive := writer |}) as (h & _ & -> & _ & ->).
    apply (keeps_copyStorageContent URLPathJoin
             (wrote (fun fh => zip.Method fh = zip.Store))
             (wrote_refl _) (wrote_trans _) _ _ _
             (onBackend_keeps _ service) (onScratch_keeps _ memory.service)
             (getArchiveCopyHandlerWithFilter_stored destURL predicate)).
Qed.
End ArchiveFacts.

(** ** The loop over one listing *)

Section Naming.
Context {World : Type}.
Variable URLPathJoin : string -> string -> string.

(** C7.  A folder object whose path is the path of the source root, or,
    under a non-empty [subPath], the join of the root's path with
    [subPath], is skipped: the loop goes on as if the listing did not
    contain it, so it is neither recursed into nor passed to the
    handler. *)
Theorem guarded_folder_is_skipped recurse (src dst : Service World)
    sourceURL destinationURL modify subPath handler object rest rel w :
  IsFolder object = true ->
  urlPath (URL object) = urlPath sourceURL \/
  (subPath <> "" /\
   urlPath (URL object) = URLPathJoin (urlPath sourceURL) subPath) ->
  copyObjects URLPathJoin recurse src sourceURL dst destinationURL modify
    subPath handler (object :: rest) rel w =
  copyObjects URLPathJoin recurse src sourceURL dst destinationURL modify
    subPath handler rest rel w.
Proof.
  intros Hf Hg. cbn [copyObjects].
  replace (skipObject URLPathJoin (urlPath sourceURL) subPath object
             (urlPath (URL object))) with true; [reflexivity|].
  unfold skipObject. rewrite Hf. cbn [andb]. symmetry.
  destruct Hg as [->|[Hs ->]].
  - now rewrite String.eqb_refl.
  - apply String.eqb_neq in Hs. rewrite Hs, String.eqb_refl. cbn.
    apply orb_true_r.
Qed.

Lemma handler_event_of_copyContent (src dst : Service World) destinationURL
    modify handler object d0 w o r u res :
  In (EvHandler o r u res)
     (events (copyContent URLPathJoin src dst destinationURL modify ""
                handler object d0 w)) ->
  exists w1,
    w1 = snd (Download src object w) /\
    outcome (topLevelDestination URLPathJoin dst destinationURL object d0 w1)
    = Done u.
Proof.
  unfold copyContent, modifyContent, topLevelDestination, invoke, bind, call,
    ret, raise, events, outcome.
  cbv zeta. cbn [String.eqb].
  destruct (Download src object w) as [[rd|e] w1]; cbn [fst snd].
  2:{ intros [H|[]]; discriminate. }
  intros H. exists w1. split; [reflexivity|]. revert H.
  run_step; cbn [fst snd In app]; intros H;
    repeat match goal with
           | H : _ \/ _ |- _ => destruct H
           | H : False |- _ => destruct H
           | H : _ = EvHandler _ _ _ _ |- _ => inversion H; clear H; subst
           | H : (_, _) = (_, _) |- _ => inversion H; clear H; subst
           end; try reflexivity; try discriminate.
Qed.

(** C3, as amended.  For a content object of the first listing
    ([subPath] empty) the handler receives: the object's destination URL
    with the source base name appended when that URL ends with a slash or
    resolves to a folder; else, when the base names of source and
    destination differ and the destination's has no dot, the destination
    URL of the call with the source base name appended (the dot-free
    destination is taken for a directory); else the object's destination
    URL unchanged. *)
Theorem top_level_destination (src dst : Service World) destinationURL
    modify handler object d0 w o r u res :
  In (EvHandler o r u res)
     (events (copyContent URLPathJoin src dst destinationURL modify ""
                handler object d0 w)) ->
  let sourceName := snd (path.Split (URL object)) in
  let destinationName := snd (path.Split destinationURL) in
  let probe := fst (StorageObject dst d0 (snd (Download src object w))) in
  (strings.HasSuffix d0 "/" = true -> u = URLPathJoin d0 sourceName) /\
  (strings.HasSuffix d0 "/" = false ->
   (isFolderObject probe = true -> u = URLPathJoin d0 sourceName) /\
   (isFolderObject probe = false ->
    (destinationName <> sourceName ->
     strings.Contains destinationName "." = false ->
     u = URLPathJoin destinationURL sourceName) /\
    (destinationName = sourceName \/
     strings.Contains destinationName "." = true ->
     u = d0))).
Proof.
  intros Hin sourceName destinationName probe.
  destruct (handler_event_of_copyContent _ _ _ _ _ _ _ _ _ _ _ _ Hin)
    as (w1 & -> & Hu).
  unfold topLevelDestination, outcome, ret in Hu. cbv zeta in Hu.
  fold sourceName destinationName in Hu.
  destruct (strings.HasSuffix d0 "/") eqn:Hs.
  { cbn [snd] in Hu. inversion Hu. split; [auto | discriminate]. }
  split; [discriminate | intros _].
  subst probe.
  destruct (StorageObject dst d0 (snd (Download src object w))) as [p w2].
  cbn [fst snd] in *. fold (isFolderObject p) in Hu.
  destruct (isFolderObject p).
  { inversion Hu. split; [auto | discriminate]. }
  split; [discriminate | intros _].
  destruct (String.eqb_spec destinationName sourceName) as [He|Hne];
    cbn [negb] in Hu.
  - inversion Hu. split; [congruence | auto].
  - destruct (strings.Contains destinationName "."); cbn [negb] in Hu;
      inversion Hu; split; auto; try discriminate.
    intros [?|?]; congruence.
Qed.
End Naming.

(** ** A backend built from a folder tree *)

Lemma Tree_induction (P : Tree -> Prop) :
  (forall n content, P (File n content)) ->
  (forall n children, Forall P children -> P (Folder n children)) ->
  forall t, P t.
Proof.
  intros HF HD. fix IH 1. intros [n content|n children].
  - apply HF.
  - apply HD. induction children; constructor; auto.
Qed.

Lemma all_Forall {A} (P : A -> Prop) (l : list A) :
  fold_right (fun c Q => P c /\ Q) True l <-> Forall P l.
Proof.
  induction l as [|a l IH]; simpl.
  - split; auto.
  - rewrite IH. split; [intros []; constructor; auto | now inversion 1].
Qed.

Lemma assoc_app_none {A} k (l1 l2 : list (string * A)) :
  assoc k l1 = None -> assoc k (l1 ++ l2) = assoc k l2.
Proof.
  induction l1 as [|[k' v] l1 IH]; simpl; auto.
  destruct (k' =? k)%string; [discriminate | auto].
Qed.

Lemma assoc_app_some {A} k (l1 l2 : list (string * A)) v :
  assoc k l1 = Some v -> assoc k (l1 ++ l2) = Some v.
Proof.
  induction l1 as [|[k' v'] l1 IH]; simpl; [discriminate|].
  destruct (k' =? k)%string; auto.
Qed.

Lemma assoc_not_in {A} k (l : list (string * A)) :
  (forall v, ~ In (k, v) l) -> assoc k l = None.
Proof.
  induction l as [|[k' v'] l IH]; simpl; auto. intros H.
  destruct (String.eqb_spec k' k) as [->|_].
  - exfalso. apply (H v'). now left.
  - apply IH. intros v Hin. apply (H v). now right.
Qed.

Lemma under_refl u : under u u.
Proof. exists "". now rewrite append_nil_r; auto. Qed.

Lemma under_child u n k : under (u ++ "/" ++ n) k -> under u k.
Proof.
  intros (r & -> & _). exists ("/" ++ n ++ r). split.
  - now rewrite !append_assoc.
  - right. apply (prefix_append "/").
Qed.

Lemma under_siblings u n m k :
  slashFree n = true -> slashFree m = true ->
  under (u ++ "/" ++ n) k -> under (u ++ "/" ++ m) k -> n = m.
Proof.
  intros Hn Hm (r & -> & Hr) (s & E & Hs).
  rewrite !append_assoc in E. apply append_inv_head in E.
  cbn [append] in E. inversion E as [E'].
  exact (segments_differ n m r s Hn Hm Hr Hs E').
Qed.

Lemma under_longer u n : ~ under (u ++ "/" ++ n) u.
Proof.
  intros (r & E & _). symmetry in E. rewrite !append_assoc in E.
  apply append_self in E. discriminate.
Qed.

Lemma listings_under url t k v :
  In (k, v) (listings url t) -> under (url ++ "/" ++ nameOf t) k.
Proof.
  revert url. induction t as [n content|n children IH] using Tree_induction;
    intros url; cbn [listings nameOf]; [intros []|].
  intros [E|Hin].
  - inversion E. apply under_refl.
  - apply in_flat_map in Hin as (c & Hc & Hin).
    rewrite Forall_forall in IH. eapply under_child, IH; eauto.
Qed.

Lemma streams_under url t k v :
  In (k, v) (streams url t) -> under (url ++ "/" ++ nameOf t) k.
Proof.
  revert url. induction t as [n content|n children IH] using Tree_induction;
    intros url; cbn [streams nameOf].
  - intros [E|[]]. inversion E. apply under_refl.
  - intros Hin. apply in_flat_map in Hin as (c & Hc & Hin).
    rewrite Forall_forall in IH. eapply under_child, IH; eauto.
Qed.

(** Entries put before or after the tables of [t] do not change the answers
    for [t], as long as the ones before are not about [t]. *)
Lemma served_among L S L0 L1 S0 S1 url t :
  (forall k v, In (k, v) L0 -> ~ under (url ++ "/" ++ nameOf t) k) ->
  (forall k v, In (k, v) S0 -> ~ under (url ++ "/" ++ nameOf t) k) ->
  served L S url t ->
  served (L0 ++ L ++ L1) (S0 ++ S ++ S1) url t.
Proof.
  revert url. induction t as [n content|n children IH] using Tree_induction;
    intros url HL HS; cbn [served nameOf] in *.
  - intros H. rewrite assoc_app_none.
    + now apply assoc_app_some.
    + apply assoc_not_in. intros v Hin. apply (HS _ _ Hin), under_refl.
  - intros [H Hc]. split.
    + rewrite assoc_app_none.
      * now apply assoc_app_some.
      * apply assoc_not_in. intros v Hin. apply (HL _ _ Hin), under_refl.
    + apply all_Forall. apply all_Forall in Hc.
      rewrite Forall_forall in *. intros c Hin.
      apply (IH c Hin).
      * intros k v Hk Hu. apply (HL _ _ Hk). eapply under_child; eauto.
      * intros k v Hk Hu. apply (HS _ _ Hk). eapply under_child; eauto.
      * now apply Hc.
Qed.

Lemma wellNamed_segment t : wellNamed t -> slashFree (nameOf t) = true.
Proof. destruct t; intros [H _]; now apply segment_spec in H. Qed.

(** The children of a folder, each with tables of its own, put one after
    the other. *)
Lemma served_children url children L0 L1 S0 S1 :
  NoDup (map nameOf children) ->
  Forall wellNamed children ->
  Forall (fun t => forall url, served (listings url t) (streams url t) url t)
         children ->
  (forall t k v, In t children -> In (k, v) L0 ->
                 ~ under (url ++ "/" ++ nameOf t) k) ->
  (forall t k v, In t children -> In (k, v) S0 ->
                 ~ under (url ++ "/" ++ nameOf t) k) ->
  Forall (served (L0 ++ flat_map (listings url) children ++ L1)
                 (S0 ++ flat_map (streams url) children ++ S1) url)
         children.
Proof.
  revert L0 S0.
  induction children as [|t rest IH]; intros L0 S0 Hnd Hwn Hself HL HS;
    constructor.
  - cbn [flat_map]. rewrite <- !app_assoc.
    apply served_among.
    + intros k v. apply HL. now left.
    + intros k v. apply HS. now left.
    + inversion Hself; auto.
  - cbn [flat_map]. rewrite <- !app_assoc.
    rewrite (app_assoc L0), (app_assoc S0).
    cbn [map] in Hnd. inversion Hnd as [|? ? Hnotin Hnd']; subst.
    inversion Hwn as [|? ? Ht Hrest]; subst.
    inversion Hself; subst.
    apply IH; auto.
    + intros t' k v Hin' Hk Hu. apply in_app_or in Hk as [Hk|Hk].
      * eapply HL; eauto. now right.
      * apply listings_under in Hk.
        apply Hnotin. rewrite (under_siblings url (nameOf t) (nameOf t') k);
          auto using wellNamed_segment.
        -- now apply in_map.
        -- rewrite Forall_forall in Hrest. auto using wellNamed_segment.
    + intros t' k v Hin' Hk Hu. apply in_app_or in Hk as [Hk|Hk].
      * eapply HS; eauto. now right.
      * apply streams_under in Hk.
        apply Hnotin. rewrite (under_siblings url (nameOf t) (nameOf t') k);
          auto using wellNamed_segment.
        -- now apply in_map.
        -- rewrite Forall_forall in Hrest. auto using wellNamed_segment.
Qed.

Lemma wellNamed_children n children :
  wellNamed (Folder n children) ->
  NoDup (map nameOf children) /\ Forall wellNamed children.
Proof. intros (_ & Hnd & Hall). split; auto. now apply all_Forall. Qed.

Lemma served_self t :
  wellNamed t -> forall url, served (listings url t) (streams url t) url t.
Proof.
  induction t as [n content|n children IH] using Tree_induction;
    intros Hwn url; cbn [served listings streams].
  - cbn [assoc]. now rewrite String.eqb_refl.
  - split.
    + cbn [assoc]. now rewrite String.eqb_refl.
    + apply all_Forall.
      apply wellNamed_children in Hwn as [Hnd Hall].
      pose proof (served_children (url ++ "/" ++ n) children
                    [(url ++ "/" ++ n,
                      map (objectOf (url ++ "/" ++ n)) children)]
                    [] [] [] Hnd Hall) as H.
      rewrite !app_nil_r in H. cbn [app] in H. apply H.
      * rewrite Forall_forall in *. intros t Hin. apply IH; auto.
      * intros t k v _ [E|[]]. inversion E. apply under_longer.
      * intros t k v _ [].
Qed.

Lemma under_longer_slash u n : n <> "" -> ~ under (u ++ "/" ++ n) (u ++ "/").
Proof.
  intros Hn (r & E & _). rewrite !append_assoc in E.
  apply append_inv_head in E. cbn [append] in E. inversion E as [E'].
  destruct n; [congruence | discriminate].
Qed.

(** The backend built from a well-named forest answers for it. *)
Lemma treeService_serves sourceURL children :
  wellNamedAll children ->
  let folderURL := trimTrailingSlash sourceURL in
  Forall (served ((sourceURL, map (objectOf folderURL) children)
                  :: flat_map (listings folderURL) children)
                 (flat_map (streams folderURL) children) folderURL)
         children.
Proof.
  intros [Hnd Hall]. apply all_Forall in Hall. cbv zeta.
  generalize (trimTrailingSlash_cases sourceURL).
  generalize (trimTrailingSlash sourceURL) as folderURL. intros folderURL Hc.
  pose proof (served_children folderURL children
                [(sourceURL, map (objectOf folderURL) children)]
                [] [] [] Hnd Hall) as H.
  rewrite !app_nil_r in H. cbn [app] in H. apply H.
  - rewrite Forall_forall in *. intros t Hin. apply served_self; auto.
  - intros t k v Hin [E|[]]. inversion E. subst k.
    destruct Hc as [->| ->]; [apply under_longer|].
    apply under_longer_slash. rewrite Forall_forall in Hall.
    pose proof (Hall t Hin) as Ht.
    assert (Hn : segment (nameOf t) = true) by (destruct t; apply Ht).
    now apply segment_spec in Hn.
  - intros t k v _ [].
Qed.

(** ** Copying a folder tree into a memory backend *)

Lemma relative_segment n : segment n = true -> relative n.
Proof.
  intros [Hne Hsf]%segment_spec. repeat split; auto.
  - now apply slashFree_no_prefix.
  - now apply slashFree_no_suffix.
Qed.

Lemma relative_child sub n :
  relative sub -> segment n = true -> relative (sub ++ "/" ++ n).
Proof.
  intros (Hne & Hp & Hs) [Hn Hsf]%segment_spec. repeat split.
  - destruct sub; [congruence | discriminate].
  - now rewrite HasPrefix_append.
  - rewrite !HasSuffix_append; auto; [|now destruct n].
    now apply slashFree_no_suffix.
Qed.

Lemma child_relative sub n :
  sub = "" \/ relative sub -> segment n = true -> relative (prefixOf sub ++ n).
Proof.
  unfold prefixOf. intros [->|Hsub] Hn.
  - now apply relative_segment.
  - destruct (String.eqb_spec sub "") as [->|_]; [now destruct Hsub|].
    rewrite append_assoc. now apply relative_child.
Qed.

Lemma child_urlOf sourceURL sub n :
  urlOf sourceURL sub ++ "/" ++ n = sourceURL ++ "/" ++ prefixOf sub ++ n.
Proof.
  unfold urlOf, prefixOf. destruct (sub =? "")%string; [reflexivity|].
  now rewrite !append_assoc.
Qed.

Lemma child_no_suffix x n :
  segment n = true -> strings.HasSuffix (x ++ "/" ++ n) "/" = false.
Proof.
  intros [Hne Hsf]%segment_spec. rewrite HasSuffix_append.
  - rewrite (HasSuffix_append "/" n Hne). now apply slashFree_no_suffix.
  - discriminate.
Qed.

Lemma relative_nonempty rel : relative rel -> (rel =? "")%string = false.
Proof. intros [H _]. now apply String.eqb_neq. Qed.

Lemma depth_child c children : In c children -> (depth c <= depthAll children)%nat.
Proof.
  induction children as [|a l IH]; [intros []|].
  cbn [depthAll fold_right]. fold (depthAll l).
  intros [->|Hin]; [lia | specialize (IH Hin); lia].
Qed.

Lemma files_under P t q content :
  In (q, content) (files P t) ->
  exists r, q = P ++ nameOf t ++ r /\ (r = "" \/ strings.HasPrefix r "/" = true).
Proof.
  revert P. induction t as [n c|n children IH] using Tree_induction;
    intros P; cbn [files nameOf].
  - intros [E|[]]. inversion E. exists "". rewrite append_nil_r. auto.
  - intros Hin. apply in_flat_map in Hin as (c & Hc & Hin).
    rewrite Forall_forall in IH. destruct (IH c Hc _ Hin) as (r & -> & _).
    exists ("/" ++ nameOf c ++ r). split.
    + now rewrite !append_assoc.
    + right. apply (prefix_append "/").
Qed.

Lemma uploaded_app dst fs1 fs2 :
  uploaded dst (fs1 ++ fs2) = (uploaded dst fs2 ++ uploaded dst fs1)%list.
Proof. unfold uploaded. now rewrite map_app, rev_app_distr. Qed.

Lemma uploaded_In dst fs k v :
  In (k, v) (uploaded dst fs) ->
  exists q, k = dst ++ "/" ++ q /\ In (q, v) fs.
Proof.
  unfold uploaded. rewrite <- in_rev. intros Hin.
  apply in_map_iff in Hin as ([q c] & E & Hin). inversion E; subst.
  now exists q.
Qed.

Lemma isFolder_app url (a b : memory.Store) :
  memory.isFolder url (a ++ b)%list = memory.isFolder url a || memory.isFolder url b.
Proof. unfold memory.isFolder. apply existsb_app. Qed.

Section TreeCopy.
Variable join : string -> string -> string.
Hypothesis join_spec : joinsWithSeparator join.
Variables scheme host rootPath sourceURL destinationURL : string.
Hypothesis scheme_ok : strings.Contains scheme "://" = false.
Hypothesis host_ok : slashFree host = true.
Hypothesis root_abs : strings.HasPrefix rootPath "/" = true.
Hypothesis root_trim : strings.HasSuffix rootPath "/" = false.
Hypothesis source_ok :
  trimTrailingSlash sourceURL = scheme ++ "://" ++ host ++ rootPath.
Variable L : list (string * list Object).
Variable S : list (string * Reader).

(** The source folder and the destination, without trailing separator. *)
Local Abbreviation folderURL := (scheme ++ "://" ++ host ++ rootPath).
Local Abbreviation target := (trimTrailingSlash destinationURL).
Local Abbreviation src := (@tableService memory.Store L S).
Local Abbreviation dst := memory.service.
Local Abbreviation handler := (@copySourceToDestination memory.Store).

Lemma root_nonempty : rootPath <> "".
Proof. intros E. rewrite E in root_abs. discriminate. Qed.

Lemma urlPath_source : urlPath sourceURL = rootPath.
Proof.
  destruct (trimTrailingSlash_cases sourceURL) as [E|E];
    rewrite E, source_ok.
  - rewrite (urlPath_after_host scheme host rootPath scheme_ok host_ok
               root_abs).
    now apply trimTrailingSlash_id.
  - rewrite !append_assoc.
    rewrite (urlPath_after_host scheme host (rootPath ++ "/") scheme_ok
               host_ok).
    + apply trimTrailingSlash_slash.
    + rewrite HasPrefix_append; auto using root_nonempty.
Qed.

Lemma urlPath_below rel :
  relative rel -> urlPath (folderURL ++ "/" ++ rel) = rootPath ++ "/" ++ rel.
Proof.
  intros (Hne & _ & Hs). rewrite !append_assoc.
  rewrite (urlPath_after_host scheme host _ scheme_ok host_ok).
  - apply trimTrailingSlash_id. rewrite !HasSuffix_append; auto.
    discriminate.
  - rewrite HasPrefix_append; auto using root_nonempty.
Qed.

Lemma not_skipped sub t :
  sub = "" \/ relative sub -> segment (nameOf t) = true ->
  skipObject join rootPath sub (objectOf (urlOf folderURL sub) t)
    (rootPath ++ "/" ++ prefixOf sub ++ nameOf t) = false.
Proof.
  intros Hsub Hn. unfold skipObject.
  destruct (IsFolder _); [cbn [andb]|reflexivity].
  apply orb_false_iff. split.
  - apply String.eqb_neq. intros E. symmetry in E. apply append_self in E.
    discriminate.
  - destruct Hsub as [->|Hsub]; [reflexivity|].
    rewrite (relative_nonempty _ Hsub). cbn [negb andb].
    rewrite join_spec, (trimTrailingSlash_id _ root_trim); [|apply Hsub..].
    apply String.eqb_neq. intros E. apply append_inv_head in E.
    cbn [append] in E. inversion E as [E']. unfold prefixOf in E'.
    rewrite (relative_nonempty _ Hsub), append_assoc in E'.
    apply append_self in E'. discriminate.
Qed.

Lemma next_relative rel prev :
  nextRelativePath rootPath (rootPath ++ "/" ++ rel) prev = rel.
Proof.
  unfold nextRelativePath.
  replace (len (rootPath ++ "/" ++ rel) >? len rootPath) with true.
  - rewrite slice_from_append.
    unfold strings.HasPrefix. rewrite (prefix_append "/").
    apply (slice_from_append "/").
  - symmetry. apply Z.gtb_lt. rewrite !len_append.
    pose proof (len_nonneg rel). change (len "/") with 1. lia.
Qed.

Lemma destination_of rel :
  relative rel ->
  destinationFor join destinationURL rel = target ++ "/" ++ rel.
Proof.
  intros Hrel. unfold destinationFor. rewrite (relative_nonempty _ Hrel).
  cbn [negb]. apply join_spec; apply Hrel.
Qed.

Lemma probe_not_folder d w :
  memory.isFolder d w = false -> isFolderObject (memory.resolve d w) = false.
Proof.
  intros H. unfold memory.resolve. destruct (memory.lookup d w); [reflexivity|].
  now rewrite H.
Qed.

(** A content object: downloaded from the table, named, uploaded. *)
Lemma copy_file sub n content w :
  sub = "" \/ relative sub -> segment n = true ->
  assoc (urlOf folderURL sub ++ "/" ++ n) S = Some (NopCloser content) ->
  (sub = "" -> memory.isFolder (target ++ "/" ++ n) w = false) ->
  runs (copyContent join src dst destinationURL None sub handler
          (objectOf (urlOf folderURL sub) (File n content))
          (target ++ "/" ++ prefixOf sub ++ n))
       w ((target ++ "/" ++ prefixOf sub ++ n, content) :: w).
Proof.
  intros Hsub Hn Hs Hfresh.
  destruct (segment_spec _ Hn) as [Hne Hsf].
  assert (Hname : forall x, topLevelDestination join dst destinationURL
                    (objectOf (urlOf folderURL "") (File n content))
                    (target ++ "/" ++ n) x
                  = (x, [EvStorageObject (target ++ "/" ++ n)
                           (memory.resolve (target ++ "/" ++ n) x)],
                     if isFolderObject
                          (memory.resolve (target ++ "/" ++ n) x)
                     then Done (join (target ++ "/" ++ n) n)
                     else Done (target ++ "/" ++ n))).
  { intros x. unfold topLevelDestination.
    rewrite (child_no_suffix _ _ Hn).
    cbn [StorageObject memory.service objectOf URL memory.contentObject urlOf
         String.eqb].
    rewrite (Split_before_segment _ _ Hsf). cbn [snd].
    fold (isFolderObject (memory.resolve (target ++ "/" ++ n) x)).
    destruct (isFolderObject _); [reflexivity|].
    rewrite (join_spec destinationURL n Hne (slashFree_no_prefix _ Hsf)).
    repeat match goal with
           | |- context [if ?b then _ else _] => destruct b
           end; reflexivity. }
  unfold runs, copyContent, modifyContent, invoke, bind, call, ret, outcome,
    final, copySourceToDestination.
  cbn [Download tableService objectOf URL memory.contentObject].
  rewrite Hs. cbn [fst snd app].
  destruct Hsub as [->|Hsub].
  - cbn [String.eqb prefixOf append] in *. rewrite Hname.
    rewrite (probe_not_folder _ _ (Hfresh eq_refl)).
    cbn [Upload memory.service NopCloser failure data fst snd]. auto.
  - rewrite (relative_nonempty _ Hsub).
    cbn [Upload memory.service NopCloser failure data fst snd]. auto.
Qed.

Lemma runs_bind (m : M memory.Store unit) (f : unit -> M memory.Store unit)
    w w1 w2 :
  runs m w w1 -> runs (f tt) w1 w2 -> runs (bind m f) w w2.
Proof.
  intros [Ho Hf] [Ho' Hf']. unfold runs.
  rewrite (bind_done _ _ _ _ Ho). cbn [outcome final fst snd].
  rewrite Hf. auto.
Qed.

(** What the copy of [t] leaves at the destination is not below the
    destination of a sibling. *)
Lemma sibling_untouched t n :
  wellNamed t -> segment n = true -> nameOf t <> n ->
  memory.isFolder (target ++ "/" ++ n)
    (uploaded target (files "" t)) = false.
Proof.
  intros Ht Hn Hdiff. destruct (segment_spec _ Hn) as [Hne Hsf].
  unfold memory.isFolder. apply not_true_is_false. intros Hex.
  apply existsb_exists in Hex as ([k v] & Hin & Hb). cbn [fst] in Hb.
  apply uploaded_In in Hin as (q & -> & Hin).
  apply files_under in Hin as (r & -> & Hr). cbn [append] in Hb.
  unfold memory.below, strings.HasPrefix in Hb.
  rewrite (trimTrailingSlash_id _ (child_no_suffix _ _ Hn)) in Hb.
  rewrite !append_assoc, prefix_append_cancel in Hb.
  change ("/" ++ n ++ "/") with (String "/" (n ++ "/")) in Hb.
  change ("/" ++ nameOf t ++ r) with (String "/" (nameOf t ++ r)) in Hb.
  rewrite prefix_cons in Hb. apply andb_prop in Hb as [_ Hb].
  apply prefix_split in Hb as [r' E]. rewrite append_assoc in E.
  apply Hdiff.
  apply (segments_differ (nameOf t) n r ("/" ++ r')); auto.
  - now apply wellNamed_segment.
  - right. apply (prefix_append "/").
Qed.

(** The loop over the children of the folder at [subPath]. *)
Lemma copy_children recurse sub children :
  sub = "" \/ relative sub ->
  NoDup (map nameOf children) ->
  Forall wellNamed children ->
  Forall (served L S (urlOf folderURL sub)) children ->
  Forall (fun t =>
            match t with
            | File _ _ => True
            | Folder n _ =>
                forall w,
                  runs (recurse (prefixOf sub ++ n)) w
                    (uploaded target (files (prefixOf sub) t) ++ w)%list
            end) children ->
  forall prev w,
    (sub = "" ->
     forall t, In t children ->
       memory.isFolder (target ++ "/" ++ nameOf t) w = false) ->
    runs (copyObjects join recurse src sourceURL dst destinationURL None sub
            handler (map (objectOf (urlOf folderURL sub)) children) prev)
         w
         (uploaded target (flat_map (files (prefixOf sub)) children)
          ++ w)%list.
Proof.
  intros Hsub.
  induction children as [|t rest IH]; intros Hnd Hwn Hserved Hrec prev w Hfresh.
  - split; reflexivity.
  - inversion Hnd as [|? ? Hnotin Hnd']; subst.
    inversion Hwn as [|? ? Ht Hrest]; subst.
    inversion Hserved as [|? ? Hst Hsrest]; subst.
    inversion Hrec as [|? ? Hrt Hrrest]; subst.
    assert (Hn : segment (nameOf t) = true) by (destruct t; apply Ht).
    pose proof (child_relative sub _ Hsub Hn) as Hrel.
    cbn [map copyObjects flat_map]. rewrite uploaded_app, <- app_assoc.
    rewrite urlPath_source.
    replace (URL (objectOf (urlOf folderURL sub) t))
      with (folderURL ++ "/" ++ prefixOf sub ++ nameOf t)
      by (rewrite <- child_urlOf; now destruct t).
    rewrite (urlPath_below _ Hrel), not_skipped, next_relative by auto.
    rewrite (destination_of _ Hrel).
    assert (Hfresh' : forall w1,
              (sub = "" -> w1 = (uploaded target (files "" t) ++ w)%list) ->
              sub = "" ->
              forall t', In t' rest ->
                memory.isFolder (target ++ "/" ++ nameOf t') w1 = false).
    { intros w1 Hw1 Hs t' Hin'. rewrite (Hw1 Hs), isFolder_app.
      apply orb_false_iff. split.
      - rewrite Forall_forall in Hrest.
        apply sibling_untouched; auto.
        + pose proof (Hrest _ Hin') as Ht'. now destruct t'; apply Ht'.
        + intros E. apply Hnotin. rewrite E. now apply in_map.
      - apply (Hfresh Hs). now right. }
    destruct t as [n content|n children].
    + cbn [IsContent objectOf memory.contentObject files nameOf] in *.
      eapply runs_bind.
      * apply copy_file; auto.
        intros Hs. apply (Hfresh Hs (File n content)). now left.
      * apply (IH Hnd' Hrest Hsrest Hrrest).
        apply Hfresh'. intros ->. reflexivity.
    + cbn [IsContent objectOf memory.folderObject nameOf] in *.
      eapply runs_bind.
      * apply Hrt.
      * apply (IH Hnd' Hrest Hsrest Hrrest).
        apply Hfresh'. intros ->. reflexivity.
Qed.

(** A folder of the tree, copied by the recursive call of line 113. *)
Lemma copy_subfolder t :
  wellNamed t ->
  forall fuel sub,
    sub = "" \/ relative sub ->
    served L S (urlOf folderURL sub) t ->
    (depth t <= fuel)%nat ->
    match t with
    | File _ _ => True
    | Folder n _ =>
        forall w,
          runs (copyStorageContent join fuel src sourceURL dst destinationURL
                  None (prefixOf sub ++ n) handler)
               w (uploaded target (files (prefixOf sub) t) ++ w)%list
    end.
Proof.
  induction t as [n content|n children IH] using Tree_induction;
    intros Hwn fuel sub Hsub Hserved Hdepth; [exact I|].
  intros w. destruct fuel as [|fuel]; [cbn [depth] in Hdepth; lia|].
  assert (Hn : segment n = true) by apply Hwn.
  pose proof (child_relative sub _ Hsub Hn) as Hrel.
  apply wellNamed_children in Hwn as [Hnd Hall].
  destruct Hserved as [Hlist Hsc]. apply all_Forall in Hsc.
  cbn [copyStorageContent]. rewrite (relative_nonempty _ Hrel). cbn [negb].
  rewrite (join_spec _ _ (proj1 Hrel) (proj1 (proj2 Hrel))), source_ok.
  rewrite child_urlOf in Hlist, Hsc.
  assert (Hlisted : forall x,
            call (List src (folderURL ++ "/" ++ prefixOf sub ++ n))
              (EvList (folderURL ++ "/" ++ prefixOf sub ++ n)) (fun e => e) x
            = (x, [EvList (folderURL ++ "/" ++ prefixOf sub ++ n)
                     (Ok (map (objectOf (folderURL ++ "/" ++ prefixOf sub ++ n))
                            children))],
               Done (map (objectOf (folderURL ++ "/" ++ prefixOf sub ++ n))
                       children))).
  { intros x. unfold call. cbn [List tableService]. now rewrite Hlist. }
  unfold runs, bind. rewrite Hlisted.
  assert (Hurl : folderURL ++ "/" ++ prefixOf sub ++ n
                 = urlOf folderURL (prefixOf sub ++ n)).
  { unfold urlOf. now rewrite (relative_nonempty _ Hrel). }
  assert (Hpre : prefixOf sub ++ n ++ "/" = prefixOf (prefixOf sub ++ n)).
  { change (prefixOf (prefixOf sub ++ n))
      with (if (prefixOf sub ++ n =? "")%string then ""
            else (prefixOf sub ++ n) ++ "/").
    now rewrite (relative_nonempty _ Hrel), append_assoc. }
  cbn [files]. rewrite Hpre, Hurl in *.
  destruct (copy_children
              (fun subPath =>
                 copyStorageContent join fuel src sourceURL dst destinationURL
                   None subPath handler)
              (prefixOf sub ++ n) children (or_intror Hrel) Hnd Hall Hsc)
    with (prev := "") (w := w) as [Ho Hf].
  - rewrite Forall_forall in *. intros c Hc.
    specialize (IH c Hc (Hall c Hc) fuel (prefixOf sub ++ n) (or_intror Hrel)
                  (Hsc c Hc)).
    destruct c; [exact I|]. apply IH.
    pose proof (depth_child _ _ Hc). cbn [depth] in Hdepth.
    fold (depthAll children) in Hdepth. lia.
  - intros E. rewrite E in Hrel. now destruct Hrel.
  - unfold outcome, final in *.
    destruct (copyObjects _ _ _ _ _ _ _ _ _ _ _ _) as [[w2 evs2] r2].
    cbn [fst snd] in *. auto.
Qed.
End TreeCopy.

Lemma files_NoDup_children P children :
  NoDup (map nameOf children) ->
  Forall wellNamed children ->
  Forall (fun t => forall P, NoDup (map fst (files P t))) children ->
  NoDup (map fst (flat_map (files P) children)).
Proof.
  induction children as [|t rest IH]; intros Hnd Hwn Hself; [constructor|].
  inversion Hnd as [|? ? Hnotin Hnd']; subst.
  inversion Hwn as [|? ? Ht Hrest]; subst.
  inversion Hself as [|? ? Hst Hsrest]; subst.
  cbn [flat_map]. rewrite map_app. apply NoDup_app; auto.
  intros q Hq Hq'.
  apply in_map_iff in Hq as ([q1 c1] & E1 & Hq). cbn [fst] in E1. subst q1.
  apply in_map_iff in Hq' as ([q2 c2] & E2 & Hq'). cbn [fst] in E2. subst q2.
  apply in_flat_map in Hq' as (t' & Hin' & Hq').
  apply files_under in Hq as (r & E & Hr).
  apply files_under in Hq' as (r' & E' & Hr').
  rewrite E in E'. apply append_inv_head in E'.
  apply Hnotin. rewrite Forall_forall in Hrest.
  rewrite (segments_differ (nameOf t) (nameOf t') r r');
    auto using wellNamed_segment, in_map.
Qed.

Lemma files_NoDup t : wellNamed t -> forall P, NoDup (map fst (files P t)).
Proof.
  induction t as [n content|n children IH] using Tree_induction;
    intros Hwn P; cbn [files].
  - repeat constructor. intros [].
  - apply wellNamed_children in Hwn as [Hnd Hall].
    apply files_NoDup_children; auto.
    rewrite Forall_forall in *. auto.
Qed.

Lemma lookup_In k v (s : memory.Store) :
  NoDup (map fst s) -> In (k, v) s -> memory.lookup k s = Some v.
Proof.
  induction s as [|[k' v'] s IH]; cbn [map fst memory.lookup];
    intros Hnd Hin; [destruct Hin|destruct Hin as [E|Hin]].
  - inversion E; subst. now rewrite String.eqb_refl.
  - inversion Hnd as [|? ? Hnotin Hnd']; subst.
    destruct (String.eqb_spec k' k) as [->|_]; [|auto].
    exfalso. apply Hnotin. change k with (fst (k, v)). now apply in_map.
Qed.

Lemma NoDup_map_injective {A B} (f : A -> B) (l : list A) :
  (forall a b, f a = f b -> a = b) -> NoDup l -> NoDup (map f l).
Proof.
  intros Hinj. induction 1 as [|a l Hnotin Hnd IH]; cbn [map]; constructor;
    auto.
  intros Hin. apply in_map_iff in Hin as (b & E & Hb).
  apply Hinj in E. now subst.
Qed.

Lemma lookup_uploaded dst fs p content :
  NoDup (map fst fs) -> In (p, content) fs ->
  memory.lookup (dst ++ "/" ++ p) (uploaded dst fs) = Some content.
Proof.
  intros Hnd Hin. apply lookup_In.
  - unfold uploaded. rewrite map_rev, map_map. cbn [fst].
    apply NoDup_rev.
    rewrite <- (map_map fst (fun q => dst ++ "/" ++ q)).
    apply NoDup_map_injective; auto.
    intros a b E. apply append_inv_head in E. now inversion E.
  - unfold uploaded. rewrite <- in_rev.
    apply (in_map (fun f => (dst ++ "/" ++ fst f, snd f)) _ _ Hin).
Qed.


(** ** Where the relative path goes wrong *)

(** An object whose path is not longer than the root's gets no relative
    path of its own: the one of the previous object stays. *)
Lemma nextRelativePath_keeps_previous sourceURLPath objectURLPath previous :
  len objectURLPath <= len sourceURLPath ->
  nextRelativePath sourceURLPath objectURLPath previous = previous.
Proof.
  intros H. unfold nextRelativePath.
  destruct (Z.gtb_spec (len objectURLPath) (len sourceURLPath)); [lia|].
  reflexivity.
Qed.

Lemma Replace1_prefix (p s : string) : strings.Replace1 (p ++ s) p "" = s.
Proof.
  unfold strings.Replace1.
  rewrite (Index_prefix _ _ (prefix_append p s)).
  change (0 <? 0) with false. cbv iota.
  change (slice_to 0 (p ++ s)) with "". cbn [append].
  apply slice_from_append.
Qed.

(** ** Concrete runs *)

Example urlPath_host_path : urlPath "host/path" = "/path".
Proof. reflexivity. Qed.

Example urlPath_mem_src : urlPath "mem:///src" = "/src".
Proof. reflexivity. Qed.

Example urlPath_trailing : urlPath "s3://bucket/dir/" = "/dir".
Proof. reflexivity. Qed.

Example path_Split_url :
  path.Split "mem:///src/a.txt" = ("mem:///src/", "a.txt").
Proof. reflexivity. Qed.

Example Replace1_first : strings.Replace1 "a/b/a/b" "/b" "" = "a/a/b".
Proof. reflexivity. Qed.

(** The naming cases of the spec on the memory backend. *)
Example copy_into_directory_with_slash :
  final (Copy toolbox.URLPathJoin 2 memory.service "mem:///src/a.txt"
           memory.service "mem:///dst/" None None
           [("mem:///src/a.txt", text "hello")]) =
  [("mem:///dst/a.txt", text "hello"); ("mem:///src/a.txt", text "hello")].
Proof. reflexivity. Qed.

Example copy_into_existing_folder :
  final (Copy toolbox.URLPathJoin 2 memory.service "mem:///src/a.txt"
           memory.service "mem:///dst" None None
           [("mem:///src/a.txt", text "hello"); ("mem:///dst/x", text "x")]) =
  [("mem:///dst/a.txt", text "hello"); ("mem:///src/a.txt", text "hello");
   ("mem:///dst/x", text "x")].
Proof. reflexivity. Qed.

Example copy_with_rename :
  final (Copy toolbox.URLPathJoin 2 memory.service "mem:///src/a.txt"
           memory.service "mem:///dst/b.txt" None None
           [("mem:///src/a.txt", text "hello")]) =
  [("mem:///dst/b.txt", text "hello"); ("mem:///src/a.txt", text "hello")].
Proof. reflexivity. Qed.

Example copy_folder :
  let x := Copy toolbox.URLPathJoin 3 memory.service "mem:///src"
             memory.service "mem:///dst" None None sampleStore in
  outcome x = Done tt /\
  final x =
  ([("mem:///dst/a.txt", text "A"); ("mem:///dst/sub/b.txt", text "hello")]
   ++ sampleStore)%list.
Proof. split; reflexivity. Qed.

Lemma urlPath_strips_host_witness :
  (exists host rest,
     "host/path/" = host ++ rest /\ host <> "" /\
     strings.Contains host "/" = false /\
     strings.HasPrefix rest "/" = true /\
     urlPath "host/path/" = trimTrailingSlash rest /\
     (strings.HasSuffix "host/path/" "/" = false ->
      urlPath "host/path/" = rest)) /\
  urlPath ("s3" ++ "://" ++ "/dir/") = trimTrailingSlash "/dir/".
Proof.
  split.
  - apply (proj1 urlPath_strips_host); reflexivity.
  - apply (proj1 (proj2 urlPath_strips_host)); reflexivity.
Defined.

(** C2 as written fails: after a failed download the walk is over, and the
    content object listed after the failing one is never passed to the
    handler. *)
Lemma later_object_not_handled_after_failure :
  let x := Copy toolbox.URLPathJoin 2 brokenSource "mem:///src" memory.service
             "mem:///dst" None None [] in
  In (file "mem:///src/b.txt" "B") (filter IsContent (listed (events x))) /\
  handled (events x) = [] /\
  ~ Permutation (handled (events x)) (filter IsContent (listed (events x))).
Proof.
  cbv zeta. split; [|split].
  - vm_compute. right. left. reflexivity.
  - reflexivity.
  - intros H. apply Permutation_length in H. vm_compute in H. discriminate.
Qed.

Lemma handler_gets_each_content_object_once_witness :
  let x := Copy toolbox.URLPathJoin 3 memory.service "mem:///src"
             memory.service "mem:///dst" None None sampleStore in
  Permutation (handled (events x)) (filter IsContent (listed (events x))) /\
  Forall (fun o => IsContent o = true /\ IsFolder o = false)
         (handled (events x)).
Proof.
  cbv zeta.
  destruct (proj1 handler_gets_each_content_object_once _
              toolbox.URLPathJoin 3%nat memory.service memory.service
              "mem:///src" "mem:///dst" None None sampleStore)
    as (missed & Hp & Hd & Hf).
  assert (Hc : Forall classified
                 (listed (events (Copy toolbox.URLPathJoin 3 memory.service
                    "mem:///src" memory.service "mem:///dst" None None
                    sampleStore)))).
  { vm_compute. repeat constructor. }
  split; [|exact (Hf Hc)].
  rewrite (Hd eq_refl Hc), app_nil_r in Hp. exact Hp.
Defined.

(** C3 as written fails in its third case: the source base name is appended
    to the dot-free destination, the destination's last segment is not
    replaced. *)
Lemma dot_free_destination_gets_name_appended :
  let x := Copy toolbox.URLPathJoin 2 memory.service "mem:///src/a.txt"
             memory.service "mem:///dst/b" None None
             [("mem:///src/a.txt", text "hello")] in
  replaceLastSegment "mem:///dst/b" "a.txt" = "mem:///dst/a.txt" /\
  destinations (events x) = ["mem:///dst/b/a.txt"] /\
  destinations (events x) <> [replaceLastSegment "mem:///dst/b" "a.txt"] /\
  memory.lookup "mem:///dst/a.txt" (final x) = None /\
  memory.lookup "mem:///dst/b/a.txt" (final x) = Some (text "hello").
Proof. cbv zeta. repeat split; try reflexivity. vm_compute. discriminate. Qed.

Lemma top_level_destination_witness :
  "mem:///dst/b/a.txt" = toolbox.URLPathJoin "mem:///dst/b" "a.txt".
Proof.
  assert (Hin : In (EvHandler (file "mem:///src/a.txt" "hello")
                      (NopCloser (text "hello")) "mem:///dst/b/a.txt" None)
                   (events (copyContent toolbox.URLPathJoin memory.service
                              memory.service "mem:///dst/b" None ""
                              copySourceToDestination
                              (file "mem:///src/a.txt" "hello") "mem:///dst/b"
                              [("mem:///src/a.txt", text "hello")]))).
  { vm_compute. right. right. left. reflexivity. }
  apply (top_level_destination toolbox.URLPathJoin _ _ _ _ _ _ _ _ _ _ _ _ Hin);
    try reflexivity.
  vm_compute. discriminate.
Defined.

(** C4 fails on the code: [objectRelativePath] is not reset between the
    objects of a listing.  The second object below is the source root
    itself, yet its relative path is the first object's, and both objects
    are copied to the same destination URL. *)
Theorem relative_path_is_stale_for_root_object :
  nextRelativePath (urlPath "mem:///src") (urlPath "mem:///src") "a.txt"
  = "a.txt" /\
  let x := Copy toolbox.URLPathJoin 2 keyAndPrefix "mem:///src" memory.service
             "mem:///dst.d" None None [] in
  outcome x = Done tt /\
  map URL (handled (events x)) = ["mem:///src/a.txt"; "mem:///src"] /\
  destinations (events x) = ["mem:///dst.d/a.txt"; "mem:///dst.d/a.txt"] /\
  final x = [("mem:///dst.d/a.txt", text "ROOT");
             ("mem:///dst.d/a.txt", text "A")].
Proof. cbv zeta. repeat split; reflexivity. Qed.

(** C5 fails on the code for [Archive]: its entry names keep the separator
    that follows the sentinel URL, while [ArchiveWithFilter] strips it. *)
Theorem archive_entry_names_keep_separator
    (URLSplit : string -> string * string) :
  map (fun e => zip.Name (zip.header e))
    (zip.entries
       (archive (final (Archive toolbox.URLPathJoin URLSplit 3 memory.service
                          "mem:///src" sampleStore emptyZip)))) =
  ["/sub/b.txt"; "/a.txt"] /\
  map (fun e => zip.Name (zip.header e))
    (zip.entries
       (archive (final (ArchiveWithFilter toolbox.URLPathJoin URLSplit 3
                          memory.service "mem:///src" sampleStore emptyZip
                          (fun _ => true))))) =
  ["sub/b.txt"; "a.txt"].
Proof. split; vm_compute; reflexivity. Qed.

(** C9 as written fails for [Archive]: the handler asks for Deflate, but
    an entry whose name ends in a separator is a directory to the zip
    writer, which stores it.  Here the object listed has a URL that ends
    in two separators, of which [urlPath] removes one. *)
Lemma directory_entry_is_stored :
  let x := Archive toolbox.URLPathJoin path.Split 2 trailingSeparators
             "mem:///src" [] emptyZip in
  outcome x = Done tt /\
  map URL (handled (events x)) = ["mem:///src/a//"] /\
  destinations (events x) = ["mem:///dev/nul/a/"] /\
  map (fun e => (zip.Name (zip.header e), zip.Method (zip.header e)))
    (zip.entries (archive (final x))) = [("/a/", zip.Store)] /\
  zip.Store <> zip.Deflate.
Proof. cbv zeta. repeat split; try reflexivity. discriminate. Qed.


Lemma guarded_folder_is_skipped_witness :
  copyObjects toolbox.URLPathJoin (fun _ => ret tt) memory.service "mem:///src"
    memory.service "mem:///dst" None "" copySourceToDestination
    [folder "mem:///src/"; file "mem:///src/a.txt" "A"] "" sampleStore =
  copyObjects toolbox.URLPathJoin (fun _ => ret tt) memory.service "mem:///src"
    memory.service "mem:///dst" None "" copySourceToDestination
    [file "mem:///src/a.txt" "A"] "" sampleStore.
Proof.
  apply guarded_folder_is_skipped; [reflexivity | left; reflexivity].
Defined.

Lemma upload_is_modified_source_witness :
  let x' := Copy toolbox.URLPathJoin 2 (unrecorded memory.service)
              "mem:///src/a.txt" (recording memory.service)
              "mem:///dst/b.txt" (Some twice) None
              ([("mem:///src/a.txt", text "hello")], []) in
  outcome x' = Done tt /\
  fst (final x') = [("mem:///dst/b.txt", text "hellohello");
                    ("mem:///src/a.txt", text "hello")] /\
  snd (final x') = [("mem:///dst/b.txt", NopCloser (text "hellohello"))].
Proof.
  pose proof (upload_is_modified_source toolbox.URLPathJoin twice 2
                memory.service memory.service "mem:///src/a.txt"
                "mem:///dst/b.txt" [("mem:///src/a.txt", text "hello")]) as H.
  cbv zeta in *. destruct H as ((_ & Ho & Hf) & Hu & _).
  split; [exact (eq_trans Ho eq_refl)|].
  split; [exact (eq_trans Hf eq_refl) | exact (eq_trans Hu eq_refl)].
Defined.

Lemma URLPathJoin_joinsWithSeparator : joinsWithSeparator toolbox.URLPathJoin.
Proof.
  intros base seg Hne Hs. unfold toolbox.URLPathJoin.
  destruct (String.eqb_spec seg "") as [E|_]; [contradiction|].
  now rewrite Hs.
Qed.

Lemma sampleTree_wellNamed : wellNamedAll sampleTree.
Proof.
  split; cbn.
  - repeat constructor; cbn; intuition discriminate.
  - repeat split; repeat constructor; cbn; intuition discriminate.
Qed.



(** ** What an archive holds *)

Lemma written_app entry evs1 evs2 :
  written entry (evs1 ++ evs2) = (written entry evs1 ++ written entry evs2)%list.
Proof. unfold written. apply flat_map_app. Qed.

Lemma appendLast_last bs es fh :
  zip.appendLast bs (es ++ [{| zip.header := fh; zip.content := [] |}]) =
  (es ++ [{| zip.header := fh; zip.content := bs |}])%list.
Proof.
  unfold zip.appendLast. rewrite rev_app_distr. cbn [rev app].
  now rewrite rev_involutive.
Qed.

Lemma fits_app entry evs1 evs2 :
  fits entry (evs1 ++ evs2) <-> fits entry evs1 /\ fits entry evs2.
Proof. unfold fits. rewrite written_app. apply Forall_app. Qed.

Section ArchiveEntries.
Context {W : Type}.
Variable URLPathJoin : string -> string -> string.
Variable URLSplit : string -> string * string.
Variable entry : Object -> Reader -> string -> list zip.Entry.

Lemma archived_sequential : sequential (@archived W entry).
Proof.
  split.
  - intros w Hb. split; [exact Hb|]. split; [|constructor].
    intros _. cbn [written flat_map]. now rewrite app_nil_r.
  - intros a e1 b e2 c Hab Hbc Ha.
    destruct (Hab Ha) as (Hb & Eb & Fb).
    destruct (Hbc Hb) as (Hc & Ec & Fc).
    split; [exact Hc|]. split; [|apply Forall_app; auto].
    intros H. rewrite Ec, Eb, written_app, app_assoc; [reflexivity| |].
    + destruct H as [H|H]; [left; now apply fits_app in H|].
      right. now apply Forall_app in H.
    + destruct H as [H|H]; [left; now apply fits_app in H|].
      right. now apply Forall_app in H.
Qed.

Lemma archived_same (w w' : ArchiveWorld W) ev :
  archive w' = archive w ->
  match ev with EvHandler _ _ _ _ => False | _ => True end ->
  archived entry w [ev] w'.
Proof.
  intros E Hev Hb. rewrite E. split; [exact Hb|]. split.
  - intros _. destruct ev; try destruct Hev; cbn; now rewrite app_nil_r.
  - constructor; [|constructor]. now destruct ev.
Qed.

Lemma archived_writeEntry fh o r u (w : ArchiveWorld W) :
  zip.Info fh = FileInfo o ->
  entry o r u = [zipEntry (zip.Name fh) (zip.Method fh) o r] ->
  zip.Method fh = zip.Store \/ zip.Method fh = zip.Deflate ->
  archived entry w [EvHandler o r u (fst (writeEntry fh r w))]
    (snd (writeEntry fh r w)).
Proof.
  intros Hi He Hm Hb.
  destruct fh as [name method info]. cbn [zip.Name zip.Method zip.Info] in *.
  subst info. unfold zipEntry in He.
  unfold writeEntry, zip.CreateHeader. cbv zeta.
  cbn [zip.Name zip.Method zip.Info].
  replace (if zip.last (archive w) then zip.broken (archive w) else None)
    with (@None error) by (rewrite Hb; now destruct (zip.last _)).
  replace (negb (strings.HasSuffix name "/")
           && negb ((method =? zip.Store) || (method =? zip.Deflate)))
    with false
    by (destruct Hm as [-> | ->]; now rewrite andb_false_r).
  rewrite Hb. unfold fits, turnedDown, tooLong, directory.
  cbn [written flat_map]. rewrite He. cbn [app].
  assert (Hone : forall (P : zip.Entry -> Prop) en,
            Exists P (entry o r u) -> entry o r u = [en] -> P en).
  { intros P en H E. rewrite E in H.
    apply Exists_cons in H as [H|H]; [exact H | inversion H]. }
  destruct (strings.HasSuffix name "/") eqn:Hd; cbn [zip.Name];
    destruct (Z.gtb_spec (len name) 65535) as [Hlong|Hfit];
    cbn [fst snd archive zip.entries zip.broken].
  - split; [reflexivity|]. split.
    + intros [H|H]; apply Forall_inv in H;
        [cbn [zip.Name zip.header] in H; lia | discriminate H].
    + constructor; [|constructor]. split; [reflexivity|].
      intros H. apply (Hone _ _ H) in He as [He _].
      cbn [zip.Name zip.header] in He. lia.
  - unfold zip.ioCopy. destruct (data r) as [|b bs] eqn:Hdata;
      cbn [fst snd archive zip.entries zip.broken];
      (split; [reflexivity|]); (split; [reflexivity|]);
      (constructor; [|constructor]); split.
    + intros H. apply (Hone _ _ H) in He.
      cbn [zip.Name zip.header] in He. lia.
    + intros _ H. now contradiction H.
    + intros H. apply (Hone _ _ H) in He.
      cbn [zip.Name zip.header] in He. lia.
    + reflexivity.
  - split; [reflexivity|]. split.
    + intros [H|H]; apply Forall_inv in H;
        [cbn [zip.Name zip.header] in H; lia | discriminate H].
    + constructor; [|constructor]. split; [reflexivity|].
      intros H. apply (Hone _ _ H) in He as [He _].
      cbn [zip.Name zip.header] in He. lia.
  - unfold zip.ioCopy. cbn [fst snd archive zip.entries zip.broken].
    split; [reflexivity|]. split; [intros _; apply appendLast_last|].
    constructor; [|constructor]. split.
    + intros H. apply (Hone _ _ H) in He.
      cbn [zip.Name zip.header] in He. lia.
    + intros H. apply (Hone _ _ H) in He as [_ He].
      cbn [zip.Name zip.header] in He. congruence.
Qed.

Lemma archived_skip o r u (w : ArchiveWorld W) :
  entry o r u = [] -> archived entry w [EvHandler o r u None] w.
Proof.
  intros He Hb. split; [exact Hb|]. unfold turnedDown, tooLong, directory.
  cbn [written flat_map]. rewrite He. cbn [app]. split.
  - intros _. now rewrite app_nil_r.
  - constructor; [|constructor].
    split; intros H; rewrite He in H; inversion H.
Qed.
End ArchiveEntries.

Section ArchiveHolds.
Context {W : Type}.
Variable URLPathJoin : string -> string -> string.
Variable URLSplit : string -> string * string.

Lemma archived_onBackend entry (s : Service W) :
  (forall url w,
     archived entry w [EvList url (fst (List (onBackend s) url w))]
       (snd (List (onBackend s) url w))) /\
  (forall o w,
     archived entry w [EvDownload o (fst (Download (onBackend s) o w))]
       (snd (Download (onBackend s) o w))).
Proof.
  split; intros; cbn [onBackend List Download];
    match goal with
    | |- context [let '(_, _) := ?x in _] => destruct x
    end; now apply archived_same.
Qed.

Lemma archived_onScratch entry (s : Service memory.Store) :
  forall url (w : ArchiveWorld W),
    archived entry w
      [EvStorageObject url (fst (StorageObject (onScratch s) url w))]
      (snd (StorageObject (onScratch s) url w)).
Proof.
  intros; cbn [onScratch StorageObject];
    match goal with
    | |- context [let '(_, _) := ?x in _] => destruct x
    end; now apply archived_same.
Qed.

Lemma archived_getArchiveCopyHandler parentURL o r dst u
    (w : ArchiveWorld W) :
  archived (archiveEntry URLSplit parentURL) w
    [EvHandler o r u
       (fst (getArchiveCopyHandler URLSplit parentURL o r dst u w))]
    (snd (getArchiveCopyHandler URLSplit parentURL o r dst u w)).
Proof.
  unfold getArchiveCopyHandler, zip.FileInfoHeader. cbv zeta.
  apply archived_writeEntry; [reflexivity | reflexivity | now right].
Qed.

Lemma archived_getArchiveCopyHandlerWithFilter parentURL predicate o r dst u
    (w : ArchiveWorld W) :
  archived (filteredEntry URLSplit parentURL predicate) w
    [EvHandler o r u
       (fst (getArchiveCopyHandlerWithFilter URLSplit parentURL predicate o r
               dst u w))]
    (snd (getArchiveCopyHandlerWithFilter URLSplit parentURL predicate o r
            dst u w)).
Proof.
  unfold getArchiveCopyHandlerWithFilter, zip.FileInfoHeader.
  destruct (predicate o) eqn:Hp; cbn [negb fst snd].
  - cbv zeta. apply archived_writeEntry; [reflexivity| |now left].
    unfold filteredEntry. now rewrite Hp.
  - apply archived_skip. unfold filteredEntry. now rewrite Hp.
Qed.

Lemma Archive_archived fuel (service : Service W) URL w writer :
  archived (archiveEntry URLSplit destURL)
    {| backend := w; scratch := memory.NewMemoryService; archive := writer |}
    (events (Archive URLPathJoin URLSplit fuel service URL w writer))
    (final (Archive URLPathJoin URLSplit fuel service URL w writer)).
Proof.
  unfold Archive.
  destruct (Copy_events URLPathJoin fuel (onBackend service)
              (onScratch memory.service) URL destURL None
              (Some (getArchiveCopyHandler URLSplit destURL))
              {| backend := w; scratch := memory.NewMemoryService;
                 archive := writer |}) as (h & -> & -> & _ & ->).
  apply (tracks_copyStorageContent URLPathJoin
           (archived (archiveEntry URLSplit destURL))
           (archived_sequential _) (onBackend service)
           (onScratch memory.service) _
           (proj1 (archived_onBackend _ service))
           (proj2 (archived_onBackend _ service))
           (fun input r w => archived_same _ w w (EvModify input r)
                               eq_refl I)
           (archived_onScratch _ memory.service)
           (fun o r u w => archived_getArchiveCopyHandler destURL o r _ u w)).
Qed.

Lemma ArchiveWithFilter_archived fuel (service : Service W) URL w writer
    predicate :
  archived (filteredEntry URLSplit destURL predicate)
    {| backend := w; scratch := memory.NewMemoryService; archive := writer |}
    (events (ArchiveWithFilter URLPathJoin URLSplit fuel service URL w writer
               predicate))
    (final (ArchiveWithFilter URLPathJoin URLSplit fuel service URL w writer
              predicate)).
Proof.
  unfold ArchiveWithFilter.
  destruct (Copy_events URLPathJoin fuel (onBackend service)
              (onScratch memory.service) URL destURL None
              (Some (getArchiveCopyHandlerWithFilter URLSplit destURL
                       predicate))
              {| backend := w; scratch := memory.NewMemoryService;
                 archive := writer |}) as (h & -> & -> & _ & ->).
  apply (tracks_copyStorageContent URLPathJoin
           (archived (filteredEntry URLSplit destURL predicate))
           (archived_sequential _) (onBackend service)
           (onScratch memory.service) _
           (proj1 (archived_onBackend _ service))
           (proj2 (archived_onBackend _ service))
           (fun input r w => archived_same _ w w (EvModify input r)
                               eq_refl I)
           (archived_onScratch _ memory.service)
           (fun o r u w =>
              archived_getArchiveCopyHandlerWithFilter destURL predicate o
                r _ u w)).
Qed.

End ArchiveHolds.

Lemma Permutation_filter {A} (p : A -> bool) (l l' : list A) :
  Permutation l l' -> Permutation (filter p l) (filter p l').
Proof.
  induction 1 as [|x l l' _ IH|x y l|l l' l'' _ IH1 _ IH2]; cbn [filter].
  - constructor.
  - destruct (p x); [now constructor | exact IH].
  - destruct (p x), (p y); try reflexivity. apply perm_swap.
  - now transitivity (filter p l').
Qed.

Lemma filter_both {A} (p q : A -> bool) (l : list A) :
  filter q (filter p l) = filter (fun a => p a && q a) l.
Proof.
  induction l as [|a l IH]; [reflexivity|]. cbn [filter].
  destruct (p a); cbn [filter andb]; [destruct (q a)|]; now rewrite IH.
Qed.

Lemma written_archiveEntry URLSplit parentURL evs :
  map (fun e => zip.Info (zip.header e))
    (written (archiveEntry URLSplit parentURL) evs) =
  map FileInfo (handled evs).
Proof.
  unfold written.
  induction evs as [|[] evs IH]; cbn [flat_map handled app map];
    try exact IH; [reflexivity|].
  unfold archiveEntry at 1, zipEntry.
  destruct (strings.HasSuffix _ "/"); cbn [app map zip.Info zip.header];
    f_equal; exact IH.
Qed.

Lemma written_filteredEntry URLSplit parentURL predicate evs :
  map (fun e => zip.Info (zip.header e))
    (written (filteredEntry URLSplit parentURL predicate) evs) =
  map FileInfo (filter predicate (handled evs)).
Proof.
  unfold written.
  induction evs as [|[] evs IH];
    cbn [flat_map handled app map filter]; try exact IH; [reflexivity|].
  unfold filteredEntry at 1, zipEntry. destruct (predicate o);
    cbn [app map]; [|exact IH].
  destruct (strings.HasSuffix _ "/"); cbn [zip.Info zip.header]; f_equal;
    exact IH.
Qed.

Lemma no_call_failed {World} URLPathJoin fuel (src dst : Service World)
    sourceURL destinationURL modify handler w :
  let x := Copy URLPathJoin fuel src sourceURL dst destinationURL modify
             handler w in
  outcome x = Done tt -> Forall (fun ev => failed ev = false) (events x).
Proof.
  cbv zeta.
  destruct (Copy_events URLPathJoin fuel src dst sourceURL destinationURL
              modify handler w) as (h & -> & _ & -> & _).
  intros Ho. apply (stops_done _ tt).
  pose proof (stops_copyStorageContent URLPathJoin fuel src dst sourceURL
                destinationURL modify "" h w) as H.
  destruct (outcome (copyStorageContent _ _ _ _ _ _ _ _ _ _)) as [[]|?|];
    try discriminate Ho. exact H.
Qed.

Section ArchiveComplete.
Context {W : Type}.
Variable URLPathJoin : string -> string -> string.
Variable URLSplit : string -> string * string.

Lemma handled_all (x : ArchiveWorld W * list Event * Res unit) :
  handledOnce x -> outcome x = Done tt ->
  Forall classified (listed (events x)) ->
  Permutation (handled (events x)) (filter IsContent (listed (events x))).
Proof.
  intros (missed & Hp & Hd & _) Ho Hc. rewrite (Hd Ho Hc), app_nil_r in Hp.
  exact Hp.
Qed.

(** X2.  When [Archive] returns [nil] for a working zip writer and every
    object listed is either a folder or content, the entries added to the
    writer match the content objects listed one to one: the file
    information of the entries is that of the objects, up to order.  For
    [ArchiveWithFilter] the entries match the listed content objects that
    satisfy the predicate. *)
Theorem archive_is_complete fuel (service : Service W) URL w writer
    predicate :
  zip.broken writer = None ->
  (let x := Archive URLPathJoin URLSplit fuel service URL w writer in
   outcome x = Done tt ->
   Forall classified (listed (events x)) ->
   exists added,
     zip.entries (archive (final x)) = (zip.entries writer ++ added)%list /\
     Permutation (map (fun e => zip.Info (zip.header e)) added)
       (map FileInfo (filter IsContent (listed (events x))))) /\
  (let x := ArchiveWithFilter URLPathJoin URLSplit fuel service URL w writer
              predicate in
   outcome x = Done tt ->
   Forall classified (listed (events x)) ->
   exists added,
     zip.entries (archive (final x)) = (zip.entries writer ++ added)%list /\
     Permutation (map (fun e => zip.Info (zip.header e)) added)
       (map FileInfo
          (filter (fun o => IsContent o && predicate o)
             (listed (events x))))).
Proof.
  intros Hb. cbv zeta. split; intros Ho Hc.
  - destruct (Archive_archived URLPathJoin URLSplit fuel service URL w writer
                Hb) as (_ & He & _).
    eexists. split.
    + apply He. right. now apply no_call_failed.
    + rewrite written_archiveEntry. apply Permutation_map.
      apply handled_all; auto. apply Copy_handledOnce.
  - destruct (ArchiveWithFilter_archived URLPathJoin URLSplit fuel service
                URL w writer predicate Hb) as (_ & He & _).
    eexists. split.
    + apply He. right. now apply no_call_failed.
    + rewrite written_filteredEntry, <- filter_both.
      apply Permutation_map, Permutation_filter.
      apply handled_all; auto. apply Copy_handledOnce.
Qed.
End ArchiveComplete.

(** ** A zip writer that is broken *)

Section ArchiveRefused.
Context {W : Type}.
Variable URLPathJoin : string -> string -> string.
Variable URLSplit : string -> string * string.
Variable skip : Object -> bool.
Variable e : error.

Lemma refused_sequential : sequential (@refused W skip e).
Proof.
  split.
  - intros w Hb. split; [exact Hb|]. split; [|constructor].
    exists []. split; [now rewrite app_nil_r | constructor].
  - intros a e1 b e2 c Hab Hbc Ha.
    destruct (Hab Ha) as (Hb & (x & Ex & Fx) & F1).
    destruct (Hbc Hb) as (Hc & (y & Ey & Fy) & F2).
    split; [exact Hc|]. split; [|apply Forall_app; auto].
    exists (x ++ y)%list. rewrite Ey, Ex, app_assoc.
    split; [reflexivity | apply Forall_app; auto].
Qed.

Lemma refused_same (w w' : ArchiveWorld W) ev :
  archive w' = archive w ->
  match ev with EvHandler _ _ _ _ => False | _ => True end ->
  refused skip e w [ev] w'.
Proof.
  intros E Hev Hb. rewrite E. split; [exact Hb|]. split.
  - exists []. split; [now rewrite app_nil_r | constructor].
  - constructor; [|constructor]. now destruct ev.
Qed.

Lemma refused_onBackend (s : Service W) :
  (forall url w,
     refused skip e w [EvList url (fst (List (onBackend s) url w))]
       (snd (List (onBackend s) url w))) /\
  (forall o w,
     refused skip e w [EvDownload o (fst (Download (onBackend s) o w))]
       (snd (Download (onBackend s) o w))).
Proof.
  split; intros; cbn [onBackend List Download];
    match goal with
    | |- context [let '(_, _) := ?x in _] => destruct x
    end; now apply refused_same.
Qed.

Lemma refused_onScratch (s : Service memory.Store) :
  forall url (w : ArchiveWorld W),
    refused skip e w
      [EvStorageObject url (fst (StorageObject (onScratch s) url w))]
      (snd (StorageObject (onScratch s) url w)).
Proof.
  intros; cbn [onScratch StorageObject];
    match goal with
    | |- context [let '(_, _) := ?x in _] => destruct x
    end; now apply refused_same.
Qed.

Lemma refused_writeEntry fh o r u (w : ArchiveWorld W) :
  skip o = false ->
  zip.Method fh = zip.Store \/ zip.Method fh = zip.Deflate ->
  refused skip e w [EvHandler o r u (fst (writeEntry fh r w))]
    (snd (writeEntry fh r w)).
Proof.
  intros Hs Hm Hb. unfold writeEntry, zip.CreateHeader. cbv zeta. rewrite Hb.
  replace (negb (strings.HasSuffix (zip.Name fh) "/")
           && negb ((zip.Method fh =? zip.Store)
                    || (zip.Method fh =? zip.Deflate))) with false
    by (destruct Hm as [-> | ->]; now rewrite andb_false_r).
  assert (Hkeep : exists added : list zip.Entry,
            zip.entries (archive w) = (zip.entries (archive w) ++ added)%list
            /\ Forall (fun en => zip.content en = []) added).
  { exists []. split; [now rewrite app_nil_r | constructor]. }
  assert (Hone : forall h : zip.FileHeader,
            exists added : list zip.Entry,
              (zip.entries (archive w)
               ++ [{| zip.header := h; zip.content := [] |}])%list
              = (zip.entries (archive w) ++ added)%list
              /\ Forall (fun en => zip.content en = []) added).
  { intros h. eexists. split; [reflexivity | now repeat constructor]. }
  destruct (zip.last (archive w));
    [|match goal with
      | |- context [len (zip.Name ?h) >? 65535] =>
          destruct (len (zip.Name h) >? 65535)
      end];
    cbn [fst snd archive zip.entries zip.broken];
    (split; [reflexivity|]); (split; [auto|]);
    (constructor; [rewrite Hs | constructor]); auto.
Qed.

Lemma refused_skip o r u (w : ArchiveWorld W) :
  skip o = true -> refused skip e w [EvHandler o r u None] w.
Proof.
  intros Hs Hb. split; [exact Hb|]. split.
  - exists []. split; [now rewrite app_nil_r | constructor].
  - constructor; [now rewrite Hs | constructor].
Qed.
End ArchiveRefused.

Lemma handled_when_refused (skip : Object -> bool) (e : error) evs :
  Forall (fun ev => failed ev = false) evs ->
  Forall (fun ev =>
            match ev with
            | EvHandler o _ _ res =>
                if skip o then res = None
                else res = Some e \/ res = Some zip.errLongName
            | _ => True
            end) evs ->
  Forall (fun o => skip o = true) (handled evs).
Proof.
  induction evs as [|ev evs IH]; intros Hf Hr; [constructor|].
  inversion Hf; subst. inversion Hr; subst.
  destruct ev; cbn [handled]; auto.
  constructor; auto. destruct (skip o); [reflexivity|].
  match goal with H : _ \/ _ |- _ => destruct H; subst; discriminate end.
Qed.

Section ArchiveBroken.
Context {W : Type}.
Variable URLPathJoin : string -> string -> string.
Variable URLSplit : string -> string * string.

Lemma Archive_refused fuel (service : Service W) URL w writer e :
  refused (fun _ => false) e
    {| backend := w; scratch := memory.NewMemoryService; archive := writer |}
    (events (Archive URLPathJoin URLSplit fuel service URL w writer))
    (final (Archive URLPathJoin URLSplit fuel service URL w writer)).
Proof.
  unfold Archive.
  destruct (Copy_events URLPathJoin fuel (onBackend service)
              (onScratch memory.service) URL destURL None
              (Some (getArchiveCopyHandler URLSplit destURL))
              {| backend := w; scratch := memory.NewMemoryService;
                 archive := writer |}) as (h & -> & -> & _ & ->).
  apply (tracks_copyStorageContent URLPathJoin
           (refused (fun _ => false) e) (refused_sequential _ _)
           (onBackend service) (onScratch memory.service) _
           (proj1 (refused_onBackend _ _ service))
           (proj2 (refused_onBackend _ _ service))
           (fun input r w => refused_same _ _ w w (EvModify input r)
                               eq_refl I)
           (refused_onScratch _ _ memory.service)).
  intros o r u w'. unfold getArchiveCopyHandler, zip.FileInfoHeader.
  cbv zeta. apply refused_writeEntry; [reflexivity | now right].
Qed.

Lemma ArchiveWithFilter_refused fuel (service : Service W) URL w writer
    predicate e :
  refused (fun o => negb (predicate o)) e
    {| backend := w; scratch := memory.NewMemoryService; archive := writer |}
    (events (ArchiveWithFilter URLPathJoin URLSplit fuel service URL w writer
               predicate))
    (final (ArchiveWithFilter URLPathJoin URLSplit fuel service URL w writer
              predicate)).
Proof.
  unfold ArchiveWithFilter.
  destruct (Copy_events URLPathJoin fuel (onBackend service)
              (onScratch memory.service) URL destURL None
              (Some (getArchiveCopyHandlerWithFilter URLSplit destURL
                       predicate))
              {| backend := w; scratch := memory.NewMemoryService;
                 archive := writer |}) as (h & -> & -> & _ & ->).
  apply (tracks_copyStorageContent URLPathJoin
           (refused (fun o => negb (predicate o)) e)
           (refused_sequential _ _)
           (onBackend service) (onScratch memory.service) _
           (proj1 (refused_onBackend _ _ service))
           (proj2 (refused_onBackend _ _ service))
           (fun input r w => refused_same _ _ w w (EvModify input r)
                               eq_refl I)
           (refused_onScratch _ _ memory.service)).
  intros o r u w'. unfold getArchiveCopyHandlerWithFilter,
    zip.FileInfoHeader.
  destruct (predicate o) eqn:Hp; cbn [negb fst snd].
  - cbv zeta. apply refused_writeEntry; [now rewrite Hp | now left].
  - apply refused_skip. now rewrite Hp.
Qed.

(** X3.  Handed a zip writer whose stream has already failed with [e],
    [Archive] and [ArchiveWithFilter] write no bytes: the writer is still
    broken by [e] afterwards, it keeps its entries, and what it has
    recorded besides holds no bytes.  Every handler call (for
    [ArchiveWithFilter]: every one for an object satisfying the predicate)
    returns an error, [e] or the error for a name of more than 65535
    bytes; so a call that returns [nil] has met no content object (none
    satisfying the predicate). *)
Theorem broken_writer_is_refused fuel (service : Service W) URL w writer
    predicate e :
  zip.broken writer = Some e ->
  (let x := Archive URLPathJoin URLSplit fuel service URL w writer in
   zip.broken (archive (final x)) = Some e /\
   (exists added,
      zip.entries (archive (final x)) = (zip.entries writer ++ added)%list /\
      Forall (fun en => zip.content en = []) added) /\
   (forall o r u res,
      In (EvHandler o r u res) (events x) ->
      res = Some e \/ res = Some zip.errLongName) /\
   (outcome x = Done tt -> handled (events x) = [])) /\
  (let x := ArchiveWithFilter URLPathJoin URLSplit fuel service URL w writer
              predicate in
   zip.broken (archive (final x)) = Some e /\
   (exists added,
      zip.entries (archive (final x)) = (zip.entries writer ++ added)%list /\
      Forall (fun en => zip.content en = []) added) /\
   (forall o r u res,
      In (EvHandler o r u res) (events x) -> predicate o = true ->
      res = Some e \/ res = Some zip.errLongName) /\
   (outcome x = Done tt ->
    Forall (fun o => predicate o = false) (handled (events x)))).
Proof.
  intros Hb. split; cbv zeta.
  - destruct (Archive_refused fuel service URL w writer e Hb)
      as (Hb' & Ha & Hf).
    split; [exact Hb'|]. split; [exact Ha|]. split.
    + intros o r u res Hin. rewrite Forall_forall in Hf.
      exact (Hf _ Hin).
    + intros Ho. apply no_call_failed in Ho.
      pose proof (handled_when_refused (fun _ => false) e _ Ho Hf) as H.
      destruct (handled _) as [|o l]; [reflexivity|].
      inversion H; discriminate.
  - destruct (ArchiveWithFilter_refused fuel service URL w writer predicate e
                Hb) as (Hb' & Ha & Hf).
    split; [exact Hb'|]. split; [exact Ha|]. split.
    + intros o r u res Hin Hp. rewrite Forall_forall in Hf.
      specialize (Hf _ Hin). cbn in Hf. now rewrite Hp in Hf.
    + intros Ho. apply no_call_failed in Ho.
      pose proof (handled_when_refused (fun o => negb (predicate o)) e _ Ho
                    Hf) as H.
      eapply Forall_impl; [|exact H]. intros o Hs. cbv beta in Hs.
      now destruct (predicate o).
Qed.
End ArchiveBroken.

(** ** The cause of an error *)

Lemma explained_app modify evs1 evs2 cause :
  explained modify evs2 cause -> explained modify (evs1 ++ evs2) cause.
Proof.
  intros (pre & H).
  destruct H as [(url & ->)|[(o & d & c & -> & ->)|[(o & rd & -> & Hm & Hf)|
                 [(o & rd & content & d & c & -> & Hr & ->)
                 |(o & r & u & ->)]]]];
    rewrite app_assoc; exists (evs1 ++ pre)%list.
  - left. eauto.
  - right; left. eauto 6.
  - right; right; left. eauto 6.
  - right; right; right; left. exists o, rd, content, d, c. eauto.
  - right; right; right; right. eauto.
Qed.

Lemma explains_bind {World A B} modify (m : M World A) (f : A -> M World B) :
  always (explains modify) m ->
  (forall a, always (explains modify) (f a)) ->
  always (explains modify) (bind m f).
Proof.
  intros Hm Hf w. specialize (Hm w).
  destruct (outcome (m w)) as [a|e|] eqn:Ho.
  - rewrite (bind_done _ _ _ _ Ho). cbn [events outcome fst snd].
    intros cause Hc. apply explained_app. now apply Hf.
  - rewrite (bind_fail _ _ _ _ Ho). cbn [events outcome fst snd].
    intros cause [= <-]. now apply Hm.
  - rewrite (bind_fuel _ _ _ Ho). cbn [events outcome fst snd].
    intros cause Hc. discriminate.
Qed.

Section Causes.
Context {World : Type}.
Variable URLPathJoin : string -> string -> string.

Lemma explains_copyContent (src dst : Service World) destinationURL modify
    subPath handler object d0 :
  always (explains modify)
    (copyContent URLPathJoin src dst destinationURL modify subPath handler
       object d0).
Proof.
  intros w cause.
  unfold copyContent, modifyContent, topLevelDestination, invoke, bind, call,
    ret, raise, events, outcome.
  cbv zeta.
  destruct (Download src object w) as [[rd|e] w1]; cbn [fst snd].
  2:{ intros [= <-]. exists []. right; left. exists object, d0, e. auto. }
  assert (Hlast : forall pre u (w3 : World) (r : Reader) err,
            snd (w3, (pre ++ [EvHandler object r u err])%list,
                 match err with
                 | Some e => @Fail unit e
                 | None => Done tt
                 end) = Fail cause ->
            explained modify (pre ++ [EvHandler object r u err]) cause).
  { intros pre u w3 r [e|]; cbn [snd]; intros [= <-].
    exists pre. do 4 right. eauto. }
  destruct modify as [h|].
  - unfold ReadAll. destruct (failure rd) as [e|] eqn:Hrd;
      cbn [fst snd app].
    { intros [= <-]. exists []. right; right; left. exists object, rd.
      repeat split; auto. discriminate. }
    destruct (h (NopCloser (data rd))) as [r|e] eqn:Hh; cbn [fst snd app].
    2:{ intros [= <-]. exists []. do 3 right; left.
        exists object, rd, (data rd), d0, e. unfold ReadAll. rewrite Hrd.
        auto. }
    destruct (subPath =? "")%string.
    + destruct (strings.HasSuffix d0 "/"); cbn [fst snd app].
      * destruct (handler _ _ _ _ _) as [err w2]; cbn [fst snd app].
        apply (Hlast [_; _] _ w2).
      * destruct (StorageObject dst d0 w1) as [p w2]; cbn [fst snd app].
        destruct (handler _ _ _ _ _) as [err w3]; cbn [fst snd app].
        apply (Hlast [_; _; _] _ w3).
    + cbn [fst snd app].
      destruct (handler _ _ _ _ _) as [err w2]; cbn [fst snd app].
      apply (Hlast [_; _] _ w2).
  - cbn [fst snd app]. destruct (subPath =? "")%string.
    + destruct (strings.HasSuffix d0 "/"); cbn [fst snd app].
      * destruct (handler _ _ _ _ _) as [err w2]; cbn [fst snd app].
        apply (Hlast [_] _ w2).
      * destruct (StorageObject dst d0 w1) as [p w2]; cbn [fst snd app].
        destruct (handler _ _ _ _ _) as [err w3]; cbn [fst snd app].
        apply (Hlast [_; _] _ w3).
    + cbn [fst snd app].
      destruct (handler _ _ _ _ _) as [err w2]; cbn [fst snd app].
      apply (Hlast [_] _ w2).
Qed.

Lemma explains_copyObjects recurse (src dst : Service World) sourceURL
    destinationURL modify subPath handler objects rel :
  (forall sub, always (explains modify) (recurse sub)) ->
  always (explains modify)
    (copyObjects URLPathJoin recurse src sourceURL dst destinationURL modify
       subPath handler objects rel).
Proof.
  intros Hrec. revert rel.
  induction objects as [|object rest IH]; intros rel; cbn [copyObjects].
  - intros w cause H. discriminate H.
  - destruct (skipObject _ _ _ _ _); [apply IH|].
    apply explains_bind; [|intros _; apply IH].
    destruct (IsContent object); [apply explains_copyContent | apply Hrec].
Qed.

Lemma explains_copyStorageContent fuel (src dst : Service World) sourceURL
    destinationURL modify subPath handler :
  always (explains modify)
    (copyStorageContent URLPathJoin fuel src sourceURL dst destinationURL
       modify subPath handler).
Proof.
  revert subPath. induction fuel as [|fuel IH]; intros subPath;
    cbn [copyStorageContent].
  - intros w cause H. discriminate H.
  - apply explains_bind.
    + intros w cause. unfold call, events, outcome.
      destruct (List src _ w) as [[objects|e] w1]; cbn [fst snd];
        intros [= <-]. exists []. left. eexists. reflexivity.
    + intros objects. apply explains_copyObjects. intros sub. apply IH.
Qed.

Lemma upload_errors (src dst : Service World) fuel sourceURL destinationURL
    modify subPath :
  tracks (fun _ evs _ =>
            Forall (fun ev =>
                      match ev with
                      | EvHandler o _ u (Some cause) =>
                          exists e,
                            cause = "unable upload, " ++ URL o ++ " " ++ u
                                    ++ " " ++ e
                      | _ => True
                      end) evs)
    (copyStorageContent URLPathJoin fuel src sourceURL dst destinationURL
       modify subPath copySourceToDestination).
Proof.
  apply tracks_copyStorageContent;
    try (intros; constructor; [exact I | constructor]).
  - split; [constructor|]. intros a e1 b e2 c. apply Forall_app_2 ||
      (intros H1 H2; apply Forall_app; auto).
  - intros o r u w. constructor; [|constructor].
    unfold copySourceToDestination.
    destruct (Upload dst u r w) as [[e|] w']; cbn [fst]; eauto.
Qed.

(** X4.  An error returned by [Copy] names its cause: it is "failed to copy
    <sourceURL> -> <destinationURL>: " followed by the error of the
    failing listing; or by "unable download, <object URL> -> <destination
    URL>, " and the error of the failing download; or by the error of
    reading the downloaded stream (only with a modification handler); or by
    "unable modify content, <object URL> <destination URL> " and the error
    of the modification handler; or by the error of the copy handler.  The
    failing call is the last call made.  With the default copy handler the
    handler's error is "unable upload, <object URL> <destination URL> "
    followed by the error of the upload. *)
Theorem Copy_error_names_its_cause fuel (src dst : Service World) sourceURL
    destinationURL modify handler w :
  (let x := Copy URLPathJoin fuel src sourceURL dst destinationURL modify
              handler w in
   forall err,
     outcome x = Fail err ->
     exists cause,
       err = "failed to copy " ++ sourceURL ++ " -> " ++ destinationURL
             ++ ": " ++ cause /\
       explained modify (events x) cause) /\
  (let x := Copy URLPathJoin fuel src sourceURL dst destinationURL modify
              None w in
   forall o r u cause,
     In (EvHandler o r u (Some cause)) (events x) ->
     exists e,
       cause = "unable upload, " ++ URL o ++ " " ++ u ++ " " ++ e).
Proof.
  split; cbv zeta.
  - destruct (Copy_events URLPathJoin fuel src dst sourceURL destinationURL
                modify handler w) as (h & -> & _ & -> & _).
    pose proof (explains_copyStorageContent fuel src dst sourceURL
                  destinationURL modify "" h w) as H.
    destruct (outcome (copyStorageContent _ _ _ _ _ _ _ _ _ _)) as [[]|e|];
      intros err [= <-]. exists e. split; [reflexivity|]. now apply H.
  - destruct (Copy_events URLPathJoin fuel src dst sourceURL destinationURL
                modify None w) as (h & -> & _ & _ & ->).
    intros o r u cause Hin.
    pose proof (upload_errors src dst fuel sourceURL destinationURL modify ""
                  w) as H.
    cbv beta in H. rewrite Forall_forall in H. exact (H _ Hin).
Qed.
End Causes.

(** ** Without a modification handler *)

Lemma passedOn_nil : passedOn [].
Proof. intros [|? ?] ? ? ? ? ? H; discriminate. Qed.

Lemma passedOn_other e :
  match e with EvHandler _ _ _ _ => False | _ => True end ->
  passedOn [e].
Proof.
  intros He [|e' pre] o r u res post H; simpl in H.
  - inversion H; subst. destruct He.
  - inversion H. now destruct pre.
Qed.

Lemma passedOn_app evs1 evs2 :
  passedOn evs1 -> passedOn evs2 -> passedOn (evs1 ++ evs2).
Proof.
  intros H1 H2 pre o r u res post Heq.
  apply app_eq_app in Heq as [l [[E1 E2]|[E1 E2]]].
  - destruct l as [|e l].
    + rewrite app_nil_r in E1. simpl in E2. symmetry in E2.
      destruct (H2 [] o r u res post E2) as (pre' & probe & E & _).
      now destruct pre'.
    + simpl in E2. inversion E2; subst. eapply H1. reflexivity.
  - destruct (H2 l o r u res post E2) as (pre' & probe & E & ?).
    exists (evs1 ++ pre')%list, probe. subst. now rewrite <- app_assoc.
Qed.

Lemma passedOn_sequential {World : Type} :
  sequential (fun (_ : World) evs (_ : World) => passedOn evs).
Proof.
  split; [intros _; apply passedOn_nil|].
  intros _ e1 _ e2 _. apply passedOn_app.
Qed.

Section Untouched.
Context {World : Type}.
Variable URLPathJoin : string -> string -> string.

Lemma passedOn_copyContent (src dst : Service World) destinationURL
    subPath handler object d0 w :
  passedOn
    (events (copyContent URLPathJoin src dst destinationURL None subPath
               handler object d0 w)).
Proof.
  unfold copyContent, modifyContent, topLevelDestination, invoke, bind, call,
    ret, raise, events, outcome.
  cbv zeta.
  destruct (Download src object w) as [[rd|e] w1]; cbn [fst snd];
    [|now apply passedOn_other].
  assert (Hchain : forall probe u res,
            probe = [] \/ (exists u' p, probe = [EvStorageObject u' p]) ->
            passedOn
              ([EvDownload object (Ok rd)]
               ++ (probe ++ [EvHandler object rd u res]))%list).
  { intros probe u res Hprobe pre o' r' u' res' post Heq.
    exists [], probe.
    assert (pre = ([EvDownload object (Ok rd)] ++ probe)%list
            /\ o' = object /\ r' = rd) as (-> & -> & ->).
    { destruct Hprobe as [->|(u1 & p1 & ->)]; simpl in Heq;
        repeat (destruct pre as [|? pre]; simpl in Heq; inversion Heq; subst;
                auto);
        now destruct pre. }
    auto. }
  destruct (subPath =? "")%string.
  - destruct (strings.HasSuffix d0 "/"); cbn [fst snd app].
    + destruct (handler _ _ _ _ _) as [[e|] w2]; cbn [fst snd app];
        apply (Hchain []); auto.
    + destruct (StorageObject dst d0 w1) as [p w2]; cbn [fst snd app].
      destruct (handler _ _ _ _ _) as [[e|] w3]; cbn [fst snd app];
        apply (Hchain [_]); eauto.
  - cbn [fst snd app].
    destruct (handler _ _ _ _ _) as [[e|] w2]; cbn [fst snd app];
      apply (Hchain []); auto.
Qed.

Lemma passedOn_copyObjects recurse (src dst : Service World) sourceURL
    destinationURL subPath handler objects rel :
  (forall sub, tracks (fun _ evs _ => passedOn evs) (recurse sub)) ->
  tracks (fun _ evs _ => passedOn evs)
    (copyObjects URLPathJoin recurse src sourceURL dst destinationURL
       None subPath handler objects rel).
Proof.
  intros Hrec. revert rel.
  induction objects as [|object rest IH]; intros rel; cbn [copyObjects].
  - intros w. apply passedOn_nil.
  - destruct (skipObject _ _ _ _ _); [apply IH|].
    apply (tracks_bind _ passedOn_sequential); [|intros _; apply IH].
    destruct (IsContent object); [|apply Hrec].
    intros w. apply passedOn_copyContent.
Qed.

Lemma passedOn_copyStorageContent fuel (src dst : Service World)
    sourceURL destinationURL subPath handler :
  tracks (fun _ evs _ => passedOn evs)
    (copyStorageContent URLPathJoin fuel src sourceURL dst destinationURL
       None subPath handler).
Proof.
  revert subPath. induction fuel as [|fuel IH]; intros subPath;
    cbn [copyStorageContent].
  - intros w. apply passedOn_nil.
  - apply (tracks_bind _ passedOn_sequential).
    + intros w. unfold call, events. destruct (List src _ w) as [r w1].
      now apply passedOn_other.
    + intros objects. apply passedOn_copyObjects. intros sub. apply IH.
Qed.

(** X5.  Without a modification handler every call of the copy handler
    receives the very stream the source returned for the download of that
    object: nothing is read from it or put in its place on the way, and
    between the download and the handler call nothing happens but, in the
    first listing, the probe of the destination. *)
Theorem handler_gets_the_downloaded_stream fuel (src dst : Service World)
    sourceURL destinationURL handler w :
  passedOn
    (events (Copy URLPathJoin fuel src sourceURL dst destinationURL None
               handler w)).
Proof.
  destruct (Copy_events URLPathJoin fuel src dst sourceURL destinationURL
              None handler w) as (h & -> & _).
  apply passedOn_copyStorageContent.
Qed.
End Untouched.

(** ** Which operations of the backends a walk uses *)

Lemma bind_ext {World A B} (m m' : M World A) (f f' : A -> M World B) :
  (forall w, m w = m' w) -> (forall a w, f a w = f' a w) ->
  forall w, bind m f w = bind m' f' w.
Proof.
  intros Hm Hf w. unfold bind. rewrite Hm.
  destruct (m' w) as [[w1 e1] [a|e|]]; auto. now rewrite Hf.
Qed.

Section Uses.
Context {World : Type}.
Variable URLPathJoin : string -> string -> string.
Variables (src src' dst dst' : Service World).
Variables (handler handler' : CopyHandler World).
Hypothesis same_List : forall url w, List src url w = List src' url w.
Hypothesis same_Download :
  forall o w, Download src o w = Download src' o w.
Hypothesis same_StorageObject :
  forall url w, StorageObject dst url w = StorageObject dst' url w.
Hypothesis same_handler :
  forall o r u w, handler o r dst u w = handler' o r dst' u w.

Lemma copyContent_ext destinationURL modify subPath object d0 w :
  copyContent URLPathJoin src dst destinationURL modify subPath handler
    object d0 w =
  copyContent URLPathJoin src' dst' destinationURL modify subPath handler'
    object d0 w.
Proof.
  unfold copyContent. apply bind_ext.
  { intros w0. unfold call. now rewrite same_Download. }
  intros reader w0. apply bind_ext; [reflexivity|].
  intros reader' w1. apply bind_ext.
  { intros w2. destruct (subPath =? "")%string; [|reflexivity].
    unfold topLevelDestination.
    destruct (strings.HasSuffix d0 "/"); [reflexivity|].
    now rewrite same_StorageObject. }
  intros u w2. unfold invoke. now rewrite same_handler.
Qed.

Lemma copyObjects_ext recurse recurse' sourceURL destinationURL modify
    subPath objects rel w :
  (forall sub w, recurse sub w = recurse' sub w) ->
  copyObjects URLPathJoin recurse src sourceURL dst destinationURL modify
    subPath handler objects rel w =
  copyObjects URLPathJoin recurse' src' sourceURL dst' destinationURL modify
    subPath handler' objects rel w.
Proof.
  intros Hrec. revert rel w.
  induction objects as [|object rest IH]; intros rel w; cbn [copyObjects];
    [reflexivity|].
  destruct (skipObject _ _ _ _ _); [apply IH|].
  apply bind_ext; [|intros _ w0; apply IH].
  intros w0. destruct (IsContent object);
    [apply copyContent_ext | apply Hrec].
Qed.

Lemma copyStorageContent_ext fuel sourceURL destinationURL modify subPath w :
  copyStorageContent URLPathJoin fuel src sourceURL dst destinationURL
    modify subPath handler w =
  copyStorageContent URLPathJoin fuel src' sourceURL dst' destinationURL
    modify subPath handler' w.
Proof.
  revert subPath w. induction fuel as [|fuel IH]; intros subPath w;
    cbn [copyStorageContent]; [reflexivity|].
  apply bind_ext.
  { intros w0. unfold call. now rewrite same_List. }
  intros objects w0. apply copyObjects_ext. intros sub w1. apply IH.
Qed.
End Uses.

Section CopyUses.
Context {World : Type}.
Variable URLPathJoin : string -> string -> string.

(** X6.  [Copy] with the default handler reads the source and writes the
    destination, never the other way round: its outcome, the calls it makes
    and the world it leaves depend on the source through [List] and
    [Download] only and on the destination through [StorageObject] and
    [Upload] only. *)
Theorem Copy_reads_source_writes_destination fuel
    (src src' dst dst' : Service World) sourceURL destinationURL modify w :
  (forall url w, List src url w = List src' url w) ->
  (forall o w, Download src o w = Download src' o w) ->
  (forall url w, StorageObject dst url w = StorageObject dst' url w) ->
  (forall url r w, Upload dst url r w = Upload dst' url r w) ->
  Copy URLPathJoin fuel src sourceURL dst destinationURL modify None w =
  Copy URLPathJoin fuel src' sourceURL dst' destinationURL modify None w.
Proof.
  intros HL HD HS HU. unfold Copy.
  rewrite (copyStorageContent_ext URLPathJoin src src' dst dst'
             copySourceToDestination copySourceToDestination HL HD HS).
  - reflexivity.
  - intros o r u w0. unfold copySourceToDestination. now rewrite HU.
Qed.
End CopyUses.

Section ArchiveUses.
Context {W : Type}.
Variable URLPathJoin : string -> string -> string.
Variable URLSplit : string -> string * string.

(** X7.  [Archive] and [ArchiveWithFilter] only read the backend they
    archive: their outcome, the calls they make, the state they leave the
    backend in and the archive they write depend on the backend through
    [List] and [Download] only. *)
Theorem Archive_only_reads fuel (service service' : Service W) URL w writer
    predicate :
  (forall url w, List service url w = List service' url w) ->
  (forall o w, Download service o w = Download service' o w) ->
  Archive URLPathJoin URLSplit fuel service URL w writer =
  Archive URLPathJoin URLSplit fuel service' URL w writer /\
  ArchiveWithFilter URLPathJoin URLSplit fuel service URL w writer predicate =
  ArchiveWithFilter URLPathJoin URLSplit fuel service' URL w writer predicate.
Proof.
  intros HL HD. unfold Archive, ArchiveWithFilter, Copy. split.
  - rewrite (copyStorageContent_ext URLPathJoin (onBackend service)
               (onBackend service') (onScratch memory.service)
               (onScratch memory.service)
               (getArchiveCopyHandler URLSplit destURL)
               (getArchiveCopyHandler URLSplit destURL)); try reflexivity.
    + intros url w0. cbn [onBackend List]. now rewrite HL.
    + intros o w0. cbn [onBackend Download]. now rewrite HD.
  - rewrite (copyStorageContent_ext URLPathJoin (onBackend service)
               (onBackend service') (onScratch memory.service)
               (onScratch memory.service)
               (getArchiveCopyHandlerWithFilter URLSplit destURL predicate)
               (getArchiveCopyHandlerWithFilter URLSplit destURL predicate));
      try reflexivity.
    + intros url w0. cbn [onBackend List]. now rewrite HL.
    + intros o w0. cbn [onBackend Download]. now rewrite HD.
Qed.
End ArchiveUses.

(** ** What a walk touches *)

Section Within.
Context {World : Type}.
Variable URLPathJoin : string -> string -> string.
Variable sourceURL : string.

Local Abbreviation within :=
  (fun (_ : World) evs (_ : World) =>
     Forall (withinSource URLPathJoin sourceURL) evs).

Lemma within_sequential : sequential within.
Proof.
  split; [constructor|]. intros _ e1 _ e2 _ H1 H2. apply Forall_app; auto.
Qed.

Lemma within_copyContent (src dst : Service World) destinationURL modify
    subPath handler object d0 :
  IsContent object = true ->
  tracks within
    (copyContent URLPathJoin src dst destinationURL modify subPath handler
       object d0).
Proof.
  intros Hc. unfold copyContent.
  apply (tracks_bind _ within_sequential).
  { apply tracks_call. intros w. now repeat constructor. }
  intros reader. apply (tracks_bind _ within_sequential).
  { unfold modifyContent. destruct modify as [h|];
      [|apply (tracks_ret _ within_sequential)].
    destruct (ReadAll reader); [|apply (tracks_raise _ within_sequential)].
    apply tracks_call. intros w. now repeat constructor. }
  intros reader'. apply (tracks_bind _ within_sequential).
  { destruct (subPath =? "")%string;
      [|apply (tracks_ret _ within_sequential)].
    unfold topLevelDestination.
    destruct (strings.HasSuffix d0 "/");
      [apply (tracks_ret _ within_sequential)|].
    intros w. unfold events.
    destruct (StorageObject dst d0 w) as [o w']. now repeat constructor. }
  intros u w. unfold invoke, events.
  destruct (handler object reader' dst u w) as [err w'].
  now repeat constructor.
Qed.

Lemma within_copyObjects recurse (src dst : Service World) destinationURL
    modify subPath handler objects rel :
  (forall sub, tracks within (recurse sub)) ->
  tracks within
    (copyObjects URLPathJoin recurse src sourceURL dst destinationURL modify
       subPath handler objects rel).
Proof.
  intros Hrec. revert rel.
  induction objects as [|object rest IH]; intros rel; cbn [copyObjects].
  - apply (tracks_ret _ within_sequential).
  - destruct (skipObject _ _ _ _ _); [apply IH|].
    apply (tracks_bind _ within_sequential); [|intros _; apply IH].
    destruct (IsContent object) eqn:Hc;
      [now apply within_copyContent | apply Hrec].
Qed.

Lemma within_copyStorageContent fuel (src dst : Service World)
    destinationURL modify subPath handler :
  tracks within
    (copyStorageContent URLPathJoin fuel src sourceURL dst destinationURL
       modify subPath handler).
Proof.
  revert subPath. induction fuel as [|fuel IH]; intros subPath;
    cbn [copyStorageContent].
  - intros w. constructor.
  - apply (tracks_bind _ within_sequential).
    + apply tracks_call. intros w. constructor; [|constructor].
      cbn [withinSource]. destruct (negb _); eauto.
    + intros objects. apply within_copyObjects. intros sub. apply IH.
Qed.

(** X8.  [Copy] lists nothing but the source URL and URLs joined to it,
    and it downloads, and passes to the copy handler, nothing but objects
    that say they are content: an object that is not content is at most
    listed. *)
Theorem Copy_stays_within_the_source fuel (src dst : Service World)
    destinationURL modify handler w :
  let x := Copy URLPathJoin fuel src sourceURL dst destinationURL modify
             handler w in
  (forall url r,
     In (EvList url r) (events x) ->
     url = sourceURL \/ exists subPath, url = URLPathJoin sourceURL subPath) /\
  (forall o r, In (EvDownload o r) (events x) -> IsContent o = true) /\
  (forall o r u res,
     In (EvHandler o r u res) (events x) -> IsContent o = true).
Proof.
  cbv zeta.
  destruct (Copy_events URLPathJoin fuel src dst sourceURL destinationURL
              modify handler w) as (h & -> & _).
  pose proof (within_copyStorageContent fuel src dst destinationURL modify ""
                h w) as H.
  cbv beta in H. rewrite Forall_forall in H.
  repeat split; intros; match goal with Hin : In _ _ |- _ =>
    exact (H _ Hin) end.
Qed.
End Within.

(** ** Cutting paths *)

Lemma HasSuffix_slash s :
  strings.HasSuffix s "/" = true -> slice_to (len s - 1) s ++ "/" = s.
Proof.
  unfold strings.HasSuffix. intros H. apply andb_prop in H as [_ H].
  apply String.eqb_eq in H. change (len "/") with 1 in H.
  unfold slice_to, slice_from in *.
  transitivity (take (Z.to_nat (len s - 1)) s
                ++ drop (Z.to_nat (len s - 1)) s);
    [now rewrite H | apply take_drop].
Qed.

Lemma trimTrailingSlash_part s :
  exists b, s = trimTrailingSlash s ++ b /\ (b = "" \/ b = "/").
Proof.
  unfold trimTrailingSlash. destruct (strings.HasSuffix s "/") eqn:H.
  - exists "/". split; [symmetry; now apply HasSuffix_slash | now right].
  - exists "". split; [now rewrite append_nil_r | now left].
Qed.

(** X9.  [urlPath] only cuts: its result is a piece of the URL it is
    given, namely all that follows some position of it, but for one trailing
    separator.  Nothing is decoded, normalised or added. *)
Theorem urlPath_is_a_piece_of_the_URL (URL : string) :
  exists before after,
    URL = before ++ urlPath URL ++ after /\ (after = "" \/ after = "/").
Proof.
  unfold urlPath. cbv zeta.
  set (r1 := if negb (strings.Index URL "://" =? -1)
             then slice_from (strings.Index URL "://" + 3) URL else URL).
  set (r2 := if strings.Index r1 "/" >? 0
             then slice_from (strings.Index r1 "/") r1 else r1).
  fold (trimTrailingSlash r2).
  assert (H1 : exists a, URL = a ++ r1).
  { subst r1. destruct (negb _); [|now exists ""].
    eexists. symmetry. apply take_drop. }
  assert (H2 : exists a, r1 = a ++ r2).
  { subst r2. destruct (_ >? 0); [|now exists ""].
    eexists. symmetry. apply take_drop. }
  destruct H1 as [a1 E1], H2 as [a2 E2].
  destruct (trimTrailingSlash_part r2) as (b & E3 & Hb).
  exists (a1 ++ a2), b. split; [|exact Hb].
  now rewrite <- E3, append_assoc, <- E2.
Qed.

(** X10.  An object whose path is the root's path followed by a separator
    and [rel] has the relative path [rel], whatever the relative path of
    the object before it was; so has an object whose path is the root's
    path directly followed by a non-empty [rel] that does not begin with a
    separator: the length of the root's path is cut off, and one leading
    separator of the rest. *)
Theorem relative_path_below_root (root rel previous : string) :
  nextRelativePath root (root ++ "/" ++ rel) previous = rel /\
  (rel <> "" -> strings.HasPrefix rel "/" = false ->
   nextRelativePath root (root ++ rel) previous = rel).
Proof.
  split.
  - unfold nextRelativePath.
    replace (len (root ++ "/" ++ rel) >? len root) with true.
    + rewrite slice_from_append.
      unfold strings.HasPrefix. rewrite (prefix_append "/").
      apply (slice_from_append "/").
    + symmetry. apply Z.gtb_lt. rewrite !len_append.
      pose proof (len_nonneg rel). change (len "/") with 1. lia.
  - intros Hne Hp. unfold nextRelativePath.
    replace (len (root ++ rel) >? len root) with true.
    + rewrite slice_from_append. now rewrite Hp.
    + symmetry. apply Z.gtb_lt. rewrite len_append.
      destruct rel; [congruence|]. unfold len. cbn [String.length]. lia.
Qed.

Lemma relative_path_below_root_witness :
  nextRelativePath "/src" ("/src" ++ "a.txt") "stale" = "a.txt".
Proof.
  apply (proj2 (relative_path_below_root "/src" "a.txt" "stale"));
    [discriminate | reflexivity].
Defined.

(** ** The tokenizer *)

Lemma len_cons c s : len (String c s) = 1 + len s.
Proof. unfold len. cbn [String.length]. lia. Qed.

Lemma substr_piece (pre rest : string) (n : Z) :
  0 <= n <= len rest ->
  tokenizer.substr (pre ++ rest) (len pre) (len pre + n) =
  Some (slice_to n rest).
Proof.
  intros Hn. unfold tokenizer.substr. pose proof (len_nonneg pre).
  rewrite len_append.
  replace ((0 <=? len pre) && (len pre <=? len pre + n)
           && (len pre + n <=? len pre + len rest)) with true
    by (symmetry; rewrite !andb_true_iff, !Z.leb_le; lia).
  replace (Z.to_nat (len pre)) with (String.length pre)
    by (unfold len; now rewrite Nat2Z.id).
  rewrite drop_append.
  now replace (len pre + n - len pre) with n by lia.
Qed.

Lemma substr_char (pre : string) c (rest : string) :
  tokenizer.substr (pre ++ String c rest) (len pre) (len pre + 1) =
  Some (String c "").
Proof.
  rewrite substr_piece; [reflexivity|].
  rewrite len_cons. pose proof (len_nonneg rest). lia.
Qed.

Lemma substr_rest (pre rest : string) :
  tokenizer.substr (pre ++ rest) (len pre) (len (pre ++ rest)) = Some rest.
Proof.
  rewrite len_append, substr_piece by (pose proof (len_nonneg rest); lia).
  f_equal. rewrite <- (append_nil_r rest) at 2. apply slice_to_append.
Qed.

Lemma substr_outside (s : string) (lo hi : Z) :
  lo < 0 \/ len s < hi -> tokenizer.substr s lo hi = None.
Proof.
  intros H. unfold tokenizer.substr.
  replace ((0 <=? lo) && (lo <=? hi) && (hi <=? len s)) with false;
    [reflexivity|].
  symmetry. rewrite !andb_false_iff, !Z.leb_gt. lia.
Qed.

Lemma substr_inside (s : string) (lo hi : Z) (p : string) :
  tokenizer.substr s lo hi = Some p ->
  0 <= lo <= hi /\ hi <= len s /\
  p = slice_to (hi - lo) (slice_from lo s).
Proof.
  unfold tokenizer.substr.
  destruct ((0 <=? lo) && (lo <=? hi) && (hi <=? len s)) eqn:E;
    [|discriminate].
  rewrite !andb_true_iff, !Z.leb_le in E. intros [= <-]. repeat split; lia.
Qed.

Lemma span_range valid s : 0 <= span valid s <= len s.
Proof.
  induction s as [|c s IH]; cbn [span]; [unfold len; simpl; lia|].
  rewrite len_cons. destruct (valid _); lia.
Qed.

Lemma before_range stop s : 0 <= before stop s <= len s.
Proof.
  induction s as [|c s IH]; cbn [before]; [unfold len; simpl; lia|].
  rewrite len_cons. destruct (stop _); lia.
Qed.

Lemma substr_at (input pre : string) c (rest : string) :
  input = pre ++ String c rest ->
  tokenizer.substr input (len pre) (len pre + 1) = Some (String c "").
Proof. intros ->. apply substr_char. Qed.

Lemma substr_after (input pre done : string) c (rest : string) :
  input = pre ++ done ++ String c rest ->
  tokenizer.substr input (len pre + len done) (len pre + len done + 1) =
  Some (String c "").
Proof.
  intros ->. rewrite <- len_append, <- append_assoc. apply substr_char.
Qed.

Lemma snoc_cons (done : string) c (todo : string) :
  done ++ String c todo = (done ++ String c "") ++ todo.
Proof. now rewrite append_assoc. Qed.

Lemma len_snoc (done : string) c : len (done ++ String c "") = len done + 1.
Proof. now rewrite len_append. Qed.

Lemma scan_span valid (input pre done todo : string) :
  input = pre ++ done ++ todo ->
  tokenizer.scan valid input (len pre) (String.length todo) (len done) =
  Some (len done + span valid todo).
Proof.
  revert done. induction todo as [|c todo IH]; intros done E;
    cbn [String.length tokenizer.scan span].
  - f_equal. lia.
  - rewrite (substr_after _ _ _ _ _ E).
    destruct (valid (String c "")); cbn [negb]; [|f_equal; lia].
    rewrite snoc_cons in E. rewrite <- len_snoc with (c := c).
    rewrite (IH _ E), len_snoc. f_equal. lia.
Qed.

Lemma substr_at_end (pre : string) :
  tokenizer.substr (pre ++ "") (len pre) (len pre + 1) = None.
Proof. apply substr_outside. right. rewrite append_nil_r. lia. Qed.

Lemma scan_rest valid (pre : string) c (rest : string) :
  tokenizer.scan valid (pre ++ String c rest) (len pre)
    (Z.to_nat (len (pre ++ String c rest) - len pre - 1)) 1 =
  Some (1 + span valid rest).
Proof.
  rewrite len_append, len_cons.
  replace (Z.to_nat (len pre + (1 + len rest) - len pre - 1))
    with (String.length rest) by (unfold len; lia).
  apply (scan_span valid _ pre (String c "") rest). reflexivity.
Qed.

(** X11.  Where the input has a digit, [IntMatcher] matches the digits from
    there up to the first character that is not a digit, or to the end of
    the input; where it has another character, nothing.  At the end of the
    input, and outside of it, it panics. *)
Theorem IntMatcher_matches_the_digits :
  (forall pre rest,
     tokenizer.IntMatcher.Match (pre ++ rest) (len pre) =
     if (rest =? "")%string then None
     else Some (span tokenizer.isDigit rest)) /\
  (forall input offset,
     offset < 0 \/ len input < offset ->
     tokenizer.IntMatcher.Match input offset = None).
Proof.
  split.
  - intros pre [|c rest]; unfold tokenizer.IntMatcher.Match.
    + now rewrite substr_at_end.
    + rewrite substr_char, scan_rest. cbn [String.eqb span].
      now destruct (tokenizer.isDigit (String c "")).
  - intros input offset H. unfold tokenizer.IntMatcher.Match.
    rewrite substr_outside; [reflexivity | lia].
Qed.

(** X12.  [LiteralMatcher] matches a letter and the letters, digits,
    underscores and dots that follow it; [IdMatcher] takes a digit in the
    first place as well; the matcher of [NewCustomIdMatcher] matches the
    letters, digits and allowed characters.  Each goes up to the first
    character of another kind or to the end of the input, matches nothing
    where the first character is of another kind, and panics at the end of
    the input. *)
Theorem identifier_matchers_match_the_longest_run (m : tokenizer.customIdMatcher.t)
    (pre rest : string) :
  tokenizer.LiteralMatcher.Match (pre ++ rest) (len pre) =
  match rest with
  | EmptyString => None
  | String c rest' =>
      Some (if tokenizer.isLetter (String c "")
            then 1 + span tokenizer.isLiteralPart rest' else 0)
  end /\
  tokenizer.IdMatcher.Match (pre ++ rest) (len pre) =
  match rest with
  | EmptyString => None
  | String c rest' =>
      Some (if tokenizer.isLetter (String c "")
               || tokenizer.isDigit (String c "")
            then 1 + span tokenizer.isLiteralPart rest' else 0)
  end /\
  tokenizer.customIdMatcher.Match m (pre ++ rest) (len pre) =
  match rest with
  | EmptyString => None
  | String _ _ => Some (span (tokenizer.customIdMatcher.isValid m) rest)
  end.
Proof.
  destruct rest as [|c rest];
    unfold tokenizer.LiteralMatcher.Match, tokenizer.IdMatcher.Match,
      tokenizer.customIdMatcher.Match.
  - now rewrite substr_at_end.
  - rewrite substr_char, !scan_rest. cbn [span]. repeat split.
    + now destruct (tokenizer.isLetter (String c "")).
    + now destruct (tokenizer.isLetter (String c "")),
        (tokenizer.isDigit (String c "")).
    + now destruct (tokenizer.customIdMatcher.isValid m (String c "")).
Qed.

Lemma among_oneOf aChar (before chars : string) :
  tokenizer.CharactersMatcher.among aChar (before ++ chars)
    (String.length chars) (len before) =
  Some (oneOf chars aChar).
Proof.
  revert before. induction chars as [|c chars IH]; intros before;
    cbn [String.length tokenizer.CharactersMatcher.among oneOf];
    [reflexivity|].
  rewrite substr_char. destruct (aChar =? String c "")%string; [reflexivity|].
  rewrite snoc_cons, <- len_snoc with (c := c). apply IH.
Qed.

Lemma among_Chars aChar (chars : string) :
  tokenizer.CharactersMatcher.among aChar chars (Z.to_nat (len chars)) 0 =
  Some (oneOf chars aChar).
Proof.
  replace (Z.to_nat (len chars)) with (String.length chars)
    by (unfold len; lia).
  apply (among_oneOf aChar "" chars).
Qed.

Lemma CharactersMatcher_loop m (input pre done todo : string) (result : Z) :
  input = pre ++ done ++ todo ->
  tokenizer.CharactersMatcher.loop m input (len pre) (String.length todo)
    (len done) result =
  Some (result + span (oneOf (tokenizer.CharactersMatcher.Chars m)) todo).
Proof.
  revert done result. induction todo as [|c todo IH]; intros done result E;
    cbn [String.length tokenizer.CharactersMatcher.loop span].
  - f_equal. lia.
  - rewrite (substr_after _ _ _ _ _ E), among_Chars.
    destruct (oneOf _ (String c "")); [|f_equal; lia].
    rewrite snoc_cons in E. rewrite <- len_snoc with (c := c).
    rewrite (IH _ _ E). f_equal. lia.
Qed.

Lemma CharactersMatcher_span m pre rest :
  tokenizer.CharactersMatcher.Match m (pre ++ rest) (len pre) =
  Some (span (oneOf (tokenizer.CharactersMatcher.Chars m)) rest).
Proof.
  unfold tokenizer.CharactersMatcher.Match. rewrite len_append.
  replace (Z.to_nat (len pre + len rest - len pre))
    with (String.length rest) by (unfold len; lia).
  apply (CharactersMatcher_loop m _ pre "" rest 0). reflexivity.
Qed.

(** X13.  [CharactersMatcher] matches the characters of [Chars] from the
    offset up to the first character that is not among them, or to the end
    of the input; at the end of the input and beyond it matches nothing,
    and does not panic. *)
Theorem CharactersMatcher_matches_the_run (m : tokenizer.CharactersMatcher.t) :
  (forall pre rest,
     tokenizer.CharactersMatcher.Match m (pre ++ rest) (len pre) =
     Some (span (oneOf (tokenizer.CharactersMatcher.Chars m)) rest)) /\
  (forall input offset,
     len input <= offset ->
     tokenizer.CharactersMatcher.Match m input offset = Some 0).
Proof.
  split.
  - apply CharactersMatcher_span.
  - intros input offset H. unfold tokenizer.CharactersMatcher.Match.
    now replace (Z.to_nat (len input - offset)) with O by lia.
Qed.

Lemma substr_tail (input pre done todo : string) :
  input = pre ++ done ++ todo ->
  tokenizer.substr input (len pre + len done) (len input) = Some todo.
Proof.
  intros ->. rewrite <- len_append, <- append_assoc. apply substr_rest.
Qed.

Lemma SequenceMatcher_loop ToLower m (input pre done todo : string) :
  input = pre ++ done ++ todo ->
  tokenizer.SequenceMatcher.loop ToLower m input (len pre)
    (String.length todo) (len done) =
  Some (len done
        + before (tokenizer.SequenceMatcher.hasTerminator ToLower m) todo).
Proof.
  revert done. induction todo as [|c todo IH]; intros done E;
    cbn [String.length tokenizer.SequenceMatcher.loop before].
  - f_equal. lia.
  - rewrite (substr_tail _ _ _ _ E).
    destruct (tokenizer.SequenceMatcher.hasTerminator _ _ _);
      [f_equal; lia|].
    rewrite snoc_cons in E. rewrite <- len_snoc with (c := c).
    rewrite (IH _ E), len_snoc. f_equal. lia.
Qed.

Lemma before_first stop (s : string) :
  (forall j, 0 <= j < before stop s -> stop (slice_from j s) = false) /\
  (before stop s < len s -> stop (slice_from (before stop s) s) = true).
Proof.
  induction s as [|c s [IH1 IH2]]; cbn [before].
  - split; [lia | unfold len; simpl; lia].
  - destruct (stop (String c s)) eqn:Hs.
    + split; [lia | intros _; exact Hs].
    + pose proof (before_range stop s) as Hr. split.
      * intros j Hj. destruct (Z.eq_dec j 0) as [->|Hne]; [exact Hs|].
        unfold slice_from. replace (Z.to_nat j) with (S (Z.to_nat (j - 1)))
          by lia.
        cbn [drop]. apply IH1. lia.
      * rewrite len_cons. intros Hlt. unfold slice_from.
        replace (Z.to_nat (1 + before stop s))
          with (S (Z.to_nat (before stop s))) by lia.
        cbn [drop]. apply IH2. lia.
Qed.

Lemma slice_to_prefix (k s : string) :
  len k <= len s -> (k =? slice_to (len k) s)%string = String.prefix k s.
Proof.
  unfold slice_to, len. rewrite Nat2Z.id. intros H.
  assert (H' : (String.length k <= String.length s)%nat) by lia. clear H.
  revert s H'. induction k as [|c k IH]; intros s H'.
  - now rewrite prefix_nil.
  - destruct s as [|d s]; cbn [String.length] in H'; [lia|].
    cbn [String.length take]. rewrite prefix_cons. cbn [String.eqb].
    destruct (Ascii.eqb c d); [apply IH; lia | reflexivity].
Qed.

Lemma prefix_longer (k s : string) :
  len s < len k -> String.prefix k s = false.
Proof.
  intros H. destruct (String.prefix k s) eqn:E; [|reflexivity].
  apply prefix_split in E as [r ->]. rewrite len_append in H.
  pose proof (len_nonneg r). lia.
Qed.

Lemma hasTerminatorIn_exact ToLower terminators candidate :
  tokenizer.SequenceMatcher.hasTerminatorIn ToLower true terminators
    candidate =
  existsb (strings.HasPrefix candidate) terminators.
Proof.
  induction terminators as [|k terminators IH];
    cbn [tokenizer.SequenceMatcher.hasTerminatorIn existsb negb andb];
    [reflexivity|].
  unfold strings.HasPrefix at 1.
  destruct (Z.gtb_spec (len k) (len candidate)) as [Hgt|Hle].
  - now rewrite prefix_longer by lia.
  - rewrite slice_to_prefix by lia.
    destruct (String.prefix k candidate); [reflexivity | exact IH].
Qed.

Lemma SequenceMatcher_before ToLower m pre rest :
  tokenizer.SequenceMatcher.Match ToLower m (pre ++ rest) (len pre) =
  Some (before (tokenizer.SequenceMatcher.hasTerminator ToLower m) rest).
Proof.
  unfold tokenizer.SequenceMatcher.Match. rewrite len_append.
  replace (Z.to_nat (len pre + len rest - len pre))
    with (String.length rest) by (unfold len; lia).
  apply (SequenceMatcher_loop ToLower m _ pre "" rest). reflexivity.
Qed.

(** X14.  [SequenceMatcher] matches the input from the offset up to the
    first position at which a terminator is found, or to the end of the
    input if there is none; it does not panic inside the input.  With
    [CaseSensitive] set a terminator is found where the rest of the input
    begins with one of the terminators. *)
Theorem SequenceMatcher_stops_at_first_terminator
    (ToLower : string -> string) (m : tokenizer.SequenceMatcher.t)
    (pre rest : string) :
  (exists n,
     tokenizer.SequenceMatcher.Match ToLower m (pre ++ rest) (len pre) =
     Some n /\
     0 <= n <= len rest /\
     (forall j,
        0 <= j < n ->
        tokenizer.SequenceMatcher.hasTerminator ToLower m (slice_from j rest)
        = false) /\
     (n < len rest ->
      tokenizer.SequenceMatcher.hasTerminator ToLower m (slice_from n rest)
      = true)) /\
  (tokenizer.SequenceMatcher.CaseSensitive m = true ->
   forall candidate,
     tokenizer.SequenceMatcher.hasTerminator ToLower m candidate =
     existsb (strings.HasPrefix candidate)
       (tokenizer.SequenceMatcher.Terminators m)).
Proof.
  split.
  - exists (before (tokenizer.SequenceMatcher.hasTerminator ToLower m) rest).
    split; [|split; [apply before_range | apply before_first]].
    apply SequenceMatcher_before.
  - intros Hc candidate. unfold tokenizer.SequenceMatcher.hasTerminator.
    rewrite Hc. apply hasTerminatorIn_exact.
Qed.

Lemma eqb_sym_string (a b : string) : (a =? b)%string = (b =? a)%string.
Proof. apply String.eqb_sym. Qed.

Lemma KeywordsMatcher_loop ToLower keywords pre rest :
  tokenizer.KeywordsMatcher.loop ToLower true keywords (pre ++ rest)
    (len pre) =
  Some match find (strings.HasPrefix rest) keywords with
       | Some keyword => len keyword
       | None => 0
       end.
Proof.
  induction keywords as [|k keywords IH];
    cbn [tokenizer.KeywordsMatcher.loop find]; [reflexivity|].
  rewrite len_append. unfold strings.HasPrefix at 1.
  replace (len pre + len rest - len pre) with (len rest) by lia.
  destruct (Z.ltb_spec (len rest) (len k)) as [Hlt|Hle].
  - now rewrite prefix_longer.
  - rewrite substr_piece by (pose proof (len_nonneg k); lia).
    rewrite eqb_sym_string, slice_to_prefix by lia.
    now destruct (String.prefix k rest).
Qed.

(** X15.  With [CaseSensitive] set, [KeywordMatcher] matches the keyword
    where the input has it at the offset and nothing elsewhere, also where
    the input is too short for it; [KeywordsMatcher] matches the first
    keyword, in the order given, that the input has at the offset, which
    need not be the longest.  Neither panics at any position of the
    input. *)
Theorem keyword_matchers_match_at_the_offset (ToLower : string -> string)
    (pre rest : string) :
  (forall m,
     tokenizer.KeywordMatcher.CaseSensitive m = true ->
     tokenizer.KeywordMatcher.Match ToLower m (pre ++ rest) (len pre) =
     Some (if strings.HasPrefix rest (tokenizer.KeywordMatcher.Keyword m)
           then len (tokenizer.KeywordMatcher.Keyword m) else 0)) /\
  (forall m,
     tokenizer.KeywordsMatcher.CaseSensitive m = true ->
     tokenizer.KeywordsMatcher.Match ToLower m (pre ++ rest) (len pre) =
     Some match find (strings.HasPrefix rest)
                  (tokenizer.KeywordsMatcher.Keywords m) with
          | Some keyword => len keyword
          | None => 0
          end).
Proof.
  split; intros m Hc.
  - unfold tokenizer.KeywordMatcher.Match, strings.HasPrefix. rewrite Hc.
    set (k := tokenizer.KeywordMatcher.Keyword m). rewrite len_append.
    destruct (Z.ltb_spec (len pre + len k - 1) (len pre + len rest))
      as [Hlt|Hge]; cbn [negb].
    + rewrite substr_piece by (pose proof (len_nonneg k); lia).
      rewrite eqb_sym_string, slice_to_prefix by lia.
      now destruct (String.prefix k rest).
    + now rewrite prefix_longer by lia.
  - unfold tokenizer.KeywordsMatcher.Match. rewrite Hc.
    apply KeywordsMatcher_loop.
Qed.

(** ** No matcher reaches beyond the input *)

Lemma substr_defined (s : string) (lo hi : Z) :
  0 <= lo <= hi -> hi <= len s -> exists p, tokenizer.substr s lo hi = Some p.
Proof.
  intros H1 H2. unfold tokenizer.substr.
  replace ((0 <=? lo) && (lo <=? hi) && (hi <=? len s)) with true
    by (symmetry; rewrite !andb_true_iff, !Z.leb_le; lia).
  eauto.
Qed.

Lemma BodyMatcher_loop m (input pre rest : string) n i depth :
  input = pre ++ rest -> 1 <= i -> Z.of_nat n + i = len rest ->
  exists r,
    tokenizer.BodyMatcher.loop m input (len pre) n i depth = Some r /\
    0 <= r <= len rest.
Proof.
  intros E. revert i depth.
  assert (Hlen : len input = len pre + len rest)
    by (now rewrite E, len_append).
  pose proof (len_nonneg pre) as Hpre.
  pose proof (len_nonneg (tokenizer.BodyMatcher.Begin m)) as Hb.
  pose proof (len_nonneg (tokenizer.BodyMatcher.End_ m)) as He.
  induction n as [|n IH]; intros i depth Hi Hn;
    cbn [tokenizer.BodyMatcher.loop].
  - exists i. split; [reflexivity | lia].
  - cbv zeta.
    destruct (Z.leb_spec
                (len pre + i + len (tokenizer.BodyMatcher.End_ m))
                (len input)) as [Hend|Hend]; cbn [negb];
      [|exists 0; split; [reflexivity | lia]].
    assert (Hdepth : exists d,
              (if negb (tokenizer.BodyMatcher.Begin m
                        =? tokenizer.BodyMatcher.End_ m)%string
               then
                 if len pre + i + len (tokenizer.BodyMatcher.Begin m)
                    <=? len input
                 then
                   match
                     tokenizer.substr input (len pre + i)
                       (len pre + i + len (tokenizer.BodyMatcher.Begin m))
                   with
                   | Some piece =>
                       Some (if (piece =? tokenizer.BodyMatcher.Begin m)%string
                             then depth + 1 else depth)
                   | None => None
                   end
                 else Some depth
               else Some depth) = Some d).
    { destruct (negb _); [|eauto].
      destruct (Z.leb_spec
                  (len pre + i + len (tokenizer.BodyMatcher.Begin m))
                  (len input)) as [Hbegin|Hbegin]; [|eauto].
      destruct (substr_defined input (len pre + i)
                  (len pre + i + len (tokenizer.BodyMatcher.Begin m)))
        as [p ->]; eauto; lia. }
    destruct Hdepth as [d ->].
    destruct (substr_defined input (len pre + i)
                (len pre + i + len (tokenizer.BodyMatcher.End_ m)))
      as [p ->]; [lia | lia |].
    destruct (_ =? 0).
    + eexists. split; [reflexivity | lia].
    + apply IH; lia.
Qed.

Lemma KeywordsMatcher_bound ToLower caseSensitive keywords pre rest :
  exists n,
    tokenizer.KeywordsMatcher.loop ToLower caseSensitive keywords
      (pre ++ rest) (len pre) = Some n /\
    0 <= n <= len rest.
Proof.
  pose proof (len_nonneg rest) as Hr.
  induction keywords as [|k keywords IH];
    cbn [tokenizer.KeywordsMatcher.loop].
  - exists 0. split; [reflexivity | lia].
  - rewrite len_append.
    replace (len pre + len rest - len pre) with (len rest) by lia.
    destruct (Z.ltb_spec (len rest) (len k)) as [Hlt|Hle]; [exact IH|].
    pose proof (len_nonneg k).
    rewrite substr_piece by lia.
    destruct caseSensitive; destruct (_ =? _)%string; try exact IH;
      eexists; (split; [reflexivity | lia]).
Qed.

(** X16.  Before the end of an input none of the matchers of the package
    panics, and none matches more than what is left of the input, whatever
    its parameters are: not the matchers of characters, numbers,
    identifiers and keywords, of sequences, bodies and the remaining input,
    nor the end-of-input matcher. *)
Theorem matchers_stay_inside_the_input (ToLower : string -> string) :
  (forall m, inBounds (tokenizer.CharactersMatcher.Match m)) /\
  inBounds tokenizer.EOFMatcher.Match /\
  inBounds tokenizer.IntMatcher.Match /\
  inBounds tokenizer.LiteralMatcher.Match /\
  inBounds tokenizer.IdMatcher.Match /\
  (forall m, inBounds (tokenizer.customIdMatcher.Match m)) /\
  (forall m, inBounds (tokenizer.SequenceMatcher.Match ToLower m)) /\
  inBounds tokenizer.remainingSequenceMatcher.Match /\
  (forall m, inBounds (tokenizer.BodyMatcher.Match m)) /\
  (forall m, inBounds (tokenizer.KeywordMatcher.Match ToLower m)) /\
  (forall m, inBounds (tokenizer.KeywordsMatcher.Match ToLower m)).
Proof.
  unfold inBounds.
  repeat match goal with |- _ /\ _ => split end; intros;
    match goal with
    | H : ?r <> "" |- _ => destruct r as [|c rest]; [congruence | clear H]
    end;
    pose proof (len_nonneg rest) as Hr.
  - eexists. split; [apply CharactersMatcher_span | apply span_range].
  - unfold tokenizer.EOFMatcher.Match. rewrite len_cons.
    destruct (_ =? _); eexists; (split; [reflexivity | lia]).
  - unfold tokenizer.IntMatcher.Match. rewrite substr_char, scan_rest.
    pose proof (span_range tokenizer.isDigit rest). rewrite len_cons.
    destruct (negb _); eexists; (split; [reflexivity | lia]).
  - unfold tokenizer.LiteralMatcher.Match. rewrite substr_char, scan_rest.
    pose proof (span_range tokenizer.isLiteralPart rest). rewrite len_cons.
    destruct (negb _); eexists; (split; [reflexivity | lia]).
  - unfold tokenizer.IdMatcher.Match. rewrite substr_char, scan_rest.
    pose proof (span_range tokenizer.isLiteralPart rest). rewrite len_cons.
    destruct (_ && _); eexists; (split; [reflexivity | lia]).
  - unfold tokenizer.customIdMatcher.Match. rewrite substr_char, scan_rest.
    pose proof (span_range (tokenizer.customIdMatcher.isValid m) rest).
    rewrite len_cons.
    destruct (negb _); eexists; (split; [reflexivity | lia]).
  - eexists. split; [apply SequenceMatcher_before | apply before_range].
  - exists (len (String c rest)). split; [|lia].
    unfold tokenizer.remainingSequenceMatcher.Match. rewrite len_append.
    f_equal. lia.
  - unfold tokenizer.BodyMatcher.Match. cbv zeta.
    pose proof (len_nonneg (tokenizer.BodyMatcher.Begin m)) as Hb.
    pose proof (len_nonneg pre) as Hp.
    rewrite len_append.
    destruct (Z.geb_spec (len pre + len (tokenizer.BodyMatcher.Begin m))
                (len pre + len (String c rest))) as [Hge|Hlt].
    { exists 0. split; [reflexivity|]. rewrite len_cons. lia. }
    rewrite substr_piece by lia.
    destruct (negb _).
    { exists 0. split; [reflexivity|]. rewrite len_cons. lia. }
    destruct (BodyMatcher_loop m (pre ++ String c rest) pre (String c rest)
                (Z.to_nat (len pre + len (String c rest) - len pre - 1)) 1 1)
      as (r & E & Hrange); [reflexivity | lia | rewrite len_cons; lia |].
    exists r. split; [exact E | lia].
  - unfold tokenizer.KeywordMatcher.Match. rewrite len_append.
    pose proof (len_nonneg (tokenizer.KeywordMatcher.Keyword m)) as Hk.
    destruct (Z.ltb_spec
                (len pre + len (tokenizer.KeywordMatcher.Keyword m) - 1)
                (len pre + len (String c rest))) as [Hlt|Hge]; cbn [negb].
    + rewrite substr_piece by lia.
      destruct (tokenizer.KeywordMatcher.CaseSensitive m);
        destruct (_ =? _)%string; eexists;
        (split; [reflexivity | rewrite ?len_cons in *; lia]).
    + exists 0. split; [reflexivity | rewrite len_cons; lia].
  - destruct (KeywordsMatcher_bound ToLower
                (tokenizer.KeywordsMatcher.CaseSensitive m)
                (tokenizer.KeywordsMatcher.Keywords m) pre (String c rest))
      as (n & E & Hn).
    exists n. split; [exact E | lia].
Qed.

(** ** The scanner *)

Lemma drop_drop n m s : drop n (drop m s) = drop (m + n) s.
Proof.
  revert s. induction m as [|m IH]; intros s; [reflexivity|].
  destruct s as [|c s]; cbn [drop Nat.add]; [now destruct n | apply IH].
Qed.

Lemma length_take n s :
  (n <= String.length s)%nat -> String.length (take n s) = n.
Proof.
  revert s. induction n as [|n IH]; intros [|c s] H;
    cbn [take String.length] in *; try lia.
  rewrite IH; lia.
Qed.

Lemma substr_split (s : string) (lo hi : Z) (p : string) :
  tokenizer.substr s lo hi = Some p ->
  exists x y, s = x ++ p ++ y /\ len x = lo /\ len p = hi - lo.
Proof.
  unfold tokenizer.substr.
  destruct ((0 <=? lo) && (lo <=? hi) && (hi <=? len s)) eqn:E;
    [|discriminate].
  rewrite !andb_true_iff, !Z.leb_le in E. destruct E as [[H0 H1] H2].
  intros [= <-].
  exists (take (Z.to_nat lo) s), (drop (Z.to_nat (hi - lo)) (drop (Z.to_nat lo) s)).
  rewrite take_drop, take_drop. split; [reflexivity|].
  assert (Hlen : forall n t, (n <= String.length t)%nat ->
                   len (take n t) = Z.of_nat n).
  { intros n t Hn. unfold len. now rewrite length_take. }
  assert (Hd : String.length (drop (Z.to_nat lo) s)
               = (String.length s - Z.to_nat lo)%nat).
  { rewrite <- (take_drop (Z.to_nat lo) s) at 2.
    rewrite length_append, length_take by (unfold len in H2; lia). lia. }
  unfold len in H2. split.
  - rewrite Hlen; lia.
  - rewrite Hlen; [lia | rewrite Hd; lia].
Qed.

Lemma append_same_length (a b a' b' : string) :
  a ++ b = a' ++ b' -> len a = len a' -> a = a' /\ b = b'.
Proof.
  revert a'. induction a as [|c a IH]; intros [|c' a'] E H;
    rewrite ?len_cons in H; cbn [append] in E.
  - auto.
  - pose proof (len_nonneg a'). change (len "") with 0 in H. lia.
  - pose proof (len_nonneg a). change (len "") with 0 in H. lia.
  - inversion E; subst. destruct (IH a' H2) as [-> ->]; [lia | auto].
Qed.

Lemma substr_append (s : string) (a b c : Z) (p q : string) :
  tokenizer.substr s a b = Some p -> tokenizer.substr s b c = Some q ->
  tokenizer.substr s a c = Some (p ++ q).
Proof.
  intros Hp Hq.
  apply substr_split in Hp as (x & y & E1 & Hx & Hlp).
  apply substr_split in Hq as (x' & y' & E2 & Hx' & Hlq).
  rewrite E1, <- append_assoc in E2.
  apply append_same_length in E2 as [<- Ey];
    [|rewrite len_append; lia].
  subst s a. replace c with (len x + len (p ++ q))
    by (rewrite len_append; lia).
  rewrite Ey, <- (append_assoc p q y'), substr_piece.
  - f_equal. apply slice_to_append.
  - rewrite (len_append (p ++ q) y'). pose proof (len_nonneg (p ++ q)).
    pose proof (len_nonneg y'). lia.
Qed.

Lemma substr_empty (s : string) (a : Z) :
  0 <= a <= len s -> tokenizer.substr s a a = Some "".
Proof.
  intros H. unfold tokenizer.substr.
  replace ((0 <=? a) && (a <=? a) && (a <=? len s)) with true
    by (symmetry; rewrite !andb_true_iff, !Z.leb_le; lia).
  now rewrite Z.sub_diag.
Qed.

Lemma movedOn_refl t : positioned t -> movedOn t t.
Proof. intros H. split; [now destruct t | unfold positioned in H; lia]. Qed.

Lemma movedOn_trans a b c : movedOn a b -> movedOn b c -> movedOn a c.
Proof.
  intros [Eb Hb] [Ec Hc]. rewrite Eb in Ec, Hc. cbn in Ec, Hc.
  split; [exact Ec | lia].
Qed.

Lemma movedOn_positioned t t' : positioned t -> movedOn t t' -> positioned t'.
Proof.
  intros H [E Hr]. unfold positioned in *.
  assert (Hin : tokenizer.Input t' = tokenizer.Input t) by now rewrite E.
  rewrite Hin. lia.
Qed.

Lemma Next_moves t candidate token t' :
  positioned t ->
  tokenizer.Next t candidate = Some (token, t') ->
  movedOn t t' /\
  tokenizer.substr (tokenizer.Input t) (tokenizer.Index t)
    (tokenizer.Index t') = Some (tokenizer.Matched token) /\
  (tokenizer.Index t < tokenizer.Index t' ->
   tokenizer.Token_ token = candidate) /\
  (tokenizer.Index t' = tokenizer.Index t ->
   tokenizer.Token_ token = tokenizer.InvalidToken t \/
   tokenizer.Token_ token = tokenizer.EndOfFileToken t).
Proof.
  intros Hpos. unfold tokenizer.Next. cbv zeta.
  destruct (negb _).
  { intros [= <- <-]. cbn. repeat split; try apply Hpos;
      [now destruct t | unfold positioned in Hpos; lia
      | now apply substr_empty | lia | auto]. }
  destruct (candidate =? _).
  { intros [= <- <-]. cbn. repeat split; try apply Hpos;
      [now destruct t | unfold positioned in Hpos; lia
      | now apply substr_empty | lia | auto]. }
  destruct (tokenizer.matchers t candidate) as [matcher|]; [|discriminate].
  destruct (matcher _ _) as [matchedSize|]; [|discriminate].
  destruct (Z.gtb_spec matchedSize 0) as [Hgt|Hle].
  - destruct (tokenizer.substr _ _ _) as [matched|] eqn:Hs; [|discriminate].
    intros [= <- <-]. cbn. pose proof (substr_inside _ _ _ _ Hs) as Hin.
    repeat split; cbn; try lia; auto.
  - intros [= <- <-]. cbn. repeat split; try apply Hpos;
      [now destruct t | unfold positioned in Hpos; lia
      | now apply substr_empty | lia | auto].
Qed.

Lemma movedOn_same t t' :
  movedOn t t' -> tokenizer.Index t' = tokenizer.Index t -> t' = t.
Proof. intros [E _] H. rewrite E, H. now destruct t. Qed.

Lemma movedOn_fields t t' :
  movedOn t t' ->
  tokenizer.Input t' = tokenizer.Input t /\
  tokenizer.matchers t' = tokenizer.matchers t /\
  tokenizer.InvalidToken t' = tokenizer.InvalidToken t /\
  tokenizer.EndOfFileToken t' = tokenizer.EndOfFileToken t.
Proof. intros [E _]. rewrite E. cbn. auto. Qed.

Lemma Nexts_moves t candidates token t' :
  positioned t ->
  ~ In (tokenizer.InvalidToken t) candidates ->
  tokenizer.Nexts t candidates = Some (token, t') ->
  movedOn t t' /\
  tokenizer.substr (tokenizer.Input t) (tokenizer.Index t)
    (tokenizer.Index t') = Some (tokenizer.Matched token) /\
  (tokenizer.Token_ token = tokenizer.InvalidToken t ->
   tokenizer.Index t' = tokenizer.Index t).
Proof.
  revert t. induction candidates as [|c candidates IH]; intros t Hpos Hnot;
    cbn [tokenizer.Nexts].
  - intros [= <- <-]. cbn. split; [now apply movedOn_refl|].
    split; [now apply substr_empty | reflexivity].
  - destruct (tokenizer.Next t c) as [[result t1]|] eqn:HN; [|discriminate].
    destruct (Next_moves _ _ _ _ Hpos HN) as (Hm & Hs & Hc & _).
    destruct (movedOn_fields _ _ Hm) as (_ & _ & Hinv & _).
    rewrite Hinv.
    destruct (Z.eqb_spec (tokenizer.Token_ result) (tokenizer.InvalidToken t))
      as [Heq|Hne]; cbn [negb].
    + assert (Hidx : tokenizer.Index t1 = tokenizer.Index t).
      { destruct Hm as [_ Hr].
        destruct (Z.eq_dec (tokenizer.Index t1) (tokenizer.Index t)); auto.
        exfalso. apply Hnot. left. rewrite <- Heq. symmetry. apply Hc. lia. }
      rewrite (movedOn_same _ _ Hm Hidx). apply IH; auto.
      intros Hin. apply Hnot. now right.
    + intros [= <- <-]. repeat split; try apply Hm; auto.
      intros Heq. contradiction.
Qed.

Lemma tokens_moves t calls toks t' :
  positioned t ->
  Forall (fun candidates => ~ In (tokenizer.InvalidToken t) candidates)
    calls ->
  tokens t calls = Some (toks, t') ->
  movedOn t t' /\
  tokenizer.substr (tokenizer.Input t) (tokenizer.Index t)
    (tokenizer.Index t') = Some (matchedText toks).
Proof.
  revert t toks. induction calls as [|candidates calls IH];
    intros t toks Hpos Hall; cbn [tokens].
  - intros [= <- <-]. cbn. split; [now apply movedOn_refl|].
    now apply substr_empty.
  - inversion Hall as [|? ? Hc Hcs]; subst.
    destruct (tokenizer.Nexts t candidates) as [[token t1]|] eqn:HN;
      [|discriminate].
    destruct (Nexts_moves _ _ _ _ Hpos Hc HN) as (Hm & Hs & _).
    destruct (movedOn_fields _ _ Hm) as (Hin & _ & Hinv & _).
    destruct (tokens t1 calls) as [[rest t2]|] eqn:HT; [|discriminate].
    intros [= <- <-].
    destruct (IH t1 rest (movedOn_positioned _ _ Hpos Hm)) as (Hm' & Hs').
    { now rewrite Hinv. }
    { exact HT. }
    split; [eapply movedOn_trans; eauto|].
    cbn [matchedText]. rewrite Hin in Hs'.
    eapply substr_append; eauto.
Qed.

(** X17.  A call of [Next] that returns leaves the tokenizer at a position of
    the input not before the one it was at, with nothing else changed, and
    the text of the token returned is exactly the input between the two
    positions.  If the position has moved the token is the candidate's; if
    not, it is the invalid token or the end-of-input token. *)
Theorem Next_returns_what_it_consumes t candidate token t' :
  positioned t ->
  tokenizer.Next t candidate = Some (token, t') ->
  movedOn t t' /\
  tokenizer.substr (tokenizer.Input t) (tokenizer.Index t)
    (tokenizer.Index t') = Some (tokenizer.Matched token) /\
  (tokenizer.Index t < tokenizer.Index t' ->
   tokenizer.Token_ token = candidate) /\
  (tokenizer.Index t' = tokenizer.Index t ->
   tokenizer.Token_ token = tokenizer.InvalidToken t \/
   tokenizer.Token_ token = tokenizer.EndOfFileToken t).
Proof. apply Next_moves. Qed.

(** X18.  When the invalid token is not among the candidates, a call of
    [Nexts] that returns the invalid token leaves the tokenizer where it
    was, and in any case the text of the token returned is exactly the
    input between the position before the call and the position after
    it. *)
Theorem Nexts_that_fails_stays t candidates token t' :
  positioned t ->
  ~ In (tokenizer.InvalidToken t) candidates ->
  tokenizer.Nexts t candidates = Some (token, t') ->
  movedOn t t' /\
  tokenizer.substr (tokenizer.Input t) (tokenizer.Index t)
    (tokenizer.Index t') = Some (tokenizer.Matched token) /\
  (tokenizer.Token_ token = tokenizer.InvalidToken t ->
   t' = t /\ tokenizer.Matched token = "").
Proof.
  intros Hpos Hnot HN.
  destruct (Nexts_moves _ _ _ _ Hpos Hnot HN) as (Hm & Hs & Hi).
  split; [exact Hm|]. split; [exact Hs|]. intros Heq. split.
  - apply movedOn_same; auto.
  - rewrite (Hi Heq) in Hs.
    rewrite substr_empty in Hs by apply Hpos. congruence.
Qed.

(** X19.  The tokens returned by a series of [Nexts] calls on a new
    tokenizer, none of them with the invalid token among its candidates,
    make up the input from its start to the position the tokenizer is left
    at: put together, their texts are that part of the input, with nothing
    skipped and nothing read twice. *)
Theorem tokens_make_up_the_input input invalidToken endOfFileToken matcher
    calls toks t' :
  Forall (fun candidates => ~ In invalidToken candidates) calls ->
  tokens (tokenizer.NewTokenizer input invalidToken endOfFileToken matcher)
    calls = Some (toks, t') ->
  tokenizer.substr input 0 (tokenizer.Index t') = Some (matchedText toks).
Proof.
  intros Hall HT.
  apply (tokens_moves
           (tokenizer.NewTokenizer input invalidToken endOfFileToken matcher)
           calls toks t'); auto.
  unfold positioned. cbn. pose proof (len_nonneg input). lia.
Qed.

(** X20.  At the end of the input [Next] returns the end-of-input token for
    every candidate, registered or not, and so does [Nexts] for any
    candidates, unless that token is the invalid one; the tokenizer stays
    as it is.  Before the end of the input the end-of-input token, taken
    as a candidate, gives the invalid token: a matcher registered for it
    is never asked. *)
Theorem end_of_input_token t candidate :
  (len (tokenizer.Input t) <= tokenizer.Index t ->
   tokenizer.Next t candidate =
   Some ({| tokenizer.Token_ := tokenizer.EndOfFileToken t;
            tokenizer.Matched := "" |}, t) /\
   forall candidates,
     tokenizer.EndOfFileToken t <> tokenizer.InvalidToken t ->
     tokenizer.Nexts t (candidate :: candidates) =
     Some ({| tokenizer.Token_ := tokenizer.EndOfFileToken t;
              tokenizer.Matched := "" |}, t)) /\
  (tokenizer.Index t < len (tokenizer.Input t) ->
   tokenizer.Next t (tokenizer.EndOfFileToken t) =
   Some ({| tokenizer.Token_ := tokenizer.InvalidToken t;
            tokenizer.Matched := "" |}, t)).
Proof.
  split; intros H.
  - assert (HN : tokenizer.Next t candidate =
                 Some ({| tokenizer.Token_ := tokenizer.EndOfFileToken t;
                          tokenizer.Matched := "" |}, t)).
    { unfold tokenizer.Next. cbv zeta.
      now destruct (Z.ltb_spec (tokenizer.Index t) (len (tokenizer.Input t)));
        [lia|]. }
    split; [exact HN|]. intros candidates Hne. cbn [tokenizer.Nexts].
    rewrite HN. cbn [tokenizer.Token_].
    now destruct (Z.eqb_spec (tokenizer.EndOfFileToken t)
                    (tokenizer.InvalidToken t)).
  - unfold tokenizer.Next. cbv zeta.
    destruct (Z.ltb_spec (tokenizer.Index t) (len (tokenizer.Input t)));
      [|lia].
    cbn [negb]. now rewrite Z.eqb_refl.
Qed.

Lemma split_at (s : string) (i : Z) :
  0 <= i <= len s ->
  exists pre rest, s = pre ++ rest /\ len pre = i.
Proof.
  intros H. exists (take (Z.to_nat i) s), (drop (Z.to_nat i) s).
  split; [symmetry; apply take_drop|].
  unfold len in *. rewrite length_take; lia.
Qed.

Lemma Next_defined t candidate m :
  positioned t ->
  tokenizer.matchers t candidate = Some m -> inBounds m ->
  exists token t', tokenizer.Next t candidate = Some (token, t').
Proof.
  intros Hpos Hm Hin. unfold tokenizer.Next. cbv zeta.
  destruct (Z.ltb_spec (tokenizer.Index t) (len (tokenizer.Input t)))
    as [Hlt|Hge]; cbn [negb]; [|eauto].
  destruct (candidate =? _); [eauto|]. rewrite Hm.
  destruct (split_at (tokenizer.Input t) (tokenizer.Index t) Hpos)
    as (pre & rest & E & Hlen).
  assert (Hne : rest <> "").
  { intros ->. rewrite E, append_nil_r in Hlt. lia. }
  destruct (Hin pre rest Hne) as (n & Hn & Hle).
  rewrite E, <- Hlen, Hn.
  destruct (Z.gtb_spec n 0); [|eauto].
  rewrite substr_piece by lia. eauto.
Qed.

(** X21.  A tokenizer whose index is a position of its input does not
    panic in [Nexts] when every candidate is the end-of-input token or has
    a registered matcher that stays inside the input; the call returns and
    leaves the index at a position of the input.  Before the end of the
    input a candidate without a registered matcher, other than the
    end-of-input token, makes [Next] panic. *)
Theorem Nexts_does_not_panic t candidates :
  (positioned t ->
   Forall (fun candidate =>
             candidate = tokenizer.EndOfFileToken t \/
             exists m,
               tokenizer.matchers t candidate = Some m /\ inBounds m)
     candidates ->
   exists token t',
     tokenizer.Nexts t candidates = Some (token, t') /\ positioned t') /\
  (forall candidate,
     tokenizer.Index t < len (tokenizer.Input t) ->
     candidate <> tokenizer.EndOfFileToken t ->
     tokenizer.matchers t candidate = None ->
     tokenizer.Next t candidate = None).
Proof.
  split.
  - revert t. induction candidates as [|c candidates IH]; intros t Hpos Hall;
      cbn [tokenizer.Nexts]; [eauto|].
    inversion Hall as [|? ? Hc Hcs]; subst.
    assert (HN : exists token t1, tokenizer.Next t c = Some (token, t1)).
    { destruct Hc as [->|(m & Hm & Hin)]; [|eapply Next_defined; eauto].
      unfold tokenizer.Next. cbv zeta. destruct (negb _); [eauto|].
      rewrite Z.eqb_refl. eauto. }
    destruct HN as (token & t1 & HN). rewrite HN.
    destruct (Next_moves _ _ _ _ Hpos HN) as (Hm & _).
    pose proof (movedOn_positioned _ _ Hpos Hm) as Hpos1.
    destruct (negb _); [eauto|]. apply IH; auto.
    destruct (movedOn_fields _ _ Hm) as (_ & Hms & _ & Heof).
    rewrite Heof, Hms. exact Hcs.
  - intros candidate Hlt Hne Hnone. unfold tokenizer.Next. cbv zeta.
    destruct (Z.ltb_spec (tokenizer.Index t) (len (tokenizer.Input t)));
      [|lia].
    cbn [negb]. destruct (Z.eqb_spec candidate (tokenizer.EndOfFileToken t));
      [contradiction|].
    now rewrite Hnone.
Qed.

(** X25.  [EOFMatcher] matches one character where exactly one character
    of the input is left, and nothing anywhere else, the end of the input
    included: registered with a tokenizer, it makes [Next] return the last
    character of the input as the candidate's token. *)
Theorem EOFMatcher_matches_the_last_character :
  (forall pre rest,
     tokenizer.EOFMatcher.Match (pre ++ rest) (len pre) =
     Some (if len rest =? 1 then 1 else 0)) /\
  (forall t candidate pre c,
     tokenizer.Input t = pre ++ String c "" ->
     tokenizer.Index t = len pre ->
     candidate <> tokenizer.EndOfFileToken t ->
     tokenizer.matchers t candidate = Some tokenizer.EOFMatcher.Match ->
     tokenizer.Next t candidate =
     Some ({| tokenizer.Token_ := candidate;
              tokenizer.Matched := String c "" |},
           {| tokenizer.matchers := tokenizer.matchers t;
              tokenizer.Input := tokenizer.Input t;
              tokenizer.Index := len (tokenizer.Input t);
              tokenizer.InvalidToken := tokenizer.InvalidToken t;
              tokenizer.EndOfFileToken := tokenizer.EndOfFileToken t |})).
Proof.
  assert (H : forall pre rest,
            tokenizer.EOFMatcher.Match (pre ++ rest) (len pre) =
            Some (if len rest =? 1 then 1 else 0)).
  { intros pre rest. unfold tokenizer.EOFMatcher.Match. rewrite len_append.
    destruct (Z.eqb_spec (len pre + 1) (len pre + len rest)),
      (Z.eqb_spec (len rest) 1); try reflexivity; lia. }
  split; [exact H|].
  intros t candidate pre c Hin Hidx Hne Hm. unfold tokenizer.Next. cbv zeta.
  rewrite Hm, Hin, Hidx, H, len_append, substr_char.
  change (len (String c "")) with 1.
  destruct (Z.ltb_spec (len pre) (len pre + 1)); [|lia]. cbn [negb].
  destruct (Z.eqb_spec candidate (tokenizer.EndOfFileToken t));
    [contradiction|].
  reflexivity.
Qed.

Lemma char_eqb (c d : ascii) :
  (String c "" =? String d "")%string = (c =? d)%char.
Proof. cbn [String.eqb]. now destruct (c =? d)%char. Qed.

Lemma BodyMatcher_flat (b e : ascii) (input pre done todo post : string) n :
  input = pre ++ done ++ todo ++ String e post ->
  oneOf todo (String b "") = false -> oneOf todo (String e "") = false ->
  (String.length todo < n)%nat ->
  tokenizer.BodyMatcher.loop
    {| tokenizer.BodyMatcher.Begin := String b "";
       tokenizer.BodyMatcher.End_ := String e "" |}
    input (len pre) n (len done) 1 =
  Some (len done + len todo + 1).
Proof.
  pose proof (len_nonneg post) as Hpost.
  revert done n. induction todo as [|c todo IH]; intros done n E Hb He Hn;
    (destruct n as [|n]; [cbn [String.length] in Hn; lia|]);
    cbn [tokenizer.BodyMatcher.loop tokenizer.BodyMatcher.Begin
         tokenizer.BodyMatcher.End_]; cbv zeta;
    change (len (String b "")) with 1; change (len (String e "")) with 1.
  - assert (Hlen : len pre + len done + 1 <= len input)
      by (rewrite E, !len_append, ?len_cons; change (len "") with 0; lia).
    destruct (Z.leb_spec (len pre + len done + 1) (len input)); [|lia].
    cbn [negb]. cbn [append] in E.
    rewrite (substr_after _ _ _ _ _ E), !char_eqb.
    change (len "") with 0.
    destruct (Ascii.eqb_spec b e) as [->|Hne]; cbn [negb].
    + rewrite Ascii.eqb_refl. cbn. f_equal. lia.
    + rewrite Ascii.eqb_refl.
      replace (e =? b)%char with false
        by (symmetry; apply Ascii.eqb_neq; congruence).
      cbn. f_equal. lia.
  - pose proof (len_nonneg todo) as Htodo.
    assert (Hlen : len pre + len done + 1 <= len input)
      by (rewrite E, !len_append, ?len_cons; lia).
    destruct (Z.leb_spec (len pre + len done + 1) (len input)); [|lia].
    cbn [negb]. cbn [append oneOf] in *.
    apply orb_false_iff in Hb as [Hb1 Hb2].
    apply orb_false_iff in He as [He1 He2].
    rewrite char_eqb in Hb1, He1.
    rewrite (substr_after _ _ _ _ _ E), !char_eqb.
    rewrite (Ascii.eqb_sym c b), (Ascii.eqb_sym c e), Hb1, He1.
    replace (if negb (b =? e)%char then Some 1 else Some 1) with (Some 1)
      by now destruct (negb _).
    cbn [Z.eqb].
    rewrite snoc_cons in E. rewrite <- len_snoc with (c := c).
    rewrite (IH _ _ E Hb2 He2) by (cbn [String.length] in Hn; lia).
    rewrite len_snoc, len_cons. f_equal. lia.
Qed.

(** X26.  With single characters for [Begin] and [End], [BodyMatcher]
    matches a body that contains neither of them from its opening
    character through its closing one, whatever follows. *)
Theorem BodyMatcher_matches_a_flat_body (b e : ascii)
    (pre body post : string) :
  oneOf body (String b "") = false -> oneOf body (String e "") = false ->
  tokenizer.BodyMatcher.Match
    {| tokenizer.BodyMatcher.Begin := String b "";
       tokenizer.BodyMatcher.End_ := String e "" |}
    (pre ++ String b "" ++ body ++ String e "" ++ post) (len pre) =
  Some (len body + 2).
Proof.
  intros Hb He. unfold tokenizer.BodyMatcher.Match.
  cbn [tokenizer.BodyMatcher.Begin]. cbv zeta.
  change (len (String b "")) with 1. cbn [append].
  rewrite substr_char, String.eqb_refl. cbn [negb].
  rewrite len_append, len_cons, len_append, len_cons.
  pose proof (len_nonneg body). pose proof (len_nonneg post).
  destruct (Z.geb_spec (len pre + 1)
              (len pre + (1 + (len body + (1 + len post))))); [lia|].
  rewrite (BodyMatcher_flat b e _ pre (String b "") body post);
    [f_equal; change (len (String b "")) with 1; lia | reflexivity
    | exact Hb | exact He | unfold len in *; lia].
Qed.

(** ** Date layouts *)

Lemma prefix_shorter (p q s : string) :
  String.prefix (p ++ q) s = true -> String.prefix p s = true.
Proof.
  intros H. apply prefix_split in H as [r ->]. rewrite append_assoc.
  apply prefix_append.
Qed.

Lemma Index_longer (s p old : string) :
  String.prefix p old = true ->
  strings.Index s p = -1 -> strings.Index s old = -1.
Proof.
  intros Hp. apply prefix_split in Hp as [q ->].
  induction s as [|c s IH]; cbn [strings.Index].
  - destruct (String.prefix p "") eqn:E1; [lia|].
    destruct (String.prefix (p ++ q) "") eqn:E2; [|reflexivity].
    apply prefix_shorter in E2. congruence.
  - destruct (String.prefix p (String c s)) eqn:E1; [lia|].
    destruct (String.prefix (p ++ q) (String c s)) eqn:E2.
    { apply prefix_shorter in E2. congruence. }
    pose proof (Index_range s p). pose proof (Index_range s (p ++ q)).
    destruct (Z.ltb_spec (strings.Index s p) 0); [|lia].
    intros _. rewrite IH by lia. reflexivity.
Qed.

Lemma Replace1_absent (s old new : string) :
  strings.Index s old = -1 -> strings.Replace1 s old new = s.
Proof. intros H. unfold strings.Replace1. now rewrite H. Qed.

(** X22.  A date format in which none of the pattern letters M, a, d, H, h,
    m, s, y, z, Z and E occurs, nor SSS, is its own layout:
    [DateFormatToLayout] returns it as it is. *)
Theorem DateFormatToLayout_keeps_other_text (dateFormat : string) :
  Forall (fun pattern => strings.Contains dateFormat pattern = false)
    datePatterns ->
  timeformat.DateFormatToLayout dateFormat = dateFormat.
Proof.
  intros H. unfold datePatterns in H.
  repeat match goal with
         | H : Forall _ (_ :: _) |- _ =>
             let H1 := fresh "P" in
             let H2 := fresh "H" in
             inversion H as [|? ? H1 H2]; subst; clear H;
             apply Contains_false in H1
         end.
  unfold timeformat.DateFormatToLayout. cbv zeta.
  repeat match goal with
         | |- context [strings.Replace1 dateFormat ?old ?new] =>
             rewrite (Replace1_absent dateFormat old new)
               by match goal with
                  | P : strings.Index dateFormat ?p = -1 |- _ =>
                      apply (Index_longer dateFormat p old);
                      [reflexivity | exact P]
                  end
         end.
  reflexivity.
Qed.

Lemma DateFormatToLayout_keeps_other_text_witness :
  timeformat.DateFormatToLayout "2006-01-02T15:04" = "2006-01-02T15:04".
Proof.
  apply DateFormatToLayout_keeps_other_text.
  repeat constructor.
Defined.

(** X23.  [GetTimeLayout] returns, and does not panic, exactly when
    [HasTimeLayout] holds.  A layout given under "dateLayout" is returned
    as it is, also when a format is given as well; a format given under
    "dateFormat" alone is converted. *)
Theorem HasTimeLayout_guards_GetTimeLayout
    (settings : string -> option string) :
  (timeformat.HasTimeLayout settings = true <->
   exists layout, timeformat.GetTimeLayout settings = Some layout) /\
  (forall layout,
     settings "dateLayout" = Some layout ->
     timeformat.GetTimeLayout settings = Some layout) /\
  (forall format,
     settings "dateLayout" = None -> settings "dateFormat" = Some format ->
     timeformat.GetTimeLayout settings =
     Some (timeformat.DateFormatToLayout format)).
Proof.
  unfold timeformat.HasTimeLayout, timeformat.GetTimeLayout,
    timeformat.DateLayoutKeyword, timeformat.DateFormatKeyword.
  split; [|split].
  - destruct (settings "dateLayout"), (settings "dateFormat"); split;
      intros H; eauto; try discriminate; destruct H; discriminate.
  - intros layout ->. reflexivity.
  - intros format -> ->. reflexivity.
Qed.

Lemma HasTimeLayout_guards_GetTimeLayout_witness :
  timeformat.GetTimeLayout
    (fun key => if (key =? "dateFormat")%string then Some "yyyy-dd"
                else None) =
  Some (timeformat.DateFormatToLayout "yyyy-dd").
Proof.
  apply (proj2 (proj2 (HasTimeLayout_guards_GetTimeLayout
                         (fun key => if (key =? "dateFormat")%string
                                     then Some "yyyy-dd" else None))));
    reflexivity.
Defined.

(** ** Slice iterators *)

Lemma at_middle (done : list string) value (todo : list string) :
  iterator.at_ (done ++ value :: todo) (Z.of_nat (List.length done)) =
  Some value.
Proof.
  unfold iterator.at_. rewrite length_app. cbn [List.length].
  replace ((0 <=? Z.of_nat (List.length done))
           && (Z.of_nat (List.length done)
               <? Z.of_nat (List.length done + S (List.length todo))))
    with true by (symmetry; rewrite andb_true_iff, Z.leb_le, Z.ltb_lt; lia).
  rewrite Nat2Z.id, nth_error_app2 by lia.
  now rewrite Nat.sub_diag.
Qed.

Lemma drain_rest rounds pointer (done todo : list string) :
  pointer <> iterator.OtherPointer ->
  (List.length todo <= rounds)%nat ->
  drain rounds pointer
    {| iterator.sliceValue := (done ++ todo)%list;
       iterator.index := Z.of_nat (List.length done) |} =
  (todo,
   {| iterator.sliceValue := (done ++ todo)%list;
      iterator.index := Z.of_nat (List.length (done ++ todo)) |}).
Proof.
  intros Hp. revert done todo.
  induction rounds as [|rounds IH]; intros done todo Hr.
  - destruct todo; [|cbn in Hr; lia]. cbn [drain]. now rewrite app_nil_r.
  - cbn [drain]. unfold iterator.HasNext, iterator.Next.
    cbn [iterator.sliceValue iterator.index].
    destruct todo as [|value todo].
    + rewrite app_nil_r, Z.ltb_irrefl. reflexivity.
    + rewrite length_app. cbn [List.length] in *.
      replace (Z.of_nat (List.length done)
               <? Z.of_nat (List.length done + S (List.length todo)))
        with true by (symmetry; apply Z.ltb_lt; lia).
      rewrite at_middle.
      replace (Z.of_nat (List.length done) + 1)
        with (Z.of_nat (List.length (done ++ [value])))
        by (rewrite length_app; cbn [List.length]; lia).
      replace (done ++ value :: todo)%list
        with ((done ++ [value]) ++ todo)%list
        by (now rewrite <- app_assoc).
      destruct pointer; try congruence; rewrite IH by lia;
        do 2 f_equal; rewrite !length_app; cbn [List.length]; lia.
Qed.

(** X24.  Calling [Next] with a string or interface pointer for as long as
    [HasNext] holds takes a new iterator over a slice of strings through
    all elements of the slice, each once and in order; after that
    [HasNext] is false, and a further [Next] panics on the index and
    leaves the iterator as it is. *)
Theorem iterator_yields_the_slice (slice : list string) rounds pointer :
  pointer <> iterator.OtherPointer ->
  (List.length slice <= rounds)%nat ->
  let result := drain rounds pointer (iterator.NewSliceIterator slice) in
  fst result = slice /\
  iterator.HasNext (snd result) = false /\
  iterator.Next (snd result) pointer = (None, snd result).
Proof.
  intros Hp Hr. cbv zeta. unfold iterator.NewSliceIterator.
  pose proof (drain_rest rounds pointer [] slice Hp Hr) as E.
  cbn [app List.length] in E. change (Z.of_nat 0) with 0 in E.
  rewrite E. cbn [fst snd].
  split; [reflexivity|].
  unfold iterator.HasNext, iterator.Next, iterator.at_.
  cbn [iterator.sliceValue iterator.index]. rewrite Z.ltb_irrefl.
  now rewrite andb_false_r.
Qed.

Lemma iterator_yields_the_slice_witness :
  fst (drain 3 iterator.StringPointer
         (iterator.NewSliceIterator ["a"; "r"; "c"])) = ["a"; "r"; "c"].
Proof.
  apply (iterator_yields_the_slice ["a"; "r"; "c"] 3 iterator.StringPointer);
    [discriminate | apply le_n].
Defined.


Lemma archive_is_complete_witness :
  let x := Archive toolbox.URLPathJoin path.Split 3 memory.service
             "mem:///src" sampleStore emptyZip in
  exists added,
    zip.entries (archive (final x)) = (zip.entries emptyZip ++ added)%list /\
    Permutation (map (fun e => zip.Info (zip.header e)) added)
      (map FileInfo (filter IsContent (listed (events x)))).
Proof.
  apply (proj1 (archive_is_complete toolbox.URLPathJoin path.Split 3%nat
                  memory.service "mem:///src" sampleStore emptyZip
                  (fun _ => true) eq_refl)).
  - reflexivity.
  - vm_compute. repeat constructor.
Defined.

Lemma broken_writer_is_refused_witness :
  let x := Archive toolbox.URLPathJoin path.Split 3 memory.service
             "mem:///src" sampleStore brokenZip in
  zip.broken (archive (final x)) = Some "closed" /\
  (exists added,
     zip.entries (archive (final x)) = (zip.entries brokenZip ++ added)%list /\
     Forall (fun en => zip.content en = []) added) /\
  (forall o r u res,
     In (EvHandler o r u res) (events x) ->
     res = Some "closed" \/ res = Some zip.errLongName) /\
  (outcome x = Done tt -> handled (events x) = []).
Proof.
  exact (proj1 (broken_writer_is_refused toolbox.URLPathJoin path.Split
                  3%nat memory.service "mem:///src" sampleStore brokenZip
                  (fun _ => true) "closed" eq_refl)).
Defined.

Lemma Copy_error_names_its_cause_witness :
  exists cause,
    "failed to copy mem:///src -> mem:///dst: unable download, mem:///src/a.txt -> mem:///dst/a.txt, not found: mem:///src/a.txt" =
    "failed to copy " ++ "mem:///src" ++ " -> " ++ "mem:///dst" ++ ": "
    ++ cause /\
    explained None
      (events (Copy toolbox.URLPathJoin 2 brokenSource "mem:///src"
                 memory.service "mem:///dst" None None []))
      cause.
Proof.
  apply (proj1 (Copy_error_names_its_cause toolbox.URLPathJoin 2 brokenSource
                  memory.service "mem:///src" "mem:///dst" None None [])).
  reflexivity.
Defined.

Lemma Copy_reads_source_writes_destination_witness :
  Copy toolbox.URLPathJoin 3 memory.service "mem:///src" memory.service
    "mem:///dst" None None sampleStore =
  Copy toolbox.URLPathJoin 3 (readOnly memory.service) "mem:///src"
    memory.service "mem:///dst" None None sampleStore.
Proof.
  apply Copy_reads_source_writes_destination; reflexivity.
Defined.

Lemma Archive_only_reads_witness :
  Archive toolbox.URLPathJoin path.Split 3 memory.service "mem:///src"
    sampleStore emptyZip =
  Archive toolbox.URLPathJoin path.Split 3 (readOnly memory.service)
    "mem:///src" sampleStore emptyZip.
Proof.
  apply (proj1 (Archive_only_reads toolbox.URLPathJoin path.Split 3%nat
                  memory.service (readOnly memory.service) "mem:///src"
                  sampleStore emptyZip (fun _ => true)
                  (fun _ _ => eq_refl) (fun _ _ => eq_refl))).
Defined.

Lemma handler_gets_the_downloaded_stream_witness :
  exists pre' probe,
    [EvList "mem:///src/a.txt" (Ok [file "mem:///src/a.txt" "hello"]);
     EvDownload (file "mem:///src/a.txt" "hello")
       (Ok (NopCloser (text "hello")));
     EvStorageObject "mem:///dst/b.txt" None] =
    (pre' ++ [EvDownload (file "mem:///src/a.txt" "hello")
                (Ok (NopCloser (text "hello")))] ++ probe)%list /\
    (probe = [] \/ exists u' p, probe = [EvStorageObject u' p]).
Proof.
  apply (handler_gets_the_downloaded_stream toolbox.URLPathJoin 2
           memory.service memory.service "mem:///src/a.txt"
           "mem:///dst/b.txt" None [("mem:///src/a.txt", text "hello")]
           _ _ _ "mem:///dst/b.txt" None []).
  reflexivity.
Defined.

Lemma IntMatcher_matches_the_digits_witness :
  tokenizer.IntMatcher.Match ("ab" ++ "123c") (len "ab") = Some 3 /\
  tokenizer.IntMatcher.Match "ab123" 6 = None.
Proof.
  split.
  - exact (proj1 IntMatcher_matches_the_digits "ab" "123c").
  - apply (proj2 IntMatcher_matches_the_digits). right. vm_compute.
    reflexivity.
Defined.

Lemma CharactersMatcher_matches_the_run_witness :
  tokenizer.CharactersMatcher.Match
    {| tokenizer.CharactersMatcher.Chars := " " |} "ab" 2 = Some 0.
Proof.
  apply (proj2 (CharactersMatcher_matches_the_run
                  {| tokenizer.CharactersMatcher.Chars := " " |})).
  vm_compute. discriminate.
Defined.

Lemma SequenceMatcher_stops_at_first_terminator_witness :
  tokenizer.SequenceMatcher.hasTerminator (fun s => s)
    {| tokenizer.SequenceMatcher.Terminators := ["WHERE"; ";"];
       tokenizer.SequenceMatcher.CaseSensitive := true |} ";def" =
  existsb (strings.HasPrefix ";def") ["WHERE"; ";"].
Proof.
  apply (proj2 (SequenceMatcher_stops_at_first_terminator (fun s => s)
                  {| tokenizer.SequenceMatcher.Terminators := ["WHERE"; ";"];
                     tokenizer.SequenceMatcher.CaseSensitive := true |}
                  "" "")).
  reflexivity.
Defined.

Lemma keyword_matchers_match_at_the_offset_witness :
  tokenizer.NewKeywordsMatcher (fun s => s) true ["a"; "ab"] ("x" ++ "ab")
    (len "x") = Some 1.
Proof.
  apply (proj2 (keyword_matchers_match_at_the_offset (fun s => s) "x" "ab")
           {| tokenizer.KeywordsMatcher.Keywords := ["a"; "ab"];
              tokenizer.KeywordsMatcher.CaseSensitive := true |}).
  reflexivity.
Defined.

Lemma Next_returns_what_it_consumes_witness :
  tokenizer.substr "ab 12" 0 2 = Some "ab".
Proof.
  apply (Next_returns_what_it_consumes sampleTokenizer 2
           {| tokenizer.Token_ := 2; tokenizer.Matched := "ab" |}
           {| tokenizer.matchers := sampleMatchers;
              tokenizer.Input := "ab 12"; tokenizer.Index := 2;
              tokenizer.InvalidToken := -1;
              tokenizer.EndOfFileToken := 0 |}).
  - vm_compute. split; discriminate.
  - reflexivity.
Defined.

Lemma Nexts_that_fails_stays_witness :
  movedOn sampleTokenizer sampleTokenizer /\
  tokenizer.substr "ab 12" 0 0 = Some "".
Proof.
  assert (H : positioned sampleTokenizer)
    by (vm_compute; split; discriminate).
  assert (Hnot : ~ In (tokenizer.InvalidToken sampleTokenizer) [1; 3])
    by (vm_compute; intuition discriminate).
  split.
  - exact (proj1 (Nexts_that_fails_stays sampleTokenizer [1; 3]
                    {| tokenizer.Token_ := -1; tokenizer.Matched := "" |}
                    sampleTokenizer H Hnot eq_refl)).
  - exact (proj1 (proj2 (Nexts_that_fails_stays sampleTokenizer [1; 3]
                           {| tokenizer.Token_ := -1;
                              tokenizer.Matched := "" |}
                           sampleTokenizer H Hnot eq_refl))).
Defined.

Lemma tokens_make_up_the_input_witness :
  tokenizer.substr "ab 12" 0 5 =
  Some (matchedText
          [{| tokenizer.Token_ := 2; tokenizer.Matched := "ab" |};
           {| tokenizer.Token_ := 3; tokenizer.Matched := " " |};
           {| tokenizer.Token_ := 1; tokenizer.Matched := "12" |};
           {| tokenizer.Token_ := 0; tokenizer.Matched := "" |}]).
Proof.
  apply (tokens_make_up_the_input "ab 12" (-1) 0 sampleMatchers
           [[1; 2]; [3]; [2; 1]; [1]]
           _
           {| tokenizer.matchers := sampleMatchers;
              tokenizer.Input := "ab 12"; tokenizer.Index := 5;
              tokenizer.InvalidToken := -1;
              tokenizer.EndOfFileToken := 0 |}).
  - repeat constructor; vm_compute; intuition discriminate.
  - reflexivity.
Defined.

Lemma end_of_input_token_witness :
  tokenizer.Next sampleTokenizer (tokenizer.EndOfFileToken sampleTokenizer) =
  Some ({| tokenizer.Token_ := tokenizer.InvalidToken sampleTokenizer;
           tokenizer.Matched := "" |}, sampleTokenizer).
Proof.
  apply (proj2 (end_of_input_token sampleTokenizer 7)). reflexivity.
Defined.

Lemma Nexts_does_not_panic_witness :
  tokenizer.Next sampleTokenizer 4 = None.
Proof.
  apply (proj2 (Nexts_does_not_panic sampleTokenizer [])).
  - reflexivity.
  - discriminate.
  - reflexivity.
Defined.

Lemma EOFMatcher_matches_the_last_character_witness :
  tokenizer.Next
    (tokenizer.NewTokenizer ";" (-1) 0
       (fun _ => Some tokenizer.EOFMatcher.Match)) 9 =
  Some ({| tokenizer.Token_ := 9; tokenizer.Matched := ";" |},
        {| tokenizer.matchers := fun _ => Some tokenizer.EOFMatcher.Match;
           tokenizer.Input := ";"; tokenizer.Index := 1;
           tokenizer.InvalidToken := -1; tokenizer.EndOfFileToken := 0 |}).
Proof.
  apply (proj2 EOFMatcher_matches_the_last_character
           (tokenizer.NewTokenizer ";" (-1) 0
              (fun _ => Some tokenizer.EOFMatcher.Match)) 9 "" ";"%char);
    [reflexivity | reflexivity | discriminate | reflexivity].
Defined.

Lemma BodyMatcher_matches_a_flat_body_witness :
  tokenizer.BodyMatcher.Match
    {| tokenizer.BodyMatcher.Begin := "("; tokenizer.BodyMatcher.End_ := ")" |}
    ("f" ++ "(" ++ "a, b" ++ ")" ++ " + 1") (len "f") =
  Some (len "a, b" + 2).
Proof.
  apply (BodyMatcher_matches_a_flat_body "("%char ")"%char "f" "a, b" " + 1");
    reflexivity.
Defined.
